(** * modern-json-react: a shallow embedding of the core logic

    The pure logic of the editor is embedded module by module:
    the path engine ([core/path.ts]), the parser and formatter
    ([core/parser.ts], [core/formatter.ts]), the schema validator
    ([core/validator.ts]), the tree builder ([TreeEditor.tsx]), the
    undo/redo history ([hooks/useUndoRedo.ts]) and the text search
    ([hooks/useSearch.ts]).

    Conventions.
    - A JavaScript string is a [string]; its characters are 8-bit code
      units, so [String.length] plays the role of [.length].
    - A JavaScript number is an exact rational [Qc]: every JSON literal
      denotes one, and the rounding of IEEE doubles is not modelled.
    - [undefined] is a value of its own ([VUndefined]); a JSON value is a
      [value] without it.
    - Builtins of the host whose behaviour is not part of this
      repository ([JSON.parse], [JSON.stringify], the [RegExp] engine,
      number formatting) are fields of interfaces ([Host],
      [RegExpEngine]); the repository's functions are written against
      them. *)

From Stdlib Require Import Ascii String QArith Qcanon.
From stdpp Require Import base tactics option list strings gmap pretty sorting.

Open Scope string_scope.
Open Scope list_scope.
Open Scope Z_scope.

(** ** JavaScript values *)

#[local] Set Warnings "-register-all".

Inductive value : Type :=
| VUndefined
| VNull
| VBool (b : bool)
| VNum (n : Qc)
| VStr (s : string)
| VArr (elems : list value) (props : list (string * value))
| VObj (fields : list (string * value)).

(** An array carries its elements and, beside them, the named
    properties that an assignment such as [arr[-1] = x] creates.  An
    object is the list of its own enumerable properties in enumeration
    order. *)

(** ** Exceptions and the host interface *)

(** A computation that returns or throws; the thrown value carries the
    message of the error. *)
Inductive result (A : Type) : Type :=
| Ok (a : A)
| Throw (message : string).
Arguments Ok {A} a.
Arguments Throw {A} message.

#[global] Instance result_ret : MRet result := λ A a, Ok a.
#[global] Instance result_bind : MBind result := λ A B f m,
  match m with
  | Ok a => f a
  | Throw e => Throw e
  end.

(** [try { body } catch (e) { handler }]; the handler receives the
    message of the error. *)
Definition try_catch {A} (body : result A) (handler : string → result A) : result A :=
  match body with
  | Ok a => Ok a
  | Throw e => handler e
  end.

(** The third argument of [JSON.stringify]. *)
Inductive space : Type :=
| SpaceNone
| SpaceCount (n : Z)
| SpaceText (s : string).

(** Builtins of the host.  [JSON_parse] throws a [SyntaxError] on a
    text that is not JSON; [JSON_stringify v sp] is
    [JSON.stringify(v, null, sp)] for a value [v] other than
    [undefined]; on the tree-shaped values of this development it does
    not throw.
    [Number_toString] is the conversion of a number in a template
    literal, [localeCompare a b] is [a.localeCompare(b)]. *)
Class Host : Type := {
  JSON_parse : string → result value;
  JSON_stringify : value → space → string;
  Number_toString : Qc → string;
  localeCompare : string → string → Qc;
}.

(** The regular-expression engine.  [RegExp_new pattern ignoreCase]
    throws on an invalid pattern.  [RegExp_search re text from] is the
    search that [exec] and [test] perform: the leftmost match of [re]
    in [text] that starts at index [from] or later, given by the
    distance of its start from [from] and by the matched text. *)
Class RegExpEngine : Type := {
  regex : Type;
  RegExp_new : string → bool → result regex;
  RegExp_search : regex → string → nat → option (nat * string);
}.

Module Js.

Definition is_digit (c : ascii) : bool :=
  let n := nat_of_ascii c in (48 <=? n)%nat && (n <=? 57)%nat.

(** The number that an integer literal denotes. *)
Definition num (z : Z) : Qc := Q2Qc (inject_Z z).

Definition digit_value (c : ascii) : Z := Z.of_nat (nat_of_ascii c) - 48.

(** WhiteSpace and LineTerminator code units below 256. *)
Definition is_white_space (c : ascii) : bool :=
  let n := nat_of_ascii c in
  ((9 <=? n)%nat && (n <=? 13)%nat) || (n =? 32)%nat || (n =? 160)%nat.

Fixpoint span (p : ascii → bool) (s : string) : string * string :=
  match s with
  | String c r =>
      if p c then let '(a, b) := span p r in (String c a, b) else ("", s)
  | EmptyString => ("", "")
  end.

Fixpoint drop_while (p : ascii → bool) (s : string) : string :=
  match s with
  | String c r => if p c then drop_while p r else s
  | EmptyString => ""
  end.

Fixpoint all_chars (p : ascii → bool) (s : string) : bool :=
  match s with
  | String c r => p c && all_chars p r
  | EmptyString => true
  end.

(** [String.prototype.trim]. *)
Definition trim (s : string) : string :=
  String.rev (drop_while is_white_space (String.rev (drop_while is_white_space s))).

Fixpoint digits_value (acc : Z) (s : string) : Z :=
  match s with
  | String c r => digits_value (10 * acc + digit_value c) r
  | EmptyString => acc
  end.

(** [parseInt(s, 10)]: leading white space is skipped, a sign is read,
    then the longest run of decimal digits; [None] is [NaN]. *)
Definition parseInt (s : string) : option Z :=
  let s1 := drop_while is_white_space s in
  let '(neg, s2) :=
    match s1 with
    | String "-" r => (true, r)
    | String "+" r => (false, r)
    | _ => (false, s1)
    end in
  let ds := fst (span is_digit s2) in
  if decide (ds = "") then None
  else Some (if neg : bool then - digits_value 0 ds else digits_value 0 ds).

Definition double_quote : ascii := ascii_of_nat 34.
Definition backslash : ascii := ascii_of_nat 92.

(** [/^\d+$/.test(s)] *)
Definition all_digits (s : string) : bool :=
  negb (bool_decide (s = "")) && all_chars is_digit s.

(** [s.split(sep)] for a separator of one character. *)
Fixpoint split (sep : ascii) (s : string) : list string :=
  match s with
  | EmptyString => [""]
  | String c r =>
      if decide (c = sep) then "" :: split sep r
      else match split sep r with
           | w :: ws => String c w :: ws
           | [] => [String c ""]
           end
  end.

(** [s.replace(re, ...)] for a global regular expression [re] that never
    matches the empty string.  [matcher s] tells whether [re] matches at
    the start of [s], and then gives the replacement text and the length
    of the match; the scan resumes after the match. *)
Fixpoint replace_all_from (matcher : string → option (string * nat))
    (skip : nat) (s : string) : string :=
  match s with
  | EmptyString => ""
  | String c r =>
      match skip with
      | S k => replace_all_from matcher k r
      | O =>
          match matcher s with
          | Some (out, n) => out +:+ replace_all_from matcher (Nat.pred n) r
          | None => String c (replace_all_from matcher 0 r)
          end
      end
  end.

Definition replace_all (matcher : string → option (string * nat)) (s : string) : string :=
  replace_all_from matcher 0 s.

(** A number used as a property key: [ToString] of an integer, and
    ["NaN"] for [NaN]. *)
Definition to_property_key (n : option Z) : string :=
  match n with
  | Some z => pretty z
  | None => "NaN"
  end.

(** An array index is an integer in [0, 2^32 - 2]. *)
Definition is_array_index (z : Z) : bool :=
  (0 <=? z) && (z <? 4294967295).

(** The canonical numeric string of an array index, as a key. *)
Definition index_of_key (k : string) : option Z :=
  if all_digits k then
    let z := digits_value 0 k in
    if is_array_index z && bool_decide (pretty z = k) then Some z else None
  else None.

(** [obj[k]] on own properties. *)
Fixpoint get_property (fields : list (string * value)) (k : string) : value :=
  match fields with
  | (k', v) :: rest => if decide (k' = k) then v else get_property rest k
  | [] => VUndefined
  end.

Definition has_property (fields : list (string * value)) (k : string) : bool :=
  existsb (λ kv, bool_decide (kv.1 = k)) fields.

Fixpoint replace_property (fields : list (string * value)) (k : string) (v : value)
    : list (string * value) :=
  match fields with
  | (k', v') :: rest =>
      if decide (k' = k) then (k, v) :: rest
      else (k', v') :: replace_property rest k v
  | [] => []
  end.

(** A new integer-like key is enumerated among the integer-like keys,
    in ascending order, before the other keys. *)
Fixpoint insert_index_property (fields : list (string * value)) (i : Z) (k : string)
    (v : value) : list (string * value) :=
  match fields with
  | (k', v') :: rest =>
      match index_of_key k' with
      | Some j =>
          if i <? j then (k, v) :: fields
          else (k', v') :: insert_index_property rest i k v
      | None => (k, v) :: fields
      end
  | [] => [(k, v)]
  end.

(** Defining the own property [k]: an existing property keeps its
    place, a new one takes the place the enumeration order gives it. *)
Definition define_property (fields : list (string * value)) (k : string) (v : value)
    : list (string * value) :=
  if has_property fields k then replace_property fields k v
  else match index_of_key k with
       | Some i => insert_index_property fields i k v
       | None => fields ++ [(k, v)]
       end.

(** [arr[n]] for a number [n]. *)
Definition array_get (elems : list value) (props : list (string * value))
    (n : option Z) : value :=
  match n with
  | Some z =>
      if is_array_index z then default VUndefined (elems !! Z.to_nat z)
      else get_property props (to_property_key n)
  | None => get_property props (to_property_key n)
  end.

(** [const a = [...elems]; a[n] = v]: the spread copies the elements
    only; an index past the end extends the array with holes, and a
    number that is not an array index names a property. *)
Definition array_copy_set (elems : list value) (n : option Z) (v : value) : value :=
  match n with
  | Some z =>
      if is_array_index z then
        let i := Z.to_nat z in
        if (i <? length elems)%nat then VArr (<[i := v]> elems) []
        else VArr (elems ++ replicate (i - length elems) VUndefined ++ [v]) []
      else VArr elems [(to_property_key n, v)]
  | None => VArr elems [(to_property_key n, v)]
  end.

End Js.

(** ** Path engine ([core/path.ts]) *)

Module Path.

(** [/\[(\d+)\]/] at the start of [s], replaced by [.$1]. *)
Definition index_bracket (s : string) : option (string * nat) :=
  match s with
  | String "[" r =>
      let '(ds, r') := Js.span Js.is_digit r in
      match r' with
      | String "]" _ =>
          if decide (ds = "") then None
          else Some ("." +:+ ds, (2 + String.length ds)%nat)
      | _ => None
      end
  | _ => None
  end.

(** The bracket form with a quoted key, [q] being the quote character
    (double or single): an opening bracket, [q], one or more characters
    other than [q], then [q] and the closing bracket, at the start of
    [s]; it is replaced by a dot and the key. *)
Definition quoted_bracket (q : ascii) (s : string) : option (string * nat) :=
  match s with
  | String "[" (String q' r) =>
      if decide (q' = q) then
        let '(body, r') := Js.span (λ c, negb (bool_decide (c = q))) r in
        match r' with
        | String q'' (String "]" _) =>
            if decide (q'' = q ∧ body ≠ "") then
              Some ("." +:+ body, (4 + String.length body)%nat)
            else None
        | _ => None
        end
      else None
  | _ => None
  end.

Definition parsePath (path : string) : list string :=
  let normalized :=
    match path with
    | String "$" (String "." r) => r
    | String "$" r => r
    | _ => path
    end in
  let normalized := Js.replace_all index_bracket normalized in
  let normalized := Js.replace_all (quoted_bracket Js.double_quote) normalized in
  let normalized := Js.replace_all (quoted_bracket "'") normalized in
  filter (λ s, s ≠ "") (Js.split "." normalized).

(** The [for ... of] loop of [getByPath]. *)
Fixpoint getBySegments (current : value) (segments : list string) : value :=
  match segments with
  | [] => current
  | segment :: rest =>
      match current with
      | VNull | VUndefined => VUndefined
      | VArr elems props =>
          match Js.parseInt segment with
          | None => VUndefined
          | Some index => getBySegments (Js.array_get elems props (Some index)) rest
          end
      | VObj fields => getBySegments (Js.get_property fields segment) rest
      | _ => VUndefined
      end
  end.

Definition getByPath (obj : value) (path : string) : value :=
  if decide (path = "$" ∨ path = "") then obj
  else getBySegments obj (parsePath path).

(** A path is present in a value when it leads to a value. *)
Definition present (obj : value) (path : string) : Prop :=
  getByPath obj path ≠ VUndefined.

(** [setBySegments(current, segments, index, value)]; the list is the
    part of [segments] from [index] on. *)
Fixpoint setBySegments (current : value) (segments : list string) (v : value) : value :=
  match segments with
  | [] => v
  | segment :: rest =>
      match current with
      | VArr elems props =>
          let arrIndex := Js.parseInt segment in
          Js.array_copy_set elems arrIndex
            (setBySegments (Js.array_get elems props arrIndex) rest v)
      | VObj fields =>
          VObj (Js.define_property fields segment
                  (setBySegments (Js.get_property fields segment) rest v))
      | _ =>
          let isArrayIndex :=
            match rest with
            | nextSegment :: _ => Js.all_digits nextSegment
            | [] => false
            end in
          let container := if isArrayIndex then VArr [] [] else VObj [] in
          VObj [(segment, setBySegments container rest v)]
      end
  end.

Definition setByPath (obj : value) (path : string) (v : value) : value :=
  if decide (path = "$" ∨ path = "") then v
  else setBySegments obj (parsePath path) v.

(** [deleteBySegments] when [index] is past the last segment, which
    happens for a path without segments: [segments[index]] is
    [undefined], so that the function follows the property that
    [undefined] names (["undefined"] on an object, ["NaN"] on an array)
    down to the first value that is not a container. *)
Fixpoint deletePastEnd (current : value) : value :=
  match current with
  | VArr elems props =>
      Js.array_copy_set elems None
        ((fix member (l : list (string * value)) : value :=
            match l with
            | (k, m) :: rest => if decide (k = "NaN") then deletePastEnd m else member rest
            | [] => VUndefined
            end) props)
  | VObj fields =>
      VObj (Js.define_property fields "undefined"
              ((fix member (l : list (string * value)) : value :=
                  match l with
                  | (k, m) :: rest =>
                      if decide (k = "undefined") then deletePastEnd m else member rest
                  | [] => VUndefined
                  end) fields))
  | _ => current
  end.

(** [current.filter((_, i) => i !== arrIndex)]: the elements but the
    one at [arrIndex], in a new array.  An element [VUndefined] is
    kept as an [undefined] element is; a hole, which [filter] skips, is
    not told apart from it. *)
Definition array_without (elems : list value) (arrIndex : option Z) : value :=
  match arrIndex with
  | Some z => if 0 <=? z then VArr (delete (Z.to_nat z) elems) [] else VArr elems []
  | None => VArr elems []
  end.

(** [const { [segment]: _, ...rest } = current] *)
Definition object_without (fields : list (string * value)) (segment : string)
    : list (string * value) :=
  filter (λ kv, kv.1 ≠ segment) fields.

(** [deleteBySegments(current, segments, index)]; the list is the part
    of [segments] from [index] on. *)
Fixpoint deleteBySegments (current : value) (segments : list string) : value :=
  match segments with
  | [] => deletePastEnd current
  | [segment] =>
      match current with
      | VArr elems _ => array_without elems (Js.parseInt segment)
      | VObj fields => VObj (object_without fields segment)
      | _ => current
      end
  | segment :: rest =>
      match current with
      | VArr elems props =>
          let arrIndex := Js.parseInt segment in
          Js.array_copy_set elems arrIndex
            (deleteBySegments (Js.array_get elems props arrIndex) rest)
      | VObj fields =>
          VObj (Js.define_property fields segment
                  (deleteBySegments (Js.get_property fields segment) rest))
      | _ => current
      end
  end.

Definition deleteByPath (obj : value) (path : string) : value :=
  if decide (path = "$" ∨ path = "") then VUndefined
  else deleteBySegments obj (parsePath path).

(** No array on the way of the segments is met with a segment that
    [parseInt] does not read as a number.  Where the way leaves the
    value, nothing is asked. *)
Fixpoint indexable (current : value) (segments : list string) : Prop :=
  match segments with
  | [] => True
  | segment :: rest =>
      match current with
      | VArr elems props =>
          match Js.parseInt segment with
          | Some z => indexable (Js.array_get elems props (Some z)) rest
          | None => False
          end
      | VObj fields => indexable (Js.get_property fields segment) rest
      | _ => True
      end
  end.

(** Two segments that name different members of a container: two keys
    of an object, or two numbers of which the second is an index of an
    array. *)
Definition distinct_members (container : value) (k k' : string) : Prop :=
  match container with
  | VObj _ => k ≠ k'
  | VArr _ _ =>
      ∃ z z', Js.parseInt k = Some z ∧ Js.parseInt k' = Some z' ∧ z ≠ z'
              ∧ Js.is_array_index z' = true
  | _ => False
  end.

(** A segment given to [buildPath]: a string or a number. *)
Inductive segment : Type :=
| SegName (name : string)
| SegNumber (n : Z).




(** A name that a path can carry as it is: not empty, without a dot
    and without an opening bracket. *)
Definition plain_char (c : ascii) : bool :=
  negb (bool_decide (c = "."%char)) && negb (bool_decide (c = "["%char)).

Definition simple_name (s : string) : bool :=
  negb (bool_decide (s = "")) && Js.all_chars plain_char s.

Definition no_bracket (s : string) : bool :=
  Js.all_chars (λ c, negb (bool_decide (c = "["%char))) s.

Definition no_dot (s : string) : bool :=
  Js.all_chars (λ c, negb (bool_decide (c = "."%char))) s.

(** The last step of [parsePath]. *)
Definition segments_of (normalized : string) : list string :=
  filter (λ s, s ≠ "") (Js.split "." normalized).


(** The pieces of which the paths of this repository are made: a dot,
    a name, and an index between brackets, given by its digits. *)
Inductive piece : Type :=
| PDot
| PWord (w : string)
| PIndex (digits : string).

Definition render (p : piece) : string :=
  match p with
  | PDot => "."
  | PWord w => w
  | PIndex ds => "[" +:+ ds +:+ "]"
  end.

Fixpoint render_all (ps : list piece) : string :=
  match ps with
  | [] => ""
  | p :: rest => render p +:+ render_all rest
  end.

(** The text of the pieces once the index forms are replaced by a dot
    and their digits. *)
Fixpoint dotted (ps : list piece) : string :=
  match ps with
  | [] => ""
  | PDot :: rest => "." +:+ dotted rest
  | PWord w :: rest => w +:+ dotted rest
  | PIndex ds :: rest => ("." +:+ ds) +:+ dotted rest
  end.

(** The segments that the pieces stand for. *)
Definition words (ps : list piece) : list string :=
  flat_map (λ p, match p with PDot => [] | PWord w => [w] | PIndex ds => [ds] end) ps.



(** The pieces begin with a separator: a dot, or an index, which
    becomes a dot and digits. *)
Definition starts_separated (ps : list piece) : Prop :=
  match ps with
  | PWord _ :: _ => False
  | _ => True
  end.

(** Names are simple, indices are digits, and what follows a name or
    an index begins with a separator. *)
Fixpoint separated (ps : list piece) : Prop :=
  match ps with
  | [] => True
  | PDot :: rest => separated rest
  | PWord w :: rest => simple_name w = true ∧ starts_separated rest ∧ separated rest
  | PIndex ds :: rest => Js.all_digits ds = true ∧ starts_separated rest ∧ separated rest
  end.

End Path.

(** ** Undo/redo history ([hooks/useUndoRedo.ts]) *)

Module History.

(** [l.slice(start, end)], with [None] for an absent [end]; a negative
    bound counts from the end of the list. *)
Definition slice {A} (l : list A) (start : Z) (end_ : option Z) : list A :=
  let len := Z.of_nat (length l) in
  let clamp i := if i <? 0 then Z.max (len + i) 0 else Z.min i len in
  let k := clamp start in
  let final := clamp (match end_ with Some e => e | None => len end) in
  take (Z.to_nat (final - k)) (drop (Z.to_nat k) l).

Section History.
Context {T : Type}.

(** The three refs of the hook: [historyRef], [positionRef] and
    [lastUpdateTime]. *)
Record state : Type := State {
  history : list T;
  position : Z;
  lastUpdateTime : Z;
}.

(** The options of the hook; [useUndoRedo] defaults them to 100 and
    300. *)
Variable maxHistory : Z.
Variable groupingInterval : Z.

Definition init (initialValue : T) : state :=
  {| history := [initialValue]; position := 0; lastUpdateTime := 0 |}.

(** [set(value)], [now] being the value of [Date.now()]. *)
Definition set (now : Z) (v : T) (st : state) : state :=
  let shouldGroup := now - lastUpdateTime st <? groupingInterval in
  let prev := history st in
  let pos := position st in
  let '(newHistory, newPos) :=
    if shouldGroup && (0 <? pos)
    then (slice prev 0 (Some pos) ++ [v], pos)
    else (slice prev 0 (Some (pos + 1)) ++ [v], pos + 1) in
  let '(newHistory, newPos) :=
    if maxHistory <? Z.of_nat (length newHistory) then
      let trimCount := Z.of_nat (length newHistory) - maxHistory in
      (slice newHistory trimCount None, newPos - trimCount)
    else (newHistory, newPos) in
  {| history := newHistory; position := Z.max 0 newPos; lastUpdateTime := now |}.

Definition undo (st : state) : state :=
  if 0 <? position st
  then {| history := history st; position := position st - 1;
          lastUpdateTime := lastUpdateTime st |}
  else st.

Definition redo (st : state) : state :=
  if position st <? Z.of_nat (length (history st)) - 1
  then {| history := history st; position := position st + 1;
          lastUpdateTime := lastUpdateTime st |}
  else st.

Definition reset (v : T) (st : state) : state :=
  {| history := [v]; position := 0; lastUpdateTime := 0 |}.

(** What the hook returns on a render. *)
Definition current (st : state) : option T :=
  if position st <? 0 then None else history st !! Z.to_nat (position st).
Definition canUndo (st : state) : bool := 0 <? position st.
Definition canRedo (st : state) : bool :=
  position st <? Z.of_nat (length (history st)) - 1.
Definition historyLength (st : state) : nat := length (history st).

(** The calls a client can make, and the states they lead to. *)
Inductive call : Type :=
| CallSet (now : Z) (v : T)
| CallUndo
| CallRedo
| CallReset (v : T).

Definition apply_call (c : call) (st : state) : state :=
  match c with
  | CallSet now v => set now v st
  | CallUndo => undo st
  | CallRedo => redo st
  | CallReset v => reset v st
  end.

Inductive reachable : state → Prop :=
| reachable_init initialValue : reachable (init initialValue)
| reachable_call c st : reachable st → reachable (apply_call c st).

(** A [set] call is non-grouped when the time elapsed since the
    previous update is at least the grouping interval. *)
Definition non_grouped (now : Z) (st : state) : Prop :=
  groupingInterval ≤ now - lastUpdateTime st.

(** [n] successive [set] calls, given as (time, value) pairs. *)
Fixpoint set_all (calls : list (Z * T)) (st : state) : state :=
  match calls with
  | [] => st
  | (now, v) :: rest => set_all rest (set now v st)
  end.

Fixpoint all_non_grouped (calls : list (Z * T)) (st : state) : Prop :=
  match calls with
  | [] => True
  | (now, v) :: rest => non_grouped now st ∧ all_non_grouped rest (set now v st)
  end.

(** The invariant of the data model. *)
Definition position_in_range (st : state) : Prop :=
  0 ≤ position st < Z.of_nat (length (history st)).

(** What holds of every reachable state, whatever the options.  Either
    the history is the single entry of [init] and [reset], or it has
    been emptied by a non-positive [maxHistory], or the position is in
    range and the length within [maxHistory]. *)
Definition bounded (st : state) : Prop :=
  let pos := position st in
  let len := Z.of_nat (length (history st)) in
  0 ≤ pos ∧
  ((pos = 0 ∧ len = 1) ∨ (pos = 0 ∧ len = 0 ∧ maxHistory ≤ 0)
   ∨ (pos < len ∧ len ≤ maxHistory)).

End History.

Arguments state : clear implicits.

End History.

(** ** Schema validator ([core/validator.ts]) *)

Module Validator.

Inductive ValidationSeverity : Type := error | warning | info.

(** [schema.type]: a type name or a union of type names. *)
Inductive type_spec : Type :=
| TypeName (name : string)
| TypeUnion (names : list string).

(** The schema is a loosely typed record; an absent field is [None].
    [items] is one schema or, in tuple form, a list of schemas. *)
Inductive JSONSchema : Type := Schema {
  type : option type_spec;
  enum : option (list value);
  minLength : option Qc;
  maxLength : option Qc;
  pattern : option string;
  minimum : option Qc;
  maximum : option Qc;
  exclusiveMinimum : option Qc;
  exclusiveMaximum : option Qc;
  multipleOf : option Qc;
  minItems : option Qc;
  maxItems : option Qc;
  uniqueItems : bool;
  items : option (JSONSchema + list JSONSchema);
  required : option (list string);
  minProperties : option Qc;
  maxProperties : option Qc;
  properties : option (list (string * JSONSchema));
  additionalProperties : option bool;
}.

(** The schema [{}]. *)
Definition emptySchema : JSONSchema :=
  {| type := None; enum := None; minLength := None; maxLength := None;
     pattern := None; minimum := None; maximum := None;
     exclusiveMinimum := None; exclusiveMaximum := None; multipleOf := None;
     minItems := None; maxItems := None; uniqueItems := false; items := None;
     required := None; minProperties := None; maxProperties := None;
     properties := None; additionalProperties := None |}.

(** The [schemaRule] of an error: the part of the schema that was
    violated. *)
Inductive rule : Type :=
| RuleType (t : type_spec)
| RuleValues (vs : list value)
| RuleNumber (n : Qc)
| RuleText (s : string)
| RuleBool (b : bool)
| RuleKeys (ks : list string).

Record ValidationError : Type := {
  message : string;
  path : string;
  severity : ValidationSeverity;
  schemaKeyword : string;
  schemaRule : rule;
  actualValue : value;
}.

Record ValidationResult : Type := {
  valid : bool;
  errors : list ValidationError;
}.

(** [makeError] with the default severity; an omitted [actualValue] is
    [undefined]. *)
Definition makeError (message path schemaKeyword : string) (schemaRule : rule)
    (actualValue : value) : ValidationError :=
  {| message := message; path := path; severity := error;
     schemaKeyword := schemaKeyword; schemaRule := schemaRule;
     actualValue := actualValue |}.

Definition Qc_ltb (a b : Qc) : bool := negb (Qle_bool b a).
Definition Qc_leb (a b : Qc) : bool := Qle_bool a b.
Definition of_nat (n : nat) : Qc := Q2Qc (inject_Z (Z.of_nat n)).

(** [Number.isInteger] *)
Definition isInteger (n : Qc) : bool := bool_decide (Qden n = 1%positive).

(** [a % b !== 0]; the remainder by zero is [NaN]. *)
Definition remainder_nonzero (a b : Qc) : bool :=
  if decide (b = 0%Qc) then true
  else let q := (a / b)%Qc in
       negb (bool_decide ((Qnum q mod Z.pos (Qden q)) = 0)).

Definition getJsonType (v : value) : string :=
  match v with
  | VNull => "null"
  | VArr _ _ => "array"
  | VNum n => if isInteger n then "integer" else "number"
  | VStr _ => "string"
  | VBool _ => "boolean"
  | VObj _ => "object"
  | VUndefined => "undefined"
  end.

(** [arr.join(sep)] on strings. *)
Fixpoint join (sep : string) (l : list string) : string :=
  match l with
  | [] => ""
  | [x] => x
  | x :: r => x +:+ sep +:+ join sep r
  end.

(** [allowedTypes.includes(name)] *)
Definition includes (l : list string) (name : string) : bool :=
  existsb (λ x, bool_decide (x = name)) l.

(** The text of [schema.type] in a template literal. *)
Definition type_text (t : type_spec) : string :=
  match t with
  | TypeName name => name
  | TypeUnion names => join "," names
  end.

(** The truthiness of [schema.type]. *)
Definition type_truthy (t : option type_spec) : bool :=
  match t with
  | None | Some (TypeName "") => false
  | Some _ => true
  end.

(** [schema.type === 'null'] *)
Definition is_null_name (t : type_spec) : bool :=
  match t with
  | TypeName "null" => true
  | _ => false
  end.

(** The number of distinct members: [new Set(l).size]. *)
Definition distinct_count {A} `{EqDecision A} (l : list A) : nat :=
  length (remove_dups l).

(** The schema [{type: 'number', minimum: 0}]. *)
Definition minimum_schema : JSONSchema :=
  Schema (Some (TypeName "number")) None None None None
    (Some (Js.num 0)) None None None None None None false None None None None None None.

Section Validator.
Context `{Host} `{RegExpEngine}.

(** [JSON.stringify(v)], which is [undefined] for [undefined]. *)
Definition stringify (v : value) : option string :=
  match v with
  | VUndefined => None
  | _ => Some (JSON_stringify v SpaceNone)
  end.

Definition deepEqual (a b : value) : bool :=
  match a, b with
  | VUndefined, VUndefined => true
  | VNull, VNull => true
  | VBool x, VBool y => bool_decide (x = y)
  | VNum x, VNum y => bool_decide (x = y)
  | VStr x, VStr y => bool_decide (x = y)
  | (VArr _ _ | VObj _), (VArr _ _ | VObj _) =>
      bool_decide (stringify a = stringify b)
  | _, _ => false
  end.

(** The checks of a string value. *)
Definition stringErrors (s : string) (schema : JSONSchema) (path : string)
    : result (list ValidationError) :=
  let len := of_nat (String.length s) in
  let e1 :=
    match minLength schema with
    | Some m =>
        if Qc_ltb len m then
          [makeError ("String must be at least " +:+ Number_toString m +:+ " characters")
             path "minLength" (RuleNumber m) (VStr s)]
        else []
    | None => []
    end in
  let e2 :=
    match maxLength schema with
    | Some m =>
        if Qc_ltb m len then
          [makeError ("String must be at most " +:+ Number_toString m +:+ " characters")
             path "maxLength" (RuleNumber m) (VStr s)]
        else []
    | None => []
    end in
  match pattern schema with
  | None | Some "" => Ok (e1 ++ e2)
  | Some p =>
      re ← RegExp_new p false;
      match RegExp_search re s 0 with
      | Some _ => Ok (e1 ++ e2)
      | None =>
          Ok (e1 ++ e2 ++
                [makeError ("String must match pattern " +:+ String Js.double_quote p
                              +:+ String Js.double_quote "")
                   path "pattern" (RuleText p) (VStr s)])
      end
  end.

(** The checks of a number value. *)
Definition numberErrors (n : Qc) (schema : JSONSchema) (path : string)
    : list ValidationError :=
  let check (bound : option Qc) (fails : Qc → bool) (text keyword : string) :=
    match bound with
    | Some m =>
        if fails m then
          [makeError (text +:+ Number_toString m) path keyword (RuleNumber m) (VNum n)]
        else []
    | None => []
    end in
  check (minimum schema) (λ m, Qc_ltb n m) "Value must be >= " "minimum"
  ++ check (maximum schema) (λ m, Qc_ltb m n) "Value must be <= " "maximum"
  ++ check (exclusiveMinimum schema) (λ m, Qc_leb n m) "Value must be > " "exclusiveMinimum"
  ++ check (exclusiveMaximum schema) (λ m, Qc_leb m n) "Value must be < " "exclusiveMaximum"
  ++ check (multipleOf schema) (λ m, remainder_nonzero n m)
       "Value must be a multiple of " "multipleOf".

(** The checks of an array value that do not recurse. *)
Definition arrayErrors (elems : list value) (v : value) (schema : JSONSchema)
    (path : string) : list ValidationError :=
  let len := of_nat (length elems) in
  let e1 :=
    match minItems schema with
    | Some m =>
        if Qc_ltb len m then
          [makeError ("Array must have at least " +:+ Number_toString m +:+ " items")
             path "minItems" (RuleNumber m) v]
        else []
    | None => []
    end in
  let e2 :=
    match maxItems schema with
    | Some m =>
        if Qc_ltb m len then
          [makeError ("Array must have at most " +:+ Number_toString m +:+ " items")
             path "maxItems" (RuleNumber m) v]
        else []
    | None => []
    end in
  let e3 :=
    if uniqueItems schema
       && negb (distinct_count (map stringify elems)
                  =? length elems)%nat
    then [makeError "Array items must be unique" path "uniqueItems" (RuleBool true) v]
    else [] in
  e1 ++ e2 ++ e3.

(** The checks of an object value that do not recurse. *)
Definition objectErrors (fields : list (string * value)) (v : value)
    (schema : JSONSchema) (path : string) : list ValidationError :=
  let count := of_nat (length fields) in
  let e1 :=
    match required schema with
    | Some reqs =>
        flat_map (λ req,
          if Js.has_property fields req then []
          else [makeError ("Missing required property " +:+ String Js.double_quote req
                             +:+ String Js.double_quote "")
                  path "required" (RuleKeys reqs) VUndefined]) reqs
    | None => []
    end in
  let e2 :=
    match minProperties schema with
    | Some m =>
        if Qc_ltb count m then
          [makeError ("Object must have at least " +:+ Number_toString m +:+ " properties")
             path "minProperties" (RuleNumber m) v]
        else []
    | None => []
    end in
  let e3 :=
    match maxProperties schema with
    | Some m =>
        if Qc_ltb m count then
          [makeError ("Object must have at most " +:+ Number_toString m +:+ " properties")
             path "maxProperties" (RuleNumber m) v]
        else []
    | None => []
    end in
  e1 ++ e2 ++ e3.

(** [props[key]] *)
Fixpoint lookup_schema (props : list (string * JSONSchema)) (key : string)
    : option JSONSchema :=
  match props with
  | (k, s) :: rest => if decide (k = key) then Some s else lookup_schema rest key
  | [] => None
  end.

Definition typeErrors (v : value) (schema : JSONSchema) (path : string)
    : list ValidationError :=
  match type schema with
  | Some t =>
      if type_truthy (Some t) then
        let actualType := getJsonType v in
        let allowedTypes := match t with TypeName n => [n] | TypeUnion ns => ns end in
        let typeMatches :=
          includes allowedTypes actualType
          || (bool_decide (actualType = "integer") && includes allowedTypes "number") in
        if typeMatches then []
        else [makeError ("Expected type " +:+ String Js.double_quote (join " | " allowedTypes)
                           +:+ String Js.double_quote ", got "
                           +:+ String Js.double_quote actualType
                           +:+ String Js.double_quote "")
                path "type" (RuleType t) v]
      else []
  | None => []
  end.

Definition enumErrors (v : value) (schema : JSONSchema) (path : string)
    : list ValidationError :=
  match enum schema with
  | Some candidates =>
      if existsb (λ e, deepEqual e v) candidates then []
      else [makeError ("Value must be one of: "
                         +:+ join ", " (map (λ e, default "" (stringify e)) candidates))
              path "enum" (RuleValues candidates) v]
  | None => []
  end.

(** [validateSchema(value, schema, path)].  The errors are collected in
    the order in which the source pushes them. *)
Fixpoint validateSchema (v : value) (schema : JSONSchema) (path : string)
    : result ValidationResult :=
  match v with
  | VUndefined | VNull =>
      let errors :=
        match type schema with
        | Some t =>
            if type_truthy (Some t) && negb (is_null_name t) then
              [makeError ("Expected type " +:+ String Js.double_quote (type_text t)
                            +:+ String Js.double_quote ", got null")
                 path "type" (RuleType t) VUndefined]
            else []
        | None => []
        end in
      Ok {| valid := bool_decide (length errors = 0%nat); errors := errors |}
  | _ =>
      let e_type := typeErrors v schema path in
      let e_enum := enumErrors v schema path in
      e_string ← match v with
                 | VStr s => stringErrors s schema path
                 | _ => Ok []
                 end;
      let e_number := match v with
                      | VNum n => numberErrors n schema path
                      | _ => []
                      end in
      e_array ←
        match v with
        | VArr elems _ =>
            e_items ←
              match items schema with
              | Some (inl itemSchema) =>
                  (fix each (l : list value) (index : nat)
                     : result (list ValidationError) :=
                     match l with
                     | [] => Ok []
                     | item :: rest =>
                         r ← validateSchema item itemSchema
                               (path +:+ "[" +:+ pretty index +:+ "]");
                         more ← each rest (S index);
                         Ok (errors r ++ more)
                     end) elems 0%nat
              | _ => Ok []
              end;
            Ok (arrayErrors elems v schema path ++ e_items)
        | _ => Ok []
        end;
      e_object ←
        match v with
        | VObj fields =>
            e_props ←
              match properties schema with
              | Some props =>
                  (fix each (l : list (string * value))
                     : result (list ValidationError) :=
                     match l with
                     | [] => Ok []
                     | (key, member) :: rest =>
                         here ←
                           match lookup_schema props key with
                           | Some propSchema =>
                               r ← validateSchema member propSchema (path +:+ "." +:+ key);
                               Ok (errors r)
                           | None =>
                               if bool_decide (additionalProperties schema = Some false)
                               then Ok [makeError ("Unexpected property "
                                                     +:+ String Js.double_quote key
                                                     +:+ String Js.double_quote "")
                                          (path +:+ "." +:+ key) "additionalProperties"
                                          (RuleBool false) member]
                               else Ok []
                           end;
                         more ← each rest;
                         Ok (here ++ more)
                     end) fields
              | None => Ok []
              end;
            Ok (objectErrors fields v schema path ++ e_props)
        | _ => Ok []
        end;
      let errors := e_type ++ e_enum ++ e_string ++ e_number ++ e_array ++ e_object in
      Ok {| valid := bool_decide (length errors = 0%nat); errors := errors |}
  end.

(** The loop of [validateSchema] over the items of an array, for a
    given validation of an item. *)
Fixpoint itemErrors (validate : value → string → result ValidationResult)
    (path : string) (l : list value) (index : nat) : result (list ValidationError) :=
  match l with
  | [] => Ok []
  | item :: rest =>
      r ← validate item (path +:+ "[" +:+ pretty index +:+ "]");
      more ← itemErrors validate path rest (S index);
      Ok (errors r ++ more)
  end.

(** The loop of [validateSchema] over the properties of an object, for
    a given validation of a member. *)
Fixpoint propertyErrors
    (validate : value → JSONSchema → string → result ValidationResult)
    (props : list (string * JSONSchema)) (additional : option bool)
    (path : string) (l : list (string * value)) : result (list ValidationError) :=
  match l with
  | [] => Ok []
  | (key, member) :: rest =>
      here ←
        match lookup_schema props key with
        | Some propSchema =>
            r ← validate member propSchema (path +:+ "." +:+ key);
            Ok (errors r)
        | None =>
            if bool_decide (additional = Some false)
            then Ok [makeError ("Unexpected property "
                                  +:+ String Js.double_quote key
                                  +:+ String Js.double_quote "")
                       (path +:+ "." +:+ key) "additionalProperties"
                       (RuleBool false) member]
            else Ok []
        end;
      more ← propertyErrors validate props additional path rest;
      Ok (here ++ more)
  end.

End Validator.

End Validator.

(** ** Parser ([core/parser.ts]) *)

Module Parser.

Record ParseError : Type := {
  message : string;
  line : Z;
  column : Z;
  offset : Z;
}.

Record ParseResult : Type := {
  value_ : value;
  error : option ParseError;
}.

Definition newline : ascii := ascii_of_nat 10.

(** [text[i] === '\n'] *)
Definition is_newline (c : ascii) : bool := bool_decide (c = newline).

(** A line terminator, which [.] does not match. *)
Definition is_line_terminator (c : ascii) : bool :=
  bool_decide (c = newline) || bool_decide (c = ascii_of_nat 13).

(** The loop of [getLineColFromOffset]: [i] runs over the text while
    [i < offset]. *)
Fixpoint lineColLoop (text : string) (i offset line lastNewline : Z) : Z * Z :=
  match text with
  | String c r =>
      if i <? offset then
        if is_newline c then lineColLoop r (i + 1) offset (line + 1) i
        else lineColLoop r (i + 1) offset line lastNewline
      else (line, lastNewline)
  | EmptyString => (line, lastNewline)
  end.

Definition getLineColFromOffset (text : string) (offset : Z) : Z * Z :=
  let '(line, lastNewline) := lineColLoop text 0 offset 1 (-1) in
  (line, offset - lastNewline).

(** The loop of [getOffsetFromLineCol]; [len] is [text.length]. *)
Fixpoint offsetLoop (text : string) (i currentLine line column len : Z) : Z :=
  match text with
  | String c r =>
      if decide (currentLine = line) then i + column - 1
      else offsetLoop r (i + 1) (if is_newline c then currentLine + 1 else currentLine)
             line column len
  | EmptyString => len
  end.

Definition getOffsetFromLineCol (text : string) (line column : Z) : Z :=
  offsetLoop text 0 1 line column (Z.of_nat (String.length text)).

(** [s] without the prefix [p], when it has it. *)
Fixpoint strip_prefix (p s : string) : option string :=
  match p, s with
  | EmptyString, _ => Some s
  | String a p', String b s' => if decide (a = b) then strip_prefix p' s' else None
  | String _ _, EmptyString => None
  end.

(** One or more digits at the start of [s], and what follows them. *)
Definition leading_digits (s : string) : option (string * string) :=
  let '(ds, r) := Js.span Js.is_digit s in
  if decide (ds = "") then None else Some (ds, r).

(** [/at position (\d+)/] at the start of [s]: the capture. *)
Definition at_position (s : string) : option string :=
  r ← strip_prefix "at position " s;
  fst <$> leading_digits r.

(** [/at line (\d+) column (\d+)/] at the start of [s]: the captures. *)
Definition at_line_column (s : string) : option (string * string) :=
  r ← strip_prefix "at line " s;
  '(l, r) ← leading_digits r;
  r ← strip_prefix " column " r;
  '(c, _) ← leading_digits r;
  Some (l, c).

(** [s.match(re)]: the leftmost position at which [m] succeeds. *)
Fixpoint first_match {A} (m : string → option A) (s : string) : option A :=
  match m s with
  | Some a => Some a
  | None =>
      match s with
      | String _ r => first_match m r
      | EmptyString => None
      end
  end.

(** [s.replace(re, '')] for a regular expression [re] that ends in
    [.*$]: the text is cut at the leftmost position where [m] holds. *)
Fixpoint cut_at (m : string → bool) (s : string) : string :=
  if m s then ""
  else match s with
       | String c r => String c (cut_at m r)
       | EmptyString => ""
       end.

(** [/ at position \d+.*$/] at the start of [s]. *)
Definition position_clause (s : string) : bool :=
  match strip_prefix " at position " s with
  | Some r =>
      bool_decide (is_Some (leading_digits r))
      && Js.all_chars (λ c, negb (is_line_terminator c)) r
  | None => false
  end.

(** [/ at line \d+ column \d+.*$/] at the start of [s]. *)
Definition line_column_clause (s : string) : bool :=
  match strip_prefix " at line " s with
  | Some r =>
      match leading_digits r with
      | Some (_, r1) =>
          match strip_prefix " column " r1 with
          | Some r2 =>
              bool_decide (is_Some (leading_digits r2))
              && Js.all_chars (λ c, negb (is_line_terminator c)) r
          | None => false
          end
      | None => false
      end
  | None => false
  end.

(** [parseInt] of a captured run of digits. *)
Definition parse_digits (ds : string) : Z := Js.digits_value 0 ds.

(** The text after a run of digits does not start with a digit, so
    that [\d+] captures the run and no more. *)
Definition ends_digits (tail : string) : Prop :=
  match tail with String c _ => Js.is_digit c = false | EmptyString => True end.

(** [extractParseError(err, text)], [msg] being [err.message]. *)
Definition extractParseError (msg text : string) : ParseError :=
  let posMatch := first_match at_position msg in
  let lineColMatch := first_match at_line_column msg in
  let '(offset, line, column) :=
    match lineColMatch, posMatch with
    | Some (l, c), _ =>
        let line := parse_digits l in
        let column := parse_digits c in
        (getOffsetFromLineCol text line column, line, column)
    | None, Some p =>
        let offset := parse_digits p in
        let '(line, column) := getLineColFromOffset text offset in
        (offset, line, column)
    | None, None => (-1, 1, 1)
    end in
  let cleanMessage := default msg (strip_prefix "JSON.parse: " msg) in
  let cleanMessage := cut_at position_clause cleanMessage in
  let cleanMessage := cut_at line_column_clause cleanMessage in
  {| message := if decide (cleanMessage = "") then "Invalid JSON" else cleanMessage;
     line := line; column := column; offset := Z.max 0 offset |}.

Section Parser.
Context `{Host}.

Definition parseJson (text : string) : result ParseResult :=
  if decide (Js.trim text = "") then Ok {| value_ := VUndefined; error := None |}
  else
    try_catch
      (v ← JSON_parse text;
       Ok {| value_ := v; error := None |})
      (λ msg, Ok {| value_ := VUndefined; error := Some (extractParseError msg text) |}).

Definition isValidJson (text : string) : result bool :=
  try_catch (_ ← JSON_parse text; Ok true) (λ _, Ok false).

End Parser.

End Parser.

(** ** Formatter ([core/formatter.ts]) *)

Module Formatter.

(** [IndentationType]: [2], [4] or ['tab']. *)
Inductive IndentationType : Type := Indent2 | Indent4 | IndentTab.

(** [indent === 'tab' ? '\t' : indent] *)
Definition space_of (indent : IndentationType) : space :=
  match indent with
  | Indent2 => SpaceCount 2
  | Indent4 => SpaceCount 4
  | IndentTab => SpaceText (String (ascii_of_nat 9) "")
  end.

(** The [order] argument of [sortJsonKeys]; a custom comparator may
    throw. *)
Inductive key_order : Type :=
| Asc
| Desc
| Custom (cmp : string → string → result Qc).

Section Formatter.
Context `{Host}.

Definition comparator (order : key_order) : string → string → result Qc :=
  match order with
  | Custom cmp => cmp
  | Desc => λ a b, Ok (localeCompare b a)
  | Asc => λ a b, Ok (localeCompare a b)
  end.

(** [keys.sort(cmp)]: a stable sort; [k] goes before the first key that
    does not compare below it. *)
Fixpoint insert_key (cmp : string → string → result Qc) (k : string)
    (sorted : list string) : result (list string) :=
  match sorted with
  | [] => Ok [k]
  | x :: rest =>
      c ← cmp k x;
      if Qle_bool (c : Qc) 0 then Ok (k :: sorted)
      else (rest' ← insert_key cmp k rest; Ok (x :: rest'))
  end.

Fixpoint sort_keys (cmp : string → string → result Qc) (keys : list string)
    : result (list string) :=
  match keys with
  | [] => Ok []
  | k :: rest => sorted ← sort_keys cmp rest; insert_key cmp k sorted
  end.

(** [deepSortKeys(value, order)].  The members are sorted first and
    then entered in the order of the sorted keys. *)
Fixpoint deepSortKeys (v : value) (order : key_order) : result value :=
  match v with
  | VArr elems _ =>
      elems' ←
        (fix each (l : list value) : result (list value) :=
           match l with
           | [] => Ok []
           | item :: rest =>
               item' ← deepSortKeys item order;
               rest' ← each rest;
               Ok (item' :: rest')
           end) elems;
      Ok (VArr elems' [])
  | VObj fields =>
      keys ← sort_keys (comparator order) (map fst fields);
      fields' ←
        (fix each (l : list (string * value)) : result (list (string * value)) :=
           match l with
           | [] => Ok []
           | (k, member) :: rest =>
               member' ← deepSortKeys member order;
               rest' ← each rest;
               Ok ((k, member') :: rest')
           end) fields;
      Ok (VObj (foldl (λ sorted key,
                         Js.define_property sorted key (Js.get_property fields' key))
                  [] keys))
  | _ => Ok v
  end.

Definition formatJson (text : string) (indent : IndentationType) : result string :=
  try_catch
    (parsed ← JSON_parse text;
     Ok (JSON_stringify parsed (space_of indent)))
    (λ _, Ok text).

Definition minifyJson (text : string) : result string :=
  try_catch
    (parsed ← JSON_parse text;
     Ok (JSON_stringify parsed SpaceNone))
    (λ _, Ok text).

Definition sortJsonKeys (text : string) (order : key_order) (indent : IndentationType)
    : result string :=
  try_catch
    (parsed ← JSON_parse text;
     sorted ← deepSortKeys parsed order;
     Ok (JSON_stringify sorted (space_of indent)))
    (λ _, Ok text).

End Formatter.


(** A value as [JSON.parse] gives it: an array has its elements and
    no property beside them. *)
Fixpoint parsed (v : value) : Prop :=
  match v with
  | VArr elems props =>
      props = []
      ∧ (fix each (l : list value) : Prop :=
           match l with
           | [] => True
           | item :: rest => parsed item ∧ each rest
           end) elems
  | VObj fields =>
      (fix each (l : list (string * value)) : Prop :=
         match l with
         | [] => True
         | (_, member) :: rest => parsed member ∧ each rest
         end) fields
  | _ => True
  end.

Record JsonStats : Type := {
  properties : nat;
  arrays : nat;
  totalNodes : nat;
  maxDepth : nat;
  byteSize : nat;
}.

(** [new TextEncoder().encode(text).length]: a code unit below 128
    takes one byte of UTF-8, another one two. *)
Fixpoint utf8_length (text : string) : nat :=
  match text with
  | EmptyString => 0
  | String c r => (if (nat_of_ascii c <? 128)%nat then 1 else 2) + utf8_length r
  end.

(** The local function [walk] of [computeStats]; the statistics it
    updates are passed through.  An element [VUndefined] of an array is
    visited as an [undefined] element is. *)
Fixpoint walk (val : value) (depth : nat) (stats : JsonStats) : JsonStats :=
  let stats :=
    {| properties := properties stats; arrays := arrays stats;
       totalNodes := S (totalNodes stats);
       maxDepth := Nat.max (maxDepth stats) depth;
       byteSize := byteSize stats |} in
  match val with
  | VArr elems _ =>
      let stats :=
        {| properties := properties stats; arrays := S (arrays stats);
           totalNodes := totalNodes stats; maxDepth := maxDepth stats;
           byteSize := byteSize stats |} in
      (fix each (l : list value) (stats : JsonStats) : JsonStats :=
         match l with
         | [] => stats
         | item :: rest => each rest (walk item (depth + 1) stats)
         end) elems stats
  | VObj fields =>
      let stats :=
        {| properties := (properties stats + length fields)%nat; arrays := arrays stats;
           totalNodes := totalNodes stats; maxDepth := maxDepth stats;
           byteSize := byteSize stats |} in
      (fix each (l : list (string * value)) (stats : JsonStats) : JsonStats :=
         match l with
         | [] => stats
         | (_, member) :: rest => each rest (walk member (depth + 1) stats)
         end) fields stats
  | _ => stats
  end.

(** [computeStats(value, text)]; [None] is an absent [text]. *)
Definition computeStats (v : value) (text : option string) : JsonStats :=
  let stats :=
    {| properties := 0; arrays := 0; totalNodes := 0; maxDepth := 0;
       byteSize := match text with
                   | None | Some EmptyString => 0
                   | Some t => utf8_length t
                   end |} in
  match v with
  | VUndefined => stats
  | _ => walk v 0 stats
  end.

(** How the statistics [stats'] stand to the statistics [stats] from
    which a walk started at depth [depth]: the walk has counted
    [count] nodes or more, fewer properties than nodes, at most as
    many arrays as nodes, and has gone less deep than the nodes it
    counted allow. *)
Definition walked (depth count : nat) (stats stats' : JsonStats) : Prop :=
  byteSize stats' = byteSize stats
  ∧ (totalNodes stats + count ≤ totalNodes stats')%nat
  ∧ (properties stats ≤ properties stats')%nat
  ∧ (properties stats' + totalNodes stats + count
     ≤ properties stats + totalNodes stats')%nat
  ∧ (arrays stats ≤ arrays stats')%nat
  ∧ (arrays stats' + totalNodes stats ≤ arrays stats + totalNodes stats')%nat
  ∧ (maxDepth stats ≤ maxDepth stats')%nat
  ∧ (maxDepth stats' + totalNodes stats + 1
     ≤ Nat.max (maxDepth stats + totalNodes stats + 1) (depth + totalNodes stats'))%nat.

End Formatter.

(** ** Tree builder ([components/TreeEditor/TreeEditor.tsx]) *)

Module Tree.

Inductive JsonNodeType : Type :=
| TString | TNumber | TBoolean | TNull | TObject | TArray.

(** [key: string | number] *)
Inductive node_key : Type :=
| KeyName (name : string)
| KeyIndex (index : nat).

Inductive TreeNodeData : Type := Node {
  id : string;
  key : node_key;
  value_ : value;
  type : JsonNodeType;
  path : string;
  depth : nat;
  expanded : bool;
  children : list TreeNodeData;
  childCount : nat;
}.

Definition getType (v : value) : JsonNodeType :=
  match v with
  | VNull => TNull
  | VArr _ _ => TArray
  | VStr _ => TString
  | VNum _ => TNumber
  | VBool _ => TBoolean
  | VObj _ => TObject
  | VUndefined => TString
  end.

(** [buildTree(value, path, key, depth, expandedPaths)]; [None] is
    [null].  [.filter(Boolean)] drops the children that are [null]. *)
Fixpoint buildTree (v : value) (path : string) (key : node_key) (depth : nat)
    (expandedPaths : gset string) : option TreeNodeData :=
  match v with
  | VUndefined => None
  | _ =>
      let expanded := bool_decide (path ∈ expandedPaths) in
      let '(children, childCount) :=
        match v with
        | VObj fields =>
            (if expanded then
               (fix each (l : list (string * value)) : list TreeNodeData :=
                  match l with
                  | [] => []
                  | (k, member) :: rest =>
                      match buildTree member (path +:+ "." +:+ k) (KeyName k)
                              (depth + 1) expandedPaths with
                      | Some child => child :: each rest
                      | None => each rest
                      end
                  end) fields
             else [],
             length fields)
        | VArr elems _ =>
            (if expanded then
               (fix each (l : list value) (i : nat) : list TreeNodeData :=
                  match l with
                  | [] => []
                  | item :: rest =>
                      match buildTree item (path +:+ "[" +:+ pretty i +:+ "]") (KeyIndex i)
                              (depth + 1) expandedPaths with
                      | Some child => child :: each rest (S i)
                      | None => each rest (S i)
                      end
                  end) elems 0%nat
             else [],
             length elems)
        | _ => ([], 0%nat)
        end in
      Some {| id := path; key := key; value_ := v; type := getType v; path := path;
              depth := depth; expanded := expanded; children := children;
              childCount := childCount |}
  end.

(** The updater of [handleToggle]: the path leaves the set when it is
    in it and enters it otherwise. *)
Definition toggle (path : string) (prev : gset string) : gset string :=
  if decide (path ∈ prev) then prev ∖ {[path]} else prev ∪ {[path]}.

(** The loop of [getNestedValue]. *)
Fixpoint nestedLoop (current : value) (segments : list string) : value :=
  match segments with
  | [] => current
  | seg :: rest =>
      match current with
      | VNull | VUndefined => VUndefined
      | VArr elems props => nestedLoop (Js.array_get elems props (Js.parseInt seg)) rest
      | VObj fields => nestedLoop (Js.get_property fields seg) rest
      | _ => nestedLoop current rest
      end
  end.

(** [getNestedValue(obj, path)]: the segments are those of [parsePath]
    without the quoted bracket forms. *)
Definition getNestedValue (obj : value) (path : string) : value :=
  let normalized :=
    match path with
    | String "$" (String "." r) => r
    | String "$" r => r
    | _ => path
    end in
  let normalized := Js.replace_all Path.index_bracket normalized in
  nestedLoop obj (filter (λ s, s ≠ "") (Js.split "." normalized)).

(** [handleValueChange(path, newValue)]: the value given to
    [onChange]. *)
Definition handleValueChange (v : value) (path : string) (newValue : value) : value :=
  Path.setByPath v path newValue.


(** [handleDelete(path)] *)
Definition handleDelete (v : value) (path : string) : value :=
  Path.deleteByPath v path.

(** The table [defaults] of [handleTypeChange]. *)
Definition defaultValue (t : JsonNodeType) : value :=
  match t with
  | TString => VStr ""
  | TNumber => VNum (Js.num 0)
  | TBoolean => VBool false
  | TNull => VNull
  | TObject => VObj []
  | TArray => VArr [] []
  end.

Definition handleTypeChange (v : value) (path : string) (newType : JsonNodeType) : value :=
  Path.setByPath v path (defaultValue newType).

(** The loop of [handleAddProperty] that looks for a free key, for at
    most [fuel] iterations: [newKey] is tried, then [newKey] followed
    by [counter], [counter + 1], ... *)
Fixpoint freeKey (fuel : nat) (fields : list (string * value)) (newKey : string)
    (counter : nat) : option string :=
  match fuel with
  | O => None
  | S fuel =>
      if Js.has_property fields newKey
      then freeKey fuel fields ("newKey" +:+ pretty counter) (S counter)
      else Some newKey
  end.

(** [handleAddProperty()]: the value given to [onChange], when it is
    called; the outer [None] is the loop out of fuel. *)
Definition handleAddProperty (fuel : nat) (v : value) : option (option value) :=
  match v with
  | VUndefined | VNull => Some (Some (VObj []))
  | VObj fields =>
      newKey ← freeKey fuel fields "newKey" 1;
      Some (Some (VObj (Js.define_property fields newKey (VStr ""))))
  | VArr elems _ => Some (Some (VArr (elems ++ [VStr ""]) []))
  | _ => Some None
  end.

(** The nodes of a tree: the node and the nodes of its children. *)
Fixpoint subnodes (node : TreeNodeData) : list TreeNodeData :=
  node :: (fix each (l : list TreeNodeData) : list TreeNodeData :=
             match l with
             | [] => []
             | child :: rest => subnodes child ++ each rest
             end) (children node).

(** A document whose members can be told apart by their paths: every
    key of an object is a simple name and occurs once (as the keys of
    an object do), and an array is not longer than an array can be. *)
Fixpoint plain (v : value) : Prop :=
  match v with
  | VArr elems _ =>
      Z.of_nat (length elems) < 4294967295
      ∧ (fix each (l : list value) : Prop :=
           match l with
           | [] => True
           | item :: rest => plain item ∧ each rest
           end) elems
  | VObj fields =>
      NoDup fields.*1
      ∧ (fix each (l : list (string * value)) : Prop :=
           match l with
           | [] => True
           | (k, member) :: rest => Path.simple_name k = true ∧ plain member ∧ each rest
           end) fields
  | _ => True
  end.

(** The children of an expanded object node: the nodes of the members,
    in order, without those that are [undefined]. *)
Definition object_children (fields : list (string * value)) (path : string) (depth : nat)
    (expandedPaths : gset string) : list TreeNodeData :=
  omap (λ '(k, member),
          buildTree member (path +:+ "." +:+ k) (KeyName k) (depth + 1) expandedPaths)
    fields.

(** The children of an expanded array node. *)
Definition array_children (elems : list value) (path : string) (depth : nat)
    (expandedPaths : gset string) : list TreeNodeData :=
  omap (λ child, child)
    (imap (λ i item,
             buildTree item (path +:+ "[" +:+ pretty i +:+ "]") (KeyIndex i) (depth + 1)
               expandedPaths) elems).

End Tree.

(** ** Text search ([hooks/useSearch.ts]) *)

Module Search.

Record SearchMatch : Type := {
  line : nat;
  columnStart : nat;
  columnEnd : nat;
  matchText : string;
}.

Record UseSearchOptions : Type := {
  caseSensitive : bool;
  useRegex : bool;
  searchKeys : bool;
  searchValues : bool;
}.

(** The characters of the class in [escapeRegex]. *)
Definition is_special (c : ascii) : bool :=
  existsb (λ x, bool_decide (x = c))
    (Js.backslash :: list_ascii_of_string ".*+?^${}()|[]").

(** [str.replace(/[.*+?^${}()|[\]\\]/g, '\\$&')] *)
Definition escapeRegex (str : string) : string :=
  Js.replace_all
    (λ s, match s with
          | String c _ =>
              if is_special c then Some (String Js.backslash (String c ""), 1%nat) else None
          | EmptyString => None
          end)
    str.

(** [goToNext] and [goToPrevious]: the new current index, [count]
    being [matches.length]. *)
Definition goToNext (count : nat) (i : Z) : Z :=
  if decide (count = 0%nat) then i else Z.rem (i + 1) (Z.of_nat count).

Definition goToPrevious (count : nat) (i : Z) : Z :=
  if decide (count = 0%nat) then i else Z.rem (i - 1 + Z.of_nat count) (Z.of_nat count).

Section Search.
Context `{RegExpEngine}.

(** [regex.exec(line)] for a global regular expression whose
    [lastIndex] is [lastIndex]: the index of the match, the matched
    text and the new [lastIndex], or [None] for [null]. *)
Definition exec (re : regex) (line : string) (lastIndex : nat)
    : option (nat * string * nat) :=
  if (String.length line <? lastIndex)%nat then None
  else
    match RegExp_search re line lastIndex with
    | Some (gap, text) =>
        let index := (lastIndex + gap)%nat in
        Some (index, text, (index + String.length text)%nat)
    | None => None
    end.

(** The [while] loop over one line, for at most [fuel] iterations;
    [None] when the iterations are used up before [exec] returns
    [null]. *)
Fixpoint scanLine (fuel : nat) (re : regex) (text : string) (lineIdx lastIndex : nat)
    : option (list SearchMatch) :=
  match fuel with
  | O => None
  | S fuel' =>
      match exec re text lastIndex with
      | None => Some []
      | Some (index, matched, newLastIndex) =>
          let found :=
            {| line := (lineIdx + 1)%nat; columnStart := index;
               columnEnd := (index + String.length matched)%nat;
               matchText := matched |} in
          let next :=
            if (index =? newLastIndex)%nat then S newLastIndex else newLastIndex in
          rest ← scanLine fuel' re text lineIdx next;
          Some (found :: rest)
      end
  end.

(** The [for] loop over the lines. *)
Fixpoint scanLines (fuel : nat) (re : regex) (lines : list string) (lineIdx : nat)
    : option (list SearchMatch) :=
  match lines with
  | [] => Some []
  | l :: rest =>
      here ← scanLine fuel re l lineIdx 0%nat;
      more ← scanLines fuel re rest (S lineIdx);
      Some (here ++ more)
  end.

(** The [matches] memo of [useSearch]; the exception of an invalid
    pattern is caught and gives no match.  [None] when the fuel of a
    line loop is used up. *)
Definition matches (fuel : nat) (query text : string) (options : UseSearchOptions)
    : option (list SearchMatch) :=
  if decide (query = "" ∨ text = "") then Some []
  else
    let pattern := if useRegex options then query else escapeRegex query in
    match RegExp_new pattern (negb (caseSensitive options)) with
    | Throw _ => Some []
    | Ok re => scanLines fuel re (Js.split Parser.newline text) 0%nat
    end.

(** Matches in the order of the text that do not overlap. *)
Definition before (a b : SearchMatch) : Prop :=
  (line a < line b)%nat ∨ (line a = line b ∧ columnEnd a ≤ columnStart b)%nat.

Definition non_overlapping (ms : list SearchMatch) : Prop :=
  StronglySorted before ms.

(** Matches of one line, each starting where the previous one ended
    or later, the first at [from] or later. *)
Fixpoint ordered_from (lineNo from : nat) (ms : list SearchMatch) : Prop :=
  match ms with
  | [] => True
  | m :: rest =>
      line m = lineNo
      ∧ (from ≤ columnStart m ≤ columnEnd m)%nat
      ∧ ordered_from lineNo (columnEnd m) rest
  end.

End Search.

End Search.

(** ** A sample host

    An instance of the host interfaces on which the definitions can be
    run: a reader and a writer of JSON texts and a search engine for
    literal patterns.  The theorems below hold for every host; this one
    serves for the examples. *)

Module Sample.

Definition is_json_space (c : ascii) : bool :=
  let n := nat_of_ascii c in
  (n =? 32)%nat || (n =? 9)%nat || (n =? 10)%nat || (n =? 13)%nat.

Definition skip (s : string) : string := Js.drop_while is_json_space s.

(** The [SyntaxError] at the first character of [s], a suffix of a text
    of [total] characters. *)
Definition unexpected {A} (total : nat) (s : string) : result A :=
  match s with
  | EmptyString => Throw "Unexpected end of JSON input"
  | String c _ =>
      Throw ("Unexpected token " +:+ String c "" +:+ " in JSON at position "
               +:+ pretty (total - String.length s)%nat)
  end.

(** [m * 10^e] *)
Definition scale (m e : Z) : Qc :=
  if 0 <=? e then Q2Qc (inject_Z (m * 10 ^ e))
  else Q2Qc (Qmake m (Z.to_pos (10 ^ (- e)))).

Definition read_number (total : nat) (s : string) : result (value * string) :=
  let '(neg, s1) :=
    match s with
    | String "-" r => (true, r)
    | _ => (false, s)
    end in
  int ← match s1 with
        | String "0" r => Ok ("0", r)
        | String c _ => if Js.is_digit c then Ok (Js.span Js.is_digit s1)
                        else unexpected total s1
        | EmptyString => unexpected total s1
        end;
  let '(ds, r) := int : string * string in
  frac ← match r with
         | String "." r1 =>
             let '(fs, r2) := Js.span Js.is_digit r1 in
             if decide (fs = "") then unexpected total r1 else Ok (fs, r2)
         | _ => Ok ("", r)
         end;
  let '(fs, r) := frac : string * string in
  exp ← match r with
        | String c r1 =>
            if bool_decide (c = "e"%char ∨ c = "E"%char) then
              let '(eneg, r2) :=
                match r1 with
                | String "-" r2 => (true, r2)
                | String "+" r2 => (false, r2)
                | _ => (false, r1)
                end in
              let '(es, r3) := Js.span Js.is_digit r2 in
              if decide (es = "") then unexpected total r2
              else Ok (if eneg : bool then - Js.digits_value 0 es else Js.digits_value 0 es, r3)
            else Ok (0, r)
        | EmptyString => Ok (0, r)
        end;
  let '(e, r) := exp : Z * string in
  let m := Js.digits_value 0 (ds +:+ fs) in
  Ok (VNum (scale (if neg : bool then - m else m) (e - Z.of_nat (String.length fs))), r).

Definition hex_value (c : ascii) : option Z :=
  let n := Z.of_nat (nat_of_ascii c) in
  if (48 <=? n) && (n <=? 57) then Some (n - 48)
  else if (65 <=? n) && (n <=? 70) then Some (n - 55)
  else if (97 <=? n) && (n <=? 102) then Some (n - 87)
  else None.

(** The characters of a string literal after its opening quote, and
    the text after its closing quote.  An escape [\uXXXX] is read when
    it denotes an 8-bit character. *)
Fixpoint read_string_body (total : nat) (s : string) : result (string * string) :=
  match s with
  | EmptyString => unexpected total s
  | String c r =>
      if decide (c = Js.double_quote) then Ok ("", r)
      else if decide (c = Js.backslash) then
        match r with
        | String "u" (String h1 (String h2 (String h3 (String h4 r')))) =>
            match hex_value h1, hex_value h2, hex_value h3, hex_value h4 with
            | Some 0, Some 0, Some a, Some b =>
                '(body, rest) ← read_string_body total r';
                Ok (String (ascii_of_nat (Z.to_nat (16 * a + b))) body, rest)
            | _, _, _, _ => unexpected total r
            end
        | String e r' =>
            let escaped (n : nat) :=
              '(body, rest) ← read_string_body total r';
              Ok (String (ascii_of_nat n) body, rest) in
            if decide (e = Js.double_quote) then escaped 34%nat
            else if decide (e = Js.backslash) then escaped 92%nat
            else match e with
                 | "/"%char => escaped 47%nat
                 | "b"%char => escaped 8%nat
                 | "f"%char => escaped 12%nat
                 | "n"%char => escaped 10%nat
                 | "r"%char => escaped 13%nat
                 | "t"%char => escaped 9%nat
                 | _ => unexpected total r
                 end
        | EmptyString => unexpected total r
        end
      else if (nat_of_ascii c <? 32)%nat then unexpected total s
      else '(body, rest) ← read_string_body total r; Ok (String c body, rest)
  end.

Fixpoint read_value (fuel total : nat) (s : string) : result (value * string) :=
  match fuel with
  | O => Throw "Maximum call stack size exceeded"
  | S fuel =>
      let s := skip s in
      match s with
      | String "[" r =>
          match skip r with
          | String "]" r' => Ok (VArr [] [], r')
          | _ => read_elements fuel total r []
          end
      | String "{" r =>
          match skip r with
          | String "}" r' => Ok (VObj [], r')
          | _ => read_members fuel total r []
          end
      | String c r =>
          if decide (c = Js.double_quote) then
            '(body, rest) ← read_string_body total r; Ok (VStr body, rest)
          else if Js.is_digit c || bool_decide (c = "-"%char) then read_number total s
          else
            match Parser.strip_prefix "null" s, Parser.strip_prefix "true" s,
                  Parser.strip_prefix "false" s with
            | Some rest, _, _ => Ok (VNull, rest)
            | _, Some rest, _ => Ok (VBool true, rest)
            | _, _, Some rest => Ok (VBool false, rest)
            | None, None, None => unexpected total s
            end
      | EmptyString => unexpected total s
      end
  end
with read_elements (fuel total : nat) (s : string) (acc : list value)
    : result (value * string) :=
  match fuel with
  | O => Throw "Maximum call stack size exceeded"
  | S fuel =>
      '(v, r) ← read_value fuel total s;
      match skip r with
      | String "," r' => read_elements fuel total r' (acc ++ [v])
      | String "]" r' => Ok (VArr (acc ++ [v]) [], r')
      | r' => unexpected total r'
      end
  end
with read_members (fuel total : nat) (s : string) (acc : list (string * value))
    : result (value * string) :=
  match fuel with
  | O => Throw "Maximum call stack size exceeded"
  | S fuel =>
      match skip s with
      | String q r =>
          if decide (q = Js.double_quote) then
            '(k, r) ← read_string_body total r;
            match skip r with
            | String ":" r =>
                '(v, r) ← read_value fuel total r;
                let acc := Js.define_property acc k v in
                match skip r with
                | String "," r' => read_members fuel total r' acc
                | String "}" r' => Ok (VObj acc, r')
                | r' => unexpected total r'
                end
            | r' => unexpected total r'
            end
          else unexpected total (skip s)
      | EmptyString => unexpected total ""
      end
  end.

Definition parse (text : string) : result value :=
  let total := String.length text in
  '(v, r) ← read_value (2 * total + 2) total text;
  match skip r with
  | EmptyString => Ok v
  | r' => unexpected total r'
  end.

(** The decimal text of a number: the digits of the fraction, at most
    [places] of them. *)
Fixpoint fraction_digits (places : nat) (r d : Z) : string :=
  match places with
  | O => ""
  | S places =>
      if r =? 0 then ""
      else String (ascii_of_nat (Z.to_nat (48 + (10 * r) / d)))
             (fraction_digits places ((10 * r) mod d) d)
  end.

Definition number_text (n : Qc) : string :=
  let p := Qnum n in
  let d := Z.pos (Qden n) in
  if d =? 1 then pretty p
  else (if p <? 0 then "-" else "") +:+ pretty (Z.abs p / d) +:+ "."
       +:+ fraction_digits 20 (Z.abs p mod d) d.

Definition hex_digit (n : nat) : ascii :=
  ascii_of_nat (if (n <? 10)%nat then 48 + n else 87 + n).

Definition escape (c : ascii) : string := String Js.backslash (String c "").

Fixpoint quote_body (s : string) : string :=
  match s with
  | EmptyString => String Js.double_quote ""
  | String c r =>
      let n := nat_of_ascii c in
      (if decide (c = Js.double_quote) then escape Js.double_quote
       else if decide (c = Js.backslash) then escape Js.backslash
       else if (n =? 8)%nat then escape "b"
       else if (n =? 12)%nat then escape "f"
       else if (n =? 10)%nat then escape "n"
       else if (n =? 13)%nat then escape "r"
       else if (n =? 9)%nat then escape "t"
       else if (n <? 32)%nat then
         escape "u" +:+ "00"
         +:+ String (hex_digit (n / 16)) (String (hex_digit (n mod 16)) "")
       else String c "") +:+ quote_body r
  end.

Definition quote (s : string) : string := String Js.double_quote (quote_body s).

Definition gap_of (sp : space) : string :=
  match sp with
  | SpaceNone => ""
  | SpaceCount n => String.concat "" (replicate (Z.to_nat (Z.min n 10)) " ")
  | SpaceText s => String.substring 0 10 s
  end.

Definition bracket (gap indent opening closing : string) (items : list string) : string :=
  match items with
  | [] => opening +:+ closing
  | _ =>
      if decide (gap = "") then opening +:+ Validator.join "," items +:+ closing
      else
        let line := String Parser.newline (indent +:+ gap) in
        opening +:+ line +:+ Validator.join ("," +:+ line) items
        +:+ String Parser.newline indent +:+ closing
  end.

Fixpoint write (gap indent : string) (v : value) : string :=
  match v with
  | VUndefined | VNull => "null"
  | VBool true => "true"
  | VBool false => "false"
  | VNum n => number_text n
  | VStr s => quote s
  | VArr elems _ =>
      bracket gap indent "[" "]"
        ((fix each (l : list value) : list string :=
            match l with
            | [] => []
            | item :: rest => write gap (indent +:+ gap) item :: each rest
            end) elems)
  | VObj fields =>
      bracket gap indent "{" "}"
        ((fix each (l : list (string * value)) : list string :=
            match l with
            | [] => []
            | (_, VUndefined) :: rest => each rest
            | (k, member) :: rest =>
                (quote k +:+ (if decide (gap = "") then ":" else ": ")
                 +:+ write gap (indent +:+ gap) member) :: each rest
            end) fields)
  end.

Definition compare_code_units (a b : string) : Qc :=
  match String.compare a b with
  | Lt => Js.num (-1)
  | Eq => Js.num 0
  | Gt => Js.num 1
  end.

Definition host : Host :=
  {| JSON_parse := parse;
     JSON_stringify := λ v sp, write (gap_of sp) "" v;
     Number_toString := number_text;
     localeCompare := compare_code_units |}.

(** A pattern without operators: every special character in it is
    escaped. *)
Fixpoint literal_of (pattern : string) : result string :=
  match pattern with
  | EmptyString => Ok ""
  | String c r =>
      if decide (c = Js.backslash) then
        match r with
        | String e r' =>
            if Search.is_special e then (rest ← literal_of r'; Ok (String e rest))
            else Throw "Invalid regular expression: unsupported escape"
        | EmptyString => Throw "Invalid regular expression: \ at end of pattern"
        end
      else if Search.is_special c then
        Throw "Invalid regular expression: unsupported operator"
      else (rest ← literal_of r; Ok (String c rest))
  end.

Definition lower (c : ascii) : ascii :=
  let n := nat_of_ascii c in
  if (65 <=? n)%nat && (n <=? 90)%nat then ascii_of_nat (n + 32) else c.

Fixpoint starts_with (ignoreCase : bool) (p s : string) : bool :=
  match p, s with
  | EmptyString, _ => true
  | String a p', String b s' =>
      (if ignoreCase then bool_decide (lower a = lower b) else bool_decide (a = b))
      && starts_with ignoreCase p' s'
  | String _ _, EmptyString => false
  end.

Fixpoint find (ignoreCase : bool) (p s : string) : option nat :=
  if starts_with ignoreCase p s then Some 0%nat
  else match s with
       | String _ r => S <$> find ignoreCase p r
       | EmptyString => None
       end.

Fixpoint drop_chars (n : nat) (s : string) : string :=
  match n, s with
  | S k, String _ r => drop_chars k r
  | _, _ => s
  end.

Definition engine : RegExpEngine :=
  {| regex := string * bool;
     RegExp_new := λ pattern ignoreCase,
       literal ← literal_of pattern; Ok (literal, ignoreCase);
     RegExp_search := λ '(literal, ignoreCase) text from,
       let rest := drop_chars from text in
       gap ← find ignoreCase literal rest;
       Some (gap, String.substring gap (String.length literal) rest) |}.

(** A text in which every single quote stands for a double quote, so
    that JSON texts can be written in the examples. *)
Fixpoint json_text (s : string) : string :=
  match s with
  | EmptyString => EmptyString
  | String c r =>
      String (if decide (c = "'"%char) then Js.double_quote else c) (json_text r)
  end.

End Sample.


(** ** Sample data *)

Module Examples.

(** The document of the unit tests of [getByPath]. *)
Definition test_data : value :=
  VObj [("name", VStr "John");
        ("address", VObj [("city", VStr "NYC"); ("zip", VStr "10001")]);
        ("items", VArr [VObj [("id", VNum (Js.num 1))]; VObj [("id", VNum (Js.num 2))]] [])].

(** A state with a redo buffer: three edits a second apart, then one
    [undo]. *)
Definition edited : History.state string :=
  History.undo
    (History.set_all 100 300 [(1000, "b"); (2000, "c"); (3000, "d")] (History.init "a")).

(** A schema without [type] whose [enum] does not contain [null]. *)
Definition enum_schema : Validator.JSONSchema :=
  Validator.Schema None (Some [VNum (Js.num 1); VStr "a"]) None None None None None None None
    None None None false None (Some ["name"]) None None None None.

(** The schema [{type: 'object', required: ['name'], properties:
    {age: {type: 'number', minimum: 0}}}], a document that it accepts
    and one that it rejects. *)
Definition person_schema : Validator.JSONSchema :=
  Validator.Schema (Some (Validator.TypeName "object")) None None None None None None None
    None None None None false None (Some ["name"]) None None
    (Some [("age", Validator.minimum_schema)]) None.


Definition nameless : value :=
  VObj [("age", VNum (Js.num (-1)))].

End Examples.

(** * Properties *)

(** ** Path engine *)

(** Reading back the property that [define_property] has defined, in
    each of its three cases. *)
Lemma get_property_replace fields k v :
  Js.has_property fields k = true →
  Js.get_property (Js.replace_property fields k v) k = v.
Proof.
  induction fields as [|[k' v'] rest IH]; simpl; [done|].
  case_bool_decide as Hk; simpl in *.
  - subst. intros _. rewrite decide_True by done. simpl. by rewrite decide_True.
  - intros Hrest. rewrite decide_False by done. simpl.
    rewrite decide_False by done. auto.
Qed.

Lemma get_property_append fields k v :
  Js.has_property fields k = false →
  Js.get_property (fields ++ [(k, v)]) k = v.
Proof.
  induction fields as [|[k' v'] rest IH]; simpl.
  - intros _. by rewrite decide_True.
  - case_bool_decide as Hk; simpl in *; [done|].
    intros Hrest. rewrite decide_False by done. auto.
Qed.

Lemma get_property_insert_index fields i k v :
  Js.has_property fields k = false →
  Js.get_property (Js.insert_index_property fields i k v) k = v.
Proof.
  induction fields as [|[k' v'] rest IH]; simpl.
  - intros _. by rewrite decide_True.
  - case_bool_decide as Hk; simpl in *; [done|].
    intros Hrest.
    destruct (Js.index_of_key k') as [j|]; [destruct (i <? j)|]; simpl;
      rewrite ?decide_True by done; try done.
    rewrite decide_False by done. auto.
Qed.

Lemma get_property_define fields k v :
  Js.get_property (Js.define_property fields k v) k = v.
Proof.
  unfold Js.define_property.
  destruct (Js.has_property fields k) eqn:Hhas.
  - by apply get_property_replace.
  - destruct (Js.index_of_key k).
    + by apply get_property_insert_index.
    + by apply get_property_append.
Qed.

(** Reading back the element or property that [array_copy_set] has
    written: in range, past the end, or under a key that is not an
    index. *)
Lemma getBySegments_array_copy_set elems n z v segment rest :
  Js.parseInt segment = Some z → n = Some z →
  Path.getBySegments (Js.array_copy_set elems n v) (segment :: rest)
  = Path.getBySegments v rest.
Proof.
  intros Hparse ->. unfold Js.array_copy_set.
  destruct (Js.is_array_index z) eqn:Hidx.
  - destruct (Z.to_nat z <? length elems)%nat eqn:Hlt; simpl; rewrite Hparse; simpl;
      rewrite Hidx; f_equal.
    + apply Nat.ltb_lt in Hlt. by rewrite list_lookup_insert_eq.
    + apply Nat.ltb_ge in Hlt.
      rewrite lookup_app_r by done.
      rewrite lookup_app_r by (rewrite length_replicate; lia).
      rewrite length_replicate.
      by replace (Z.to_nat z - length elems - (Z.to_nat z - length elems))%nat with 0%nat by lia.
  - simpl. rewrite Hparse. simpl. rewrite Hidx. simpl. by rewrite decide_True.
Qed.

Lemma getBySegments_setBySegments segments : ∀ current x,
  Path.getBySegments current segments ≠ VUndefined →
  Path.getBySegments (Path.setBySegments current segments x) segments = x.
Proof.
  induction segments as [|segment rest IH]; intros current x Hpresent; [done|].
  destruct current as [| | | | |elems props|fields]; simpl in Hpresent; try done.
  - destruct (Js.parseInt segment) as [z|] eqn:Hparse; [|done].
    cbn [Path.setBySegments]. rewrite Hparse.
    erewrite getBySegments_array_copy_set by done. by apply IH.
  - cbn [Path.setBySegments Path.getBySegments].
    rewrite get_property_define. by apply IH.
Qed.

(** Claim C1.  For every value [v], every path [p] that is present in
    [v] and every value [x], reading [p] back after [setByPath v p x]
    gives [x].  The value [v] need not be a JSON value. *)
Theorem getByPath_setByPath (v : value) (p : string) (x : value) :
  Path.present v p →
  Path.getByPath (Path.setByPath v p x) p = x.
Proof.
  unfold Path.present, Path.getByPath, Path.setByPath.
  destruct (decide (p = "$" ∨ p = "")); [done|].
  apply getBySegments_setBySegments.
Qed.

(** On the test document: the [id] of the second item is rewritten and
    read back. *)
Lemma getByPath_setByPath_witness :
  Path.present Examples.test_data "$.items[1].id"
  ∧ Path.getByPath (Path.setByPath Examples.test_data "$.items[1].id" (VStr "two")) "$.items[1].id"
    = VStr "two".
Proof.
  split; [vm_compute; discriminate|].
  apply (getByPath_setByPath Examples.test_data "$.items[1].id" (VStr "two")).
  vm_compute. discriminate.
Defined.

(** ** History *)

Section HistoryFacts.
Context {T : Type}.
Implicit Types (st : History.state T) (l : list T).

Lemma slice_prefix l n :
  0 ≤ n → History.slice l 0 (Some n) = take (Z.to_nat n) l.
Proof.
  intros Hn. unfold History.slice.
  destruct (Z.ltb_spec 0 0); [lia|]. destruct (Z.ltb_spec n 0); [lia|].
  replace (0 `min` Z.of_nat (length l)) with 0 by lia.
  rewrite Z.sub_0_r. change (Z.to_nat 0) with 0%nat. rewrite drop_0.
  destruct (decide (n ≤ Z.of_nat (length l))).
  - by rewrite Z.min_l by lia.
  - rewrite Z.min_r by lia. rewrite Nat2Z.id.
    rewrite !take_ge; [done|lia|lia].
Qed.

Lemma slice_suffix l k :
  0 ≤ k → History.slice l k None = drop (Z.to_nat k) l.
Proof.
  intros Hk. unfold History.slice.
  destruct (Z.ltb_spec k 0); [lia|].
  destruct (Z.ltb_spec (Z.of_nat (length l)) 0); [lia|].
  rewrite (Z.min_l (Z.of_nat (length l))) by lia.
  rewrite take_ge by (rewrite length_drop; lia).
  destruct (decide (k ≤ Z.of_nat (length l))).
  - by rewrite Z.min_l by lia.
  - rewrite Z.min_r by lia. rewrite Nat2Z.id.
    rewrite !drop_ge; [done|lia|lia].
Qed.

(** The state after [set], with the slices written as [take] and
    [drop]. *)
Lemma set_unfold maxHistory groupingInterval now v st :
  0 ≤ History.position st →
  History.set maxHistory groupingInterval now v st =
  let grouped := (now - History.lastUpdateTime st <? groupingInterval)
                 && (0 <? History.position st) in
  let kept := if grouped then History.position st else History.position st + 1 in
  let appended := take (Z.to_nat kept) (History.history st) ++ [v] in
  let trimCount := Z.of_nat (length appended) - maxHistory in
  if maxHistory <? Z.of_nat (length appended)
  then {| History.history := drop (Z.to_nat trimCount) appended;
          History.position := Z.max 0 (kept - trimCount);
          History.lastUpdateTime := now |}
  else {| History.history := appended;
          History.position := Z.max 0 kept;
          History.lastUpdateTime := now |}.
Proof.
  intros Hpos. unfold History.set.
  destruct ((now - History.lastUpdateTime st <? groupingInterval)
            && (0 <? History.position st)); simpl;
    rewrite slice_prefix by lia;
    (destruct (maxHistory <? _) eqn:Htrim;
       [apply Z.ltb_lt in Htrim; rewrite slice_suffix by lia|]; done).
Qed.

Ltac history_arith :=
  repeat match goal with
    | |- context [?a <? ?b] => destruct (Z.ltb_spec a b)
    | H : context [?a <? ?b] |- _ => destruct (Z.ltb_spec a b)
    end;
  simpl in *;
  rewrite ?length_drop, ?length_app, ?length_take in *; simpl in *;
  try lia.

Lemma set_in_range maxHistory groupingInterval now v st :
  1 ≤ maxHistory →
  History.position_in_range st →
  History.position_in_range (History.set maxHistory groupingInterval now v st).
Proof.
  unfold History.position_in_range. intros Hmax [Hlo Hhi].
  rewrite set_unfold by done. cbv zeta.
  destruct (_ && _); history_arith.
Qed.

Lemma apply_call_in_range maxHistory groupingInterval c st :
  1 ≤ maxHistory →
  History.position_in_range st →
  History.position_in_range (History.apply_call maxHistory groupingInterval c st).
Proof.
  intros Hmax Hst. destruct c as [now v| | |v]; simpl.
  - by apply set_in_range.
  - unfold History.undo, History.position_in_range in *. history_arith.
  - unfold History.redo, History.position_in_range in *. history_arith.
  - unfold History.position_in_range. simpl. lia.
Qed.


Lemma reachable_bounded maxHistory groupingInterval st :
  History.reachable maxHistory groupingInterval st → History.bounded maxHistory st.
Proof.
  induction 1 as [v|c st _ IH].
  - unfold History.bounded. simpl. lia.
  - unfold History.bounded in *. destruct IH as [Hlo IH].
    destruct c as [now v| | |v]; simpl.
    + rewrite set_unfold by done. cbv zeta.
      destruct (_ && _) eqn:Hg; history_arith.
    + unfold History.undo. history_arith.
    + unfold History.redo. history_arith.
    + lia.
Qed.

(** Claim C4, amended.  When [maxHistory] is at least 1, the position is
    within the entries, [0 ≤ position < entries.length], in the initial
    state, after every call ([set], grouped or not and with or without
    trimming, [undo], [redo], [reset]) made in a state where it holds,
    and so in every reachable state. *)
Theorem in_range_invariant maxHistory groupingInterval :
  1 ≤ maxHistory →
  (∀ initialValue : T, History.position_in_range (History.init initialValue))
  ∧ (∀ c st, History.position_in_range st →
       History.position_in_range (History.apply_call maxHistory groupingInterval c st))
  ∧ (∀ st, History.reachable maxHistory groupingInterval st →
       History.position_in_range st).
Proof.
  intros Hmax. split_and!.
  - intros v. unfold History.position_in_range. simpl. lia.
  - intros c st. by apply apply_call_in_range.
  - intros st Hst. pose proof (reachable_bounded _ _ _ Hst) as [Hlo Hb].
    unfold History.position_in_range. lia.
Qed.

(** Claim C9.  A [set] that groups with the previous one (the elapsed
    time is below the grouping interval and the position is positive)
    keeps the entries before the position and puts the new value after
    them: the redo buffer is discarded, the history has length
    [position + 1], its last entry is the new value and the position is
    unchanged. *)
Theorem grouped_set_discards_redo maxHistory groupingInterval st now (v : T) :
  History.reachable maxHistory groupingInterval st →
  0 < History.position st →
  now - History.lastUpdateTime st < groupingInterval →
  let st' := History.set maxHistory groupingInterval now v st in
  History.history st' = take (Z.to_nat (History.position st)) (History.history st) ++ [v]
  ∧ Z.of_nat (length (History.history st')) = History.position st + 1
  ∧ last (History.history st') = Some v
  ∧ History.position st' = History.position st.
Proof.
  intros Hst Hpos Hgroup. pose proof (reachable_bounded _ _ _ Hst) as [Hlo Hb].
  cbv zeta. rewrite set_unfold by done. cbv zeta.
  destruct (Z.ltb_spec (now - History.lastUpdateTime st) groupingInterval); [|lia].
  destruct (Z.ltb_spec 0 (History.position st)); [|lia].
  cbn [andb].
  destruct (Z.ltb_spec maxHistory
              (Z.of_nat (length (take (Z.to_nat (History.position st))
                                   (History.history st) ++ [v])))) as [Htrim|Htrim];
    rewrite length_app, length_take in Htrim; simpl in Htrim; [lia|].
  simpl. rewrite last_snoc, length_app, length_take. simpl. split_and!; try done; lia.
Qed.

(** Non-grouped edits at the end of a history that has room for them
    are appended one by one. *)
Lemma set_all_non_grouped maxHistory groupingInterval (calls : list (Z * T)) : ∀ st,
  History.position st = Z.of_nat (length (History.history st)) - 1 →
  0 ≤ History.position st →
  Z.of_nat (length (History.history st)) + Z.of_nat (length calls) ≤ maxHistory →
  History.all_non_grouped maxHistory groupingInterval calls st →
  let st' := History.set_all maxHistory groupingInterval calls st in
  length (History.history st') = (length (History.history st) + length calls)%nat
  ∧ History.position st' = Z.of_nat (length (History.history st')) - 1.
Proof.
  induction calls as [|[now v] rest IH]; intros st Hlast Hlo Hroom Hng.
  - simpl. split; [lia|done].
  - simpl in Hng. destruct Hng as [Hnow Hrest]. unfold History.non_grouped in Hnow.
    cbn [History.set_all]. cbv zeta.
    assert (History.set maxHistory groupingInterval now v st
            = {| History.history := History.history st ++ [v];
                 History.position := History.position st + 1;
                 History.lastUpdateTime := now |}) as Hset.
    { rewrite set_unfold by done. cbv zeta.
      destruct (Z.ltb_spec (now - History.lastUpdateTime st) groupingInterval); [lia|].
      cbn [andb].
      rewrite take_ge by lia.
      destruct (Z.ltb_spec maxHistory (Z.of_nat (length (History.history st ++ [v]))))
        as [Htrim|Htrim]; rewrite length_app in Htrim; simpl in *; [lia|].
      f_equal. lia. }
    rewrite Hset in *.
    pose proof (λ a b c, IH _ a b c Hrest) as IH'.
    cbn [History.history History.position] in IH'. cbv zeta in IH'.
    rewrite length_app in IH'. simpl in Hroom, IH'.
    destruct IH' as [Hlen Hp]; [lia..|].
    rewrite Hlen, Hp. simpl. split; lia.
Qed.

(** Claim C2, amended.  For [1 ≤ n < maxHistory], after [n] non-grouped
    [set] calls the history has [n + 1] entries, [canUndo] is true and
    [canRedo] is false; after one [undo], [canRedo] is true. *)
Theorem non_grouped_sets maxHistory groupingInterval (initialValue : T)
    (calls : list (Z * T)) :
  let n := length calls in
  (1 ≤ n)%nat →
  Z.of_nat n < maxHistory →
  History.all_non_grouped maxHistory groupingInterval calls (History.init initialValue) →
  let st := History.set_all maxHistory groupingInterval calls (History.init initialValue) in
  History.historyLength st = (n + 1)%nat
  ∧ History.canUndo st = true
  ∧ History.canRedo st = false
  ∧ History.canRedo (History.undo st) = true.
Proof.
  intros n Hn Hmax Hng st.
  destruct (set_all_non_grouped maxHistory groupingInterval calls (History.init initialValue))
    as [Hlen Hp]; simpl; try lia; try done.
  fold st in Hlen, Hp. simpl in Hlen. fold n in Hlen.
  unfold History.historyLength, History.canUndo, History.canRedo, History.undo.
  rewrite Hp, Hlen.
  destruct (Z.ltb_spec 0 (Z.of_nat (S n) - 1)); [|lia].
  simpl. rewrite Hlen. destruct (Z.ltb_spec (Z.of_nat (S n) - 1) (Z.of_nat (S n) - 1)); [lia|].

  split_and!; try done; try lia.
Qed.
End HistoryFacts.

(** With the options of [JsonEditor], [maxHistory = 100]. *)
Lemma in_range_invariant_witness :
  1 ≤ 100
  ∧ ∀ st : History.state string,
      History.reachable 100 300 st → History.position_in_range st.
Proof.
  split; [lia|].
  apply (in_range_invariant (T:=string) 100 300). lia.
Defined.

(** Claim C4 as stated fails for [maxHistory = 0]: the first [set]
    trims the two entries away, and the position 0 is not below the
    length 0. *)
Lemma in_range_counterexample :
  let st := History.set 0 300 1000 "b" (History.init "a") in
  History.reachable 0 300 st
  ∧ History.history st = []
  ∧ History.position st = 0
  ∧ ¬ History.position_in_range st.
Proof.
  split_and!.
  - apply (History.reachable_call 0 300 (History.CallSet 1000 "b")).
    apply History.reachable_init.
  - reflexivity.
  - reflexivity.
  - unfold History.position_in_range. simpl. lia.
Qed.


(** After three edits and one [undo], an edit made 100 ms after the
    last one replaces the entry at the position and drops the entry
    that could have been redone. *)
Lemma grouped_set_discards_redo_witness :
  History.reachable 100 300 Examples.edited
  ∧ 0 < History.position Examples.edited
  ∧ 3100 - History.lastUpdateTime Examples.edited < 300
  ∧ History.history Examples.edited = ["a"; "b"; "c"; "d"]
  ∧ History.history (History.set 100 300 3100 "e" Examples.edited) = ["a"; "b"; "e"].
Proof.
  assert (History.reachable 100 300 Examples.edited) as Hreach.
  { apply (History.reachable_call 100 300 History.CallUndo).
    apply (History.reachable_call 100 300 (History.CallSet 3000 "d")).
    apply (History.reachable_call 100 300 (History.CallSet 2000 "c")).
    apply (History.reachable_call 100 300 (History.CallSet 1000 "b")).
    apply History.reachable_init. }
  split_and!; [exact Hreach|reflexivity|reflexivity|reflexivity|].
  apply (grouped_set_discards_redo 100 300 Examples.edited 3100 "e" Hreach); reflexivity.
Defined.

(** Two edits a second apart, with [maxHistory = 100]. *)
Lemma non_grouped_sets_witness :
  let calls := [(1000, "b"); (2000, "c")] in
  History.all_non_grouped 100 300 calls (History.init "a")
  ∧ History.historyLength (History.set_all 100 300 calls (History.init "a")) = 3%nat.
Proof.
  assert (History.all_non_grouped 100 300 [(1000, "b"); (2000, "c")] (History.init "a"))
    as Hcalls.
  { unfold History.all_non_grouped, History.non_grouped. simpl. lia. }
  split; [exact Hcalls|].
  apply (non_grouped_sets 100 300 "a" [(1000, "b"); (2000, "c")]);
    [simpl; lia|simpl; lia|exact Hcalls].
Defined.

(** Claim C2 as stated fails at both ends of [n ≤ maxHistory].  With
    [n = maxHistory = 2] the second [set] trims the oldest entry, and
    the history has 2 entries, not 3.  With [n = 0] nothing can be
    undone. *)
Lemma non_grouped_sets_counterexample :
  let calls := [(1000, "b"); (2000, "c")] in
  (Z.of_nat (length calls) ≤ 2
   ∧ History.all_non_grouped 2 300 calls (History.init "a")
   ∧ History.history (History.set_all 2 300 calls (History.init "a")) = ["b"; "c"]
   ∧ History.historyLength (History.set_all 2 300 calls (History.init "a"))
     ≠ (length calls + 1)%nat)
  ∧ History.canUndo (History.set_all 2 300 [] (History.init "a")) = false.
Proof.
  split; [|reflexivity].
  split_and!; [simpl; lia| |reflexivity|by vm_compute].
  unfold History.all_non_grouped, History.non_grouped. simpl. lia.
Qed.

(** ** Tree builder *)


(** Claim C7.  The node that [buildTree] makes for an object or an array
    has as [childCount] the number of keys or of elements, whatever the
    expansion set; its [children] are the nodes of the members when its
    path is in the expansion set, and the empty list when it is not. *)
Theorem buildTree_childCount_children (path : string) (key : Tree.node_key) (depth : nat)
    (expandedPaths : gset string) :
  (∀ fields, ∃ node,
      Tree.buildTree (VObj fields) path key depth expandedPaths = Some node
      ∧ Tree.childCount node = length fields
      ∧ Tree.children node =
          if bool_decide (path ∈ expandedPaths)
          then Tree.object_children fields path depth expandedPaths else [])
  ∧ (∀ elems props, ∃ node,
      Tree.buildTree (VArr elems props) path key depth expandedPaths = Some node
      ∧ Tree.childCount node = length elems
      ∧ Tree.children node =
          if bool_decide (path ∈ expandedPaths)
          then Tree.array_children elems path depth expandedPaths else []).
Proof.
  split.
  - intros fields. eexists. split; [cbn [Tree.buildTree]; reflexivity|].
    cbn [Tree.childCount Tree.children]. split; [done|].
    destruct (bool_decide (path ∈ expandedPaths)); [|done].
    unfold Tree.object_children.
    induction fields as [|[k member] rest IH]; [done|].
    cbn [omap list_omap]. rewrite <- IH.
    by destruct (Tree.buildTree member _ _ _ _).
  - intros elems props. eexists. split; [cbn [Tree.buildTree]; reflexivity|].
    cbn [Tree.childCount Tree.children]. split; [done|].
    destruct (bool_decide (path ∈ expandedPaths)); [|done].
    unfold Tree.array_children.
    enough (∀ start,
      (fix each (l : list value) (i : nat) : list Tree.TreeNodeData :=
         match l with
         | [] => []
         | item :: rest =>
             match Tree.buildTree item (path +:+ "[" +:+ pretty i +:+ "]") (Tree.KeyIndex i)
                     (depth + 1) expandedPaths with
             | Some child => child :: each rest (S i)
             | None => each rest (S i)
             end
         end) elems start
      = omap (λ child, child)
          (imap (λ i item,
                   Tree.buildTree item (path +:+ "[" +:+ pretty (start + i)%nat +:+ "]")
                     (Tree.KeyIndex (start + i)) (depth + 1) expandedPaths) elems))
      as Hgen by (rewrite (Hgen 0%nat); reflexivity).
    induction elems as [|item rest IH]; intros start; [done|].
    rewrite imap_cons. cbn [omap list_omap]. rewrite Nat.add_0_r.
    rewrite IH.
    rewrite (imap_ext
               (λ i item0,
                  Tree.buildTree item0 (path +:+ "[" +:+ pretty (S start + i)%nat +:+ "]")
                    (Tree.KeyIndex (S start + i)) (depth + 1) expandedPaths)
               ((λ i item0,
                   Tree.buildTree item0 (path +:+ "[" +:+ pretty (start + i)%nat +:+ "]")
                     (Tree.KeyIndex (start + i)) (depth + 1) expandedPaths) ∘ S) rest);
      [done|].
    intros i x _. unfold compose.
    by replace (start + S i)%nat with (S start + i)%nat by lia.
Qed.

(** ** Parser and formatter *)

Section ParserFacts.
Context `{Host}.

Lemma drop_while_all p s : Js.all_chars p s = true → Js.drop_while p s = "".
Proof.
  induction s as [|c r IH]; simpl; [done|].
  destruct (p c); simpl; [done|discriminate].
Qed.

Lemma trim_white_space s : Js.all_chars Js.is_white_space s = true → Js.trim s = "".
Proof. intros Hs. unfold Js.trim. by rewrite (drop_while_all _ _ Hs). Qed.

(** Claim C6.  On a text of white space only (the empty text included)
    [parseJson] returns the value [undefined] and no error, while
    [isValidJson] of the empty text is false: [isValidJson] hands the
    text to [JSON.parse] as it is, which throws on the empty text. *)
Theorem parseJson_blank_isValidJson_empty (text : string) :
  Js.all_chars Js.is_white_space text = true →
  (∃ msg, JSON_parse "" = Throw msg) →
  Parser.parseJson text = Ok {| Parser.value_ := VUndefined; Parser.error := None |}
  ∧ Parser.isValidJson "" = Ok false.
Proof.
  intros Hblank [msg Hempty]. split.
  - unfold Parser.parseJson. by rewrite trim_white_space, decide_True.
  - unfold Parser.isValidJson. by rewrite Hempty.
Qed.

(** Claim C5.  On a text on which [JSON.parse] throws, [formatJson],
    [minifyJson] and [sortJsonKeys] each return the text itself,
    unchanged: the result is [Ok text], not a thrown error. *)
Theorem formatters_return_unparseable_text (text : string)
    (indent sortIndent : Formatter.IndentationType) (order : Formatter.key_order) :
  (∃ msg, JSON_parse text = Throw msg) →
  Formatter.formatJson text indent = Ok text
  ∧ Formatter.minifyJson text = Ok text
  ∧ Formatter.sortJsonKeys text order sortIndent = Ok text.
Proof.
  intros [msg Hthrow].
  unfold Formatter.formatJson, Formatter.minifyJson, Formatter.sortJsonKeys.
  by rewrite Hthrow.
Qed.
End ParserFacts.

(** On the sample host, with a text of a space, a tab, a newline and a
    space. *)
Lemma parseJson_blank_isValidJson_empty_witness :
  let blank := String " " (String (ascii_of_nat 9) (String Parser.newline " ")) in
  Js.all_chars Js.is_white_space blank = true
  ∧ (∃ msg, Sample.parse "" = Throw msg)
  ∧ Parser.parseJson (H:=Sample.host) blank
    = Ok {| Parser.value_ := VUndefined; Parser.error := None |}
  ∧ Parser.isValidJson (H:=Sample.host) "" = Ok false.
Proof.
  assert (∃ msg, Sample.parse "" = Throw msg) as Hempty by (eexists; reflexivity).
  split_and!; [reflexivity|exact Hempty| |].
  - apply (parseJson_blank_isValidJson_empty (H:=Sample.host)); [reflexivity|exact Hempty].
  - apply (parseJson_blank_isValidJson_empty (H:=Sample.host) ""); [reflexivity|exact Hempty].
Defined.

(** On the sample host, with a text that opens an object and names no
    key. *)
Lemma formatters_return_unparseable_text_witness :
  (∃ msg, Sample.parse "{bad" = Throw msg)
  ∧ Formatter.formatJson (H:=Sample.host) "{bad" Formatter.Indent2 = Ok "{bad"
  ∧ Formatter.minifyJson (H:=Sample.host) "{bad" = Ok "{bad"
  ∧ Formatter.sortJsonKeys (H:=Sample.host) "{bad" Formatter.Desc Formatter.IndentTab
    = Ok "{bad".
Proof.
  assert (∃ msg, Sample.parse "{bad" = Throw msg) as Hbad by (eexists; reflexivity).
  split; [exact Hbad|].
  apply (formatters_return_unparseable_text (H:=Sample.host) "{bad"). exact Hbad.
Defined.

(** ** Validator *)

Section ValidatorFacts.
Context `{Host} `{RegExpEngine}.


(** Claim C3.  [validateSchema(-5, {type: 'number', minimum: 0})] has
    exactly one error, with [schemaKeyword] ['minimum'] and
    [actualValue] [-5]; the type check of the integer [-5] against
    ['number'] gives no error. *)
Theorem validateSchema_minus_five :
  Validator.typeErrors (VNum (Js.num (-5))) Validator.minimum_schema "$" = []
  ∧ Validator.validateSchema (VNum (Js.num (-5))) Validator.minimum_schema "$"
    = Ok {| Validator.valid := false;
            Validator.errors :=
              [ {| Validator.message := "Value must be >= " +:+ Number_toString (Js.num 0);
                   Validator.path := "$";
                   Validator.severity := Validator.error;
                   Validator.schemaKeyword := "minimum";
                   Validator.schemaRule := Validator.RuleNumber (Js.num 0);
                   Validator.actualValue := VNum (Js.num (-5)) |} ] |}.
Proof. split; reflexivity. Qed.

(** Claim C10.  For a schema without [type], [validateSchema(null,
    schema)] is valid with no error, whatever else the schema asks for:
    the value [null] returns before any other check. *)
Theorem validateSchema_null_without_type (schema : Validator.JSONSchema) (path : string) :
  Validator.type schema = None →
  Validator.validateSchema VNull schema path
  = Ok {| Validator.valid := true; Validator.errors := [] |}.
Proof. intros Htype. simpl. by rewrite Htype. Qed.
End ValidatorFacts.


(** [null] against a schema with [enum: [1, 'a']] and [required:
    ['name']] but no [type]. *)
Lemma validateSchema_null_without_type_witness :
  Validator.type Examples.enum_schema = None
  ∧ Validator.validateSchema (H:=Sample.host) (H0:=Sample.engine) VNull Examples.enum_schema "$"
    = Ok {| Validator.valid := true; Validator.errors := [] |}.
Proof.
  split; [reflexivity|].
  apply (validateSchema_null_without_type (H:=Sample.host) (H0:=Sample.engine)).
  reflexivity.
Defined.

(** ** Text search *)

Section SearchFacts.
Context `{RegExpEngine}.

(** A successful [exec] starts within the line, and the loop resumes
    strictly after the index it started from: after the match when it
    has a width, one past it when it has none. *)
Lemma exec_advances re text lastIndex index matched newLastIndex :
  Search.exec re text lastIndex = Some (index, matched, newLastIndex) →
  (lastIndex ≤ String.length text
   ∧ lastIndex ≤ index
   ∧ newLastIndex = index + String.length matched
   ∧ lastIndex < (if index =? newLastIndex then S newLastIndex else newLastIndex))%nat.
Proof.
  unfold Search.exec.
  destruct (Nat.ltb_spec (String.length text) lastIndex); [done|].
  destruct (RegExp_search re text lastIndex) as [[gap t]|]; [|done].
  intros [= <- <- <-].
  destruct (Nat.eqb_spec (lastIndex + gap) (lastIndex + gap + String.length t)); lia.
Qed.


Lemma ordered_from_weaken lineNo from from' ms :
  (from' ≤ from)%nat → Search.ordered_from lineNo from ms → Search.ordered_from lineNo from' ms.
Proof. destruct ms; simpl; [done|]. intros ? (?&?&?). split_and!; try done; lia. Qed.

Lemma ordered_from_Forall lineNo from ms :
  Search.ordered_from lineNo from ms →
  Forall (λ m, Search.line m = lineNo ∧ (from ≤ Search.columnStart m)%nat) ms.
Proof.
  revert from. induction ms as [|m rest IH]; intros from; simpl; [constructor|].
  intros (Hline & Hcols & Hrest). constructor; [split; [done|lia]|].
  apply IH. eapply ordered_from_weaken; [|done]. lia.
Qed.

Lemma ordered_from_sorted lineNo from ms :
  Search.ordered_from lineNo from ms → StronglySorted Search.before ms.
Proof.
  revert from. induction ms as [|m rest IH]; intros from; simpl; [constructor|].
  intros (Hline & Hcols & Hrest). constructor; [by eapply IH|].
  eapply Forall_impl; [by apply ordered_from_Forall|].
  intros b [Hb1 Hb2]. right. split; [congruence|done].
Qed.

(** The loop over one line returns whenever the fuel exceeds what is
    left of the line, by induction on a bound [k] of that rest. *)
Lemma scanLine_terminates re text lineIdx (k : nat) : ∀ lastIndex,
  (S (String.length text) - lastIndex ≤ k)%nat →
  ∃ ms,
    (∀ fuel, (S (String.length text) - lastIndex < fuel)%nat →
       Search.scanLine fuel re text lineIdx lastIndex = Some ms)
    ∧ Search.ordered_from (lineIdx + 1) lastIndex ms.
Proof.
  induction k as [|k IH]; intros lastIndex Hk.
  - exists []. split; [|done]. intros [|fuel] Hfuel; [lia|]. simpl.
    destruct (Search.exec re text lastIndex) as [[[index matched] newLastIndex]|] eqn:Hexec;
      [|done].
    apply exec_advances in Hexec. lia.
  - destruct (Search.exec re text lastIndex) as [[[index matched] newLastIndex]|] eqn:Hexec.
    + pose proof (exec_advances _ _ _ _ _ _ Hexec) as (Hin & Hidx & Hend & Hadv).
      destruct (IH (if (index =? newLastIndex)%nat then S newLastIndex else newLastIndex))
        as (rest & Hrest & Hord); [lia|].
      eexists (_ :: rest). split.
      * intros [|fuel] Hfuel; [lia|]. simpl. rewrite Hexec.
        rewrite Hrest by lia. done.
      * simpl. split_and!; [done|lia|lia|].
        eapply ordered_from_weaken; [|done].
        destruct (index =? newLastIndex)%nat; lia.
    + exists []. split; [|done]. intros [|fuel] Hfuel; [lia|]. simpl. by rewrite Hexec.
Qed.

(** No line is longer than the text. *)
Lemma split_length sep s l :
  l ∈ Js.split sep s → (String.length l ≤ String.length s)%nat.
Proof.
  revert l. induction s as [|c r IH]; intros l; simpl.
  - intros ->%list_elem_of_singleton. done.
  - destruct (decide (c = sep)).
    + intros [->|Hl]%elem_of_cons; [simpl; lia|]. specialize (IH _ Hl). lia.
    + destruct (Js.split sep r) as [|w ws] eqn:Hsplit.
      * intros ->%list_elem_of_singleton. simpl. lia.
      * intros [->|Hl]%elem_of_cons.
        -- simpl. specialize (IH w ltac:(left)). lia.
        -- specialize (IH l ltac:(by right)). lia.
Qed.

Lemma scanLines_terminates re (bound : nat) (lines : list string) : ∀ lineIdx,
  Forall (λ l, (String.length l ≤ bound)%nat) lines →
  ∃ ms,
    (∀ fuel, (bound + 2 ≤ fuel)%nat →
       Search.scanLines fuel re lines lineIdx = Some ms)
    ∧ StronglySorted Search.before ms
    ∧ Forall (λ m, (lineIdx < Search.line m)%nat) ms.
Proof.
  induction lines as [|l rest IH]; intros lineIdx Hlen.
  - exists []. split_and!; [done|constructor|constructor].
  - apply Forall_cons in Hlen as [Hl Hrest].
    destruct (scanLine_terminates re l lineIdx (S (String.length l)) 0%nat)
      as (here & Hhere & Hord); [lia|].
    destruct (IH (S lineIdx) Hrest) as (more & Hmore & Hsorted & Hlines).
    exists (here ++ more). split_and!.
    + intros fuel Hfuel. simpl. rewrite Hhere by lia. rewrite Hmore by done. done.
    + apply StronglySorted_app. split_and!; [|by eapply ordered_from_sorted|done].
      intros a b Ha Hb.
      apply ordered_from_Forall in Hord.
      rewrite Forall_forall in Hord, Hlines.
      destruct (Hord _ Ha) as [Hla _]. specialize (Hlines _ Hb).
      left. lia.
    + apply Forall_app. split.
      * apply ordered_from_Forall in Hord. eapply Forall_impl; [done|].
        intros m [Hm _]. simpl in Hm. lia.
      * eapply Forall_impl; [done|]. intros m Hm. simpl in Hm. lia.
Qed.

(** Claim C8.  For every query, text and options the match extraction
    terminates: once the fuel exceeds the length of the text by two, the
    loops return the same list of matches, and these do not overlap.
    The step that makes a zero-width match harmless is
    [exec_advances]. *)
Theorem matches_terminate_without_overlap (query text : string)
    (options : Search.UseSearchOptions) :
  ∃ ms,
    (∀ fuel, (String.length text + 2 ≤ fuel)%nat →
       Search.matches fuel query text options = Some ms)
    ∧ Search.non_overlapping ms.
Proof.
  unfold Search.matches.
  destruct (decide (query = "" ∨ text = "")).
  { exists []. split; [done|constructor]. }
  destruct (RegExp_new _ _) as [re|msg].
  - destruct (scanLines_terminates re (String.length text)
                (Js.split Parser.newline text) 0%nat) as (ms & Hms & Hsorted & _).
    { apply Forall_forall. intros l Hl. by eapply split_length. }
    exists ms. split; [done|]. done.
  - exists []. split; [done|constructor].
Qed.
End SearchFacts.

(** ** The unit tests of the repository, run on the embedding *)

Example parsePath_tests :
  Path.parsePath "$.name" = ["name"]
  ∧ Path.parsePath "$.address.city" = ["address"; "city"]
  ∧ Path.parsePath "$.items[0]" = ["items"; "0"]
  ∧ Path.parsePath "$.items[0].name" = ["items"; "0"; "name"]
  ∧ Path.parsePath "$" = []
  ∧ Path.parsePath "a.b.c" = ["a"; "b"; "c"]
  ∧ Path.parsePath (Sample.json_text "$['key']") = ["key"]
  ∧ Path.parsePath "$['key']" = ["key"].
Proof. vm_compute. repeat split. Qed.

Example getByPath_tests :
  Path.getByPath Examples.test_data "$" = Examples.test_data
  ∧ Path.getByPath Examples.test_data "$.name" = VStr "John"
  ∧ Path.getByPath Examples.test_data "$.address.city" = VStr "NYC"
  ∧ Path.getByPath Examples.test_data "$.items[0]" = VObj [("id", VNum (Js.num 1))]
  ∧ Path.getByPath Examples.test_data "$.items[1].id" = VNum (Js.num 2)
  ∧ Path.getByPath Examples.test_data "$.nonexistent" = VUndefined
  ∧ Path.getByPath Examples.test_data "$.address.country" = VUndefined
  ∧ Path.getByPath VNull "$.name" = VUndefined
  ∧ Path.getByPath VUndefined "$.name" = VUndefined.
Proof. repeat split. Qed.

Example setByPath_tests :
  Path.setByPath (VObj []) "$" (VNum (Js.num 42)) = VNum (Js.num 42)
  ∧ Path.setByPath (VObj [("a", VNum (Js.num 1))]) "$.a" (VNum (Js.num 2))
    = VObj [("a", VNum (Js.num 2))]
  ∧ Path.setByPath (VObj [("address", VObj [("city", VStr "NYC")])]) "$.address.city"
      (VStr "LA")
    = VObj [("address", VObj [("city", VStr "LA")])]
  ∧ Path.setByPath (VArr [VNum (Js.num 1); VNum (Js.num 2); VNum (Js.num 3)] []) "$[1]"
      (VNum (Js.num 99))
    = VArr [VNum (Js.num 1); VNum (Js.num 99); VNum (Js.num 3)] []
  ∧ Path.setByPath (VObj [("a", VNum (Js.num 1))]) "$.b" (VNum (Js.num 2))
    = VObj [("a", VNum (Js.num 1)); ("b", VNum (Js.num 2))].
Proof. repeat split. Qed.

Example lineCol_tests :
  let text := "line1" +:+ String Parser.newline ("line2" +:+ String Parser.newline "line3") in
  Parser.getLineColFromOffset "hello" 3 = (1, 4)
  ∧ Parser.getLineColFromOffset text 7 = (2, 2)
  ∧ Parser.getLineColFromOffset text 12 = (3, 1)
  ∧ Parser.getLineColFromOffset "hello" 0 = (1, 1)
  ∧ Parser.getOffsetFromLineCol text 1 1 = 0
  ∧ Parser.getOffsetFromLineCol text 2 1 = 6
  ∧ Parser.getOffsetFromLineCol text 3 1 = 12.
Proof. repeat split. Qed.

(** [formatJson('{"a":1,"b":2}')] on the sample host. *)
Example formatJson_test :
  Formatter.formatJson (H:=Sample.host) (Sample.json_text "{'a':1,'b':2}") Formatter.Indent2
  = Ok (Sample.json_text
          ("{" +:+ String Parser.newline ("  'a': 1," +:+ String Parser.newline
             ("  'b': 2" +:+ String Parser.newline "}")))).
Proof. vm_compute. reflexivity. Qed.

(** A parse error of the sample host, located by [extractParseError]. *)
Example parseJson_error_test :
  Parser.parseJson (H:=Sample.host) "[1, 2,, 3]"
  = Ok {| Parser.value_ := VUndefined;
          Parser.error :=
            Some {| Parser.message := "Unexpected token , in JSON";
                    Parser.line := 1; Parser.column := 7; Parser.offset := 6 |} |}.
Proof. vm_compute. reflexivity. Qed.

(** [validateSchema({age: 30}, {type: 'object', properties: {age:
    {type: 'number'}}, required: ['name']})] has the single error
    ['required']. *)
Example validateSchema_required_test :
  let number_schema :=
    Validator.Schema (Some (Validator.TypeName "number")) None None None None None None None
      None None None None false None None None None None None in
  let schema :=
    Validator.Schema (Some (Validator.TypeName "object")) None None None None None None None
      None None None None false None (Some ["name"]) None None
      (Some [("age", number_schema)]) None in
  (r ← Validator.validateSchema (H:=Sample.host) (H0:=Sample.engine)
         (VObj [("age", VNum (Js.num 30))]) schema "$";
   Ok (Validator.schemaKeyword <$> Validator.errors r))
  = Ok ["required"].
Proof. vm_compute. reflexivity. Qed.

(** The query [John] in the text of [{name: "John", fullName: "John
    Doe"}] has two matches. *)
Example search_test :
  (text ← Formatter.formatJson (H:=Sample.host)
            (Sample.json_text "{'name':'John','fullName':'John Doe'}") Formatter.Indent2;
   Ok (Search.matches (H:=Sample.engine) (String.length text + 2) "John" text
         {| Search.caseSensitive := false; Search.useRegex := false;
            Search.searchKeys := true; Search.searchValues := true |}))
  = Ok (Some [ {| Search.line := 2; Search.columnStart := 11; Search.columnEnd := 15;
                  Search.matchText := "John" |};
               {| Search.line := 3; Search.columnStart := 15; Search.columnEnd := 19;
                  Search.matchText := "John" |} ]).
Proof. vm_compute. reflexivity. Qed.

(** Zero-width matches: the empty pattern matches at each of the three
    positions of a line of two characters, and the loop ends. *)
Example scanLine_zero_width_test :
  Search.scanLine (H:=Sample.engine) 5 (EmptyString, false) "ab" 0 0
  = Some [ {| Search.line := 1; Search.columnStart := 0; Search.columnEnd := 0;
              Search.matchText := EmptyString |};
           {| Search.line := 1; Search.columnStart := 1; Search.columnEnd := 1;
              Search.matchText := EmptyString |};
           {| Search.line := 1; Search.columnStart := 2; Search.columnEnd := 2;
              Search.matchText := EmptyString |} ].
Proof. vm_compute. reflexivity. Qed.

(** * Further properties *)

(** ** Strings and digits *)

Lemma append_cons c s t : String c s +:+ t = String c (s +:+ t).
Proof. reflexivity. Qed.

Lemma append_nil_l s : "" +:+ s = s.
Proof. reflexivity. Qed.

Lemma append_nil_r s : s +:+ "" = s.
Proof. induction s as [|c s IH]; [done|]. by rewrite append_cons, IH. Qed.

Lemma append_assoc a b c : (a +:+ b) +:+ c = a +:+ (b +:+ c).
Proof. induction a as [|x a IH]; [done|]. by rewrite !append_cons, IH. Qed.

Lemma length_append a b : String.length (a +:+ b) = (String.length a + String.length b)%nat.
Proof. induction a as [|x a IH]; [done|]. rewrite append_cons. simpl. by rewrite IH. Qed.

Lemma all_chars_append p a b :
  Js.all_chars p (a +:+ b) = Js.all_chars p a && Js.all_chars p b.
Proof.
  induction a as [|c a IH]; [done|]. rewrite append_cons. simpl. rewrite IH.
  by destruct (p c).
Qed.

Lemma digits_value_append acc a b :
  Js.digits_value acc (a +:+ b) = Js.digits_value (Js.digits_value acc a) b.
Proof.
  revert acc. induction a as [|c a IH]; intros acc; [done|].
  rewrite append_cons. simpl. apply IH.
Qed.

Lemma pretty_N_char_digit d :
  (d < 10)%N →
  Js.is_digit (pretty_N_char d) = true ∧ Js.digit_value (pretty_N_char d) = Z.of_N d.
Proof.
  intros Hd.
  assert (d = 0 ∨ d = 1 ∨ d = 2 ∨ d = 3 ∨ d = 4 ∨ d = 5 ∨ d = 6 ∨ d = 7 ∨ d = 8 ∨ d = 9)%N
    as Hcases by lia.
  destruct_or!; subst; done.
Qed.

(** [pretty_N_go x s] puts the decimal digits of [x] in front of [s]. *)
Lemma pretty_N_go_digits x : ∀ s,
  ∃ ds, pretty_N_go x s = ds +:+ s
        ∧ Js.all_chars Js.is_digit ds = true
        ∧ ((0 < x)%N → ds ≠ "")
        ∧ ∀ acc, Js.digits_value acc ds
                 = acc * 10 ^ Z.of_nat (String.length ds) + Z.of_N x.
Proof.
  induction (N.lt_wf_0 x) as [x _ IH]; intros s.
  destruct (decide (x = 0)%N) as [->|Hx].
  - exists "". rewrite pretty_N_go_0. split_and!; [done|done|lia|]. intros acc. simpl. lia.
  - rewrite pretty_N_go_step by lia.
    destruct (IH (x `div` 10)%N ltac:(apply N.div_lt; lia)
                (String (pretty_N_char (x `mod` 10)) s)) as (ds & Hgo & Hdigits & _ & Hval).
    destruct (pretty_N_char_digit (x `mod` 10)%N ltac:(apply N.mod_lt; lia)) as [Hc Hv].
    exists (ds +:+ String (pretty_N_char (x `mod` 10)) "").
    split_and!.
    + rewrite Hgo. by rewrite append_assoc.
    + rewrite all_chars_append, Hdigits. simpl. by rewrite Hc.
    + intros _. destruct ds; done.
    + intros acc. rewrite digits_value_append, Hval. simpl. rewrite Hv.
      rewrite length_append. simpl.
      replace (Z.of_nat (String.length ds + 1)) with (Z.of_nat (String.length ds) + 1) by lia.
      rewrite Z.pow_add_r by lia.
      pose proof (N.div_mod x 10 ltac:(lia)) as Hdm.
      rewrite N2Z.inj_div, N2Z.inj_mod in *. 
      assert (Z.of_N x = 10 * (Z.of_N x `div` 10) + Z.of_N x `mod` 10) as Hx'
        by (apply Z.div_mod; lia).
      change (Z.of_N 10) with 10. lia.
Qed.

(** The decimal text of a natural number: digits that denote it. *)
Lemma pretty_nat_digits (n : nat) :
  Js.all_digits (pretty n) = true ∧ Js.digits_value 0 (pretty n) = Z.of_nat n.
Proof.
  unfold pretty, pretty_nat, pretty, pretty_N.
  destruct (decide (N.of_nat n = 0)%N) as [Hn|Hn].
  - assert (n = 0%nat) as -> by lia. done.
  - destruct (pretty_N_go_digits (N.of_nat n) "") as (ds & Hgo & Hdigits & Hne & Hval).
    rewrite Hgo, append_nil_r. unfold Js.all_digits. split.
    + rewrite Hdigits. rewrite bool_decide_eq_false_2; [done|]. apply Hne. lia.
    + rewrite Hval. lia.
Qed.


(** [parseInt] of a run of digits. *)
Lemma parseInt_digits s :
  Js.all_digits s = true → Js.parseInt s = Some (Js.digits_value 0 s).
Proof.
  unfold Js.all_digits. intros [Hne Hdigits]%andb_true_iff.
  apply negb_true_iff, bool_decide_eq_false in Hne.
  destruct s as [|c r]; [done|]. simpl in Hdigits.
  apply andb_true_iff in Hdigits as [Hc Hr].
  assert (Js.is_white_space c = false) as Hws.
  { unfold Js.is_digit, Js.is_white_space in *.
    apply andb_true_iff in Hc as [H1 H2]. apply Nat.leb_le in H1, H2.
    repeat match goal with
           | |- context [(?a <=? ?b)%nat] => destruct (Nat.leb_spec a b)
           | |- context [(?a =? ?b)%nat] => destruct (Nat.eqb_spec a b)
           end; simpl; try done; lia. }
  assert (∀ t, Js.all_chars Js.is_digit t = true → Js.span Js.is_digit t = (t, "")) as Hspan.
  { induction t as [|d t IHt]; simpl; [done|].
    intros [Hd Ht]%andb_true_iff. rewrite Hd, (IHt Ht). done. }
  unfold Js.parseInt. cbn [Js.drop_while]. rewrite Hws.
  assert (c ≠ "-"%char ∧ c ≠ "+"%char) as [Hm Hp].
  { split; intros ->; done. }
  assert (Js.span Js.is_digit (String c r) = (String c r, "")) as Hs.
  { apply Hspan. simpl. by rewrite Hc, Hr. }
  destruct c as [[] [] [] [] [] [] [] []]; try done; rewrite Hs; by simpl.
Qed.

Lemma parseInt_pretty (n : nat) : Js.parseInt (pretty n) = Some (Z.of_nat n).
Proof.
  destruct (pretty_nat_digits n) as [Hd Hv]. by rewrite parseInt_digits, Hv.
Qed.


(** ** Parsing the paths that the code builds *)

Lemma replace_all_from_skip m a b :
  Js.replace_all_from m (String.length a) (a +:+ b) = Js.replace_all_from m 0 b.
Proof.
  induction a as [|c a IH]; [by destruct b|]. rewrite append_cons. simpl. apply IH.
Qed.

(** A matcher that looks for an opening bracket leaves a text without
    one unchanged. *)
Lemma no_bracket_append a b :
  Path.no_bracket (a +:+ b) = Path.no_bracket a && Path.no_bracket b.
Proof. apply all_chars_append. Qed.

Lemma replace_all_prefix m a b :
  (∀ c r, c ≠ "["%char → m (String c r) = None) →
  Path.no_bracket a = true →
  Js.replace_all m (a +:+ b) = a +:+ Js.replace_all m b.
Proof.
  intros Hm. unfold Js.replace_all, Path.no_bracket.
  induction a as [|c a IH]; [done|]. rewrite !append_cons. simpl.
  intros [Hc Ha]%andb_true_iff.
  rewrite Hm; [by rewrite IH|].
  by apply negb_true_iff, bool_decide_eq_false in Hc.
Qed.

Lemma replace_all_unchanged m a :
  (∀ c r, c ≠ "["%char → m (String c r) = None) →
  Path.no_bracket a = true →
  Js.replace_all m a = a.
Proof.
  intros Hm Ha. rewrite <- (append_nil_r a) at 1.
  rewrite replace_all_prefix by done. apply append_nil_r.
Qed.

Lemma all_chars_impl (p q : ascii → bool) s :
  (∀ c, p c = true → q c = true) → Js.all_chars p s = true → Js.all_chars q s = true.
Proof.
  intros Hpq. induction s as [|c s IH]; simpl; [done|].
  intros [Hc Hs]%andb_true_iff. by rewrite (Hpq _ Hc), IH.
Qed.

Lemma simple_name_spec w :
  Path.simple_name w = true → w ≠ "" ∧ Path.no_bracket w = true ∧ Path.no_dot w = true.
Proof.
  unfold Path.simple_name, Path.no_bracket, Path.no_dot. intros [Hne Hw]%andb_true_iff.
  apply negb_true_iff, bool_decide_eq_false in Hne. split_and!; [done|..].
  - eapply all_chars_impl; [|done]. unfold Path.plain_char.
    by intros c [_ ?]%andb_true_iff.
  - eapply all_chars_impl; [|done]. unfold Path.plain_char.
    by intros c [? _]%andb_true_iff.
Qed.

Lemma all_digits_spec ds :
  Js.all_digits ds = true → ds ≠ "" ∧ Path.no_bracket ds = true ∧ Path.no_dot ds = true.
Proof.
  unfold Js.all_digits, Path.no_bracket, Path.no_dot. intros [Hne Hw]%andb_true_iff.
  apply negb_true_iff, bool_decide_eq_false in Hne. split_and!; [done|..].
  - eapply all_chars_impl; [|done]. intros c Hc.
    apply negb_true_iff, bool_decide_eq_false. by intros ->.
  - eapply all_chars_impl; [|done]. intros c Hc.
    apply negb_true_iff, bool_decide_eq_false. by intros ->.
Qed.

Lemma index_bracket_other c r : c ≠ "["%char → Path.index_bracket (String c r) = None.
Proof.
  intros Hc. unfold Path.index_bracket.
  destruct c as [[] [] [] [] [] [] [] []]; done.
Qed.

Lemma quoted_bracket_other q c r : c ≠ "["%char → Path.quoted_bracket q (String c r) = None.
Proof.
  intros Hc. unfold Path.quoted_bracket.
  destruct c as [[] [] [] [] [] [] [] []]; done.
Qed.

Lemma span_digits ds rest :
  Js.all_chars Js.is_digit ds = true →
  Js.span Js.is_digit (ds +:+ String "]" rest) = (ds, String "]" rest).
Proof.
  induction ds as [|d ds IH]; [done|]. rewrite append_cons. simpl.
  intros [Hd Hds]%andb_true_iff. by rewrite Hd, (IH Hds).
Qed.

(** The index form is replaced by a dot and the digits. *)
Lemma replace_all_index ds rest :
  Js.all_digits ds = true →
  Js.replace_all Path.index_bracket (("[" +:+ ds +:+ "]") +:+ rest)
  = ("." +:+ ds) +:+ Js.replace_all Path.index_bracket rest.
Proof.
  unfold Js.all_digits. intros [Hne Hdigits]%andb_true_iff.
  apply negb_true_iff, bool_decide_eq_false in Hne.
  unfold Js.replace_all.
  replace (("[" +:+ ds +:+ "]") +:+ rest) with (String "[" (ds +:+ String "]" rest))
    by (rewrite !append_cons, !append_nil_l, append_assoc; done).
  cbn [Js.replace_all_from]. unfold Path.index_bracket.
  rewrite span_digits by done. rewrite decide_False by done.
  f_equal. cbn [Nat.pred Nat.add].
  replace (String "]" rest) with ("]" +:+ rest) by done.
  rewrite <- append_assoc.
  replace (S (String.length ds)) with (String.length (ds +:+ "]"))
    by (rewrite length_append; simpl; lia).
  apply replace_all_from_skip.
Qed.

(** First step of [parsePath]: the index forms become dots and
    digits. *)
Lemma replace_index_render ps :
  Path.separated ps →
  Js.replace_all Path.index_bracket (Path.render_all ps) = Path.dotted ps.
Proof.
  induction ps as [|[|w|ds] rest IH]; cbn [Path.render_all Path.render Path.dotted Path.separated].
  - done.
  - intros Hrest. rewrite (replace_all_prefix _ "." _); [by rewrite IH| |done].
    apply index_bracket_other.
  - intros (Hw & _ & Hrest). apply simple_name_spec in Hw as (_ & Hw & _).
    rewrite replace_all_prefix; [by rewrite IH| |done]. apply index_bracket_other.
  - intros (Hds & _ & Hrest). rewrite replace_all_index by done. by rewrite IH.
Qed.

Lemma dotted_no_bracket ps : Path.separated ps → Path.no_bracket (Path.dotted ps) = true.
Proof.
  induction ps as [|[|w|ds] rest IH]; cbn [Path.dotted Path.separated]; [done|..].
  - intros Hrest. rewrite no_bracket_append, IH by done. done.
  - intros (Hw & _ & Hrest). apply simple_name_spec in Hw as (_ & Hw & _).
    by rewrite no_bracket_append, Hw, IH.
  - intros (Hds & _ & Hrest). apply all_digits_spec in Hds as (_ & Hds & _).
    by rewrite !no_bracket_append, Hds, IH.
Qed.

Lemma split_not_nil sep s : Js.split sep s ≠ [].
Proof.
  destruct s as [|c r]; simpl; [done|].
  destruct (decide (c = sep)); [done|]. by destruct (Js.split sep r).
Qed.

(** A word without dots goes into the first part of the split. *)
Lemma split_word w s :
  Path.no_dot w = true →
  Js.split "." (w +:+ s)
  = match Js.split "." s with
    | h :: t => (w +:+ h) :: t
    | [] => []
    end.
Proof.
  unfold Path.no_dot. induction w as [|c w IH]; intros Hw.
  - rewrite append_nil_l. by destruct (Js.split "." s).
  - simpl in Hw. apply andb_true_iff in Hw as [Hc Hw].
    apply negb_true_iff, bool_decide_eq_false in Hc.
    rewrite append_cons. cbn [Js.split]. rewrite decide_False by done.
    rewrite (IH Hw). pose proof (split_not_nil "." s) as Hnil.
    by destruct (Js.split "." s).
Qed.


Lemma segments_dot s : Path.segments_of ("." +:+ s) = Path.segments_of s.
Proof.
  unfold Path.segments_of. rewrite append_cons, append_nil_l. cbn [Js.split]. rewrite decide_True by done.
  rewrite filter_cons_False; [done|]. by intros [].
Qed.

Lemma segments_word w s :
  w ≠ "" → Path.no_dot w = true → (s = "" ∨ ∃ s', s = "." +:+ s') →
  Path.segments_of (w +:+ s) = w :: Path.segments_of s.
Proof.
  intros Hne Hw [->|[s' ->]]; unfold Path.segments_of.
  - rewrite append_nil_r. rewrite <- (append_nil_r w) at 1. rewrite split_word by done.
    cbn [Js.split]. rewrite append_nil_r. rewrite filter_cons_True by done.
    rewrite filter_nil. rewrite filter_cons_False; [done|]. by intros [].
  - rewrite split_word by done. fold (Path.segments_of ("." +:+ s')). rewrite segments_dot.
    rewrite append_cons, append_nil_l. cbn [Js.split]. rewrite decide_True by done.
    rewrite append_nil_r. by rewrite filter_cons_True by done.
Qed.

Lemma starts_separated_dotted ps :
  Path.starts_separated ps → Path.dotted ps = "" ∨ ∃ s', Path.dotted ps = "." +:+ s'.
Proof.
  destruct ps as [|[|w|ds] rest]; cbn [Path.dotted Path.starts_separated]; [by left|..].
  - intros _. right. eauto.
  - done.
  - intros _. right. exists (ds +:+ Path.dotted rest). by rewrite append_assoc.
Qed.

(** Last step of [parsePath]: splitting at the dots gives the words. *)
Lemma segments_dotted ps :
  Path.separated ps → Path.segments_of (Path.dotted ps) = Path.words ps.
Proof.
  induction ps as [|[|w|ds] rest IH]; cbn [Path.dotted Path.separated].
  - done.
  - intros Hrest. rewrite segments_dot. by rewrite IH.
  - intros (Hw & Hsep & Hrest). apply simple_name_spec in Hw as (Hne & _ & Hw).
    rewrite segments_word by (done || by apply starts_separated_dotted).
    by rewrite IH.
  - intros (Hds & Hsep & Hrest). apply all_digits_spec in Hds as (Hne & _ & Hds).
    rewrite append_assoc, segments_dot.
    rewrite segments_word by (done || by apply starts_separated_dotted).
    by rewrite IH.
Qed.

(** The steps of [parsePath] after the leading [$] is removed. *)
Lemma parse_render ps :
  Path.separated ps →
  filter (λ s, s ≠ "")
    (Js.split "."
       (Js.replace_all (Path.quoted_bracket "'")
          (Js.replace_all (Path.quoted_bracket Js.double_quote)
             (Js.replace_all Path.index_bracket (Path.render_all ps)))))
  = Path.words ps.
Proof.
  intros Hps. rewrite replace_index_render by done.
  rewrite (replace_all_unchanged (Path.quoted_bracket Js.double_quote))
    by (apply quoted_bracket_other || by apply dotted_no_bracket).
  rewrite (replace_all_unchanged (Path.quoted_bracket "'"))
    by (apply quoted_bracket_other || by apply dotted_no_bracket).
  by apply segments_dotted.
Qed.

(** [parsePath] on [$] followed by pieces. *)
Lemma parsePath_render ps :
  Path.separated ps → Path.parsePath ("$" +:+ Path.render_all ps) = Path.words ps.
Proof.
  intros Hps. unfold Path.parsePath. rewrite append_cons, append_nil_l.
  destruct ps as [|[|w|ds] rest]; cbn [Path.render_all Path.render].
  - done.
  - rewrite append_cons, append_nil_l. rewrite parse_render by done. done.
  - destruct w as [|c w].
    { by destruct Hps as [Hw _]. }
    rewrite append_cons.
    assert (c ≠ "."%char) as Hc.
    { destruct Hps as [Hw _]. apply simple_name_spec in Hw as (_ & _ & Hw).
      unfold Path.no_dot in Hw. simpl in Hw. apply andb_true_iff in Hw as [Hc _].
      by apply negb_true_iff, bool_decide_eq_false in Hc. }
    rewrite <- append_cons.
    change (String c w +:+ Path.render_all rest)
      with (Path.render_all (Path.PWord (String c w) :: rest)).
    rewrite <- (parse_render _ Hps).
    destruct c as [[] [] [] [] [] [] [] []]; done.
  - rewrite <- (parse_render (Path.PIndex ds :: rest)) by done. done.
Qed.








(** ** Path engine: created paths, siblings, deletion *)

Lemma indexable_undefined segments : Path.indexable VUndefined segments.
Proof. by destruct segments. Qed.

(** X2.  [setByPath] can be read back also where the path is absent:
    the containers it creates on the way lead [getByPath] to the new
    value, provided no array on the way is met with a segment that is
    not a number. *)
Theorem getByPath_setByPath_created (v : value) (p : string) (x : value) :
  Path.indexable v (Path.parsePath p) →
  Path.getByPath (Path.setByPath v p x) p = x.
Proof.
  unfold Path.getByPath, Path.setByPath.
  destruct (decide (p = "$" ∨ p = "")); [done|].
  generalize (Path.parsePath p). clear. intros segments. revert v.
  induction segments as [|segment rest IH]; intros v Hv; [done|].
  assert (Path.getBySegments
                 (VObj [(segment,
                         Path.setBySegments
                           (if match rest with
                               | nextSegment :: _ => Js.all_digits nextSegment
                               | [] => false
                               end then VArr [] [] else VObj []) rest x)])
                 (segment :: rest) = x) as Hcreated.
  { cbn [Path.getBySegments Js.get_property]. rewrite decide_True by done.
    apply IH. destruct rest as [|next rest']; [done|].
    destruct (Js.all_digits next) eqn:Hnext; cbn [Path.indexable].
    - rewrite parseInt_digits by done.
      unfold Js.array_get. destruct (Js.is_array_index _); apply indexable_undefined.
    - apply indexable_undefined. }
  destruct v as [| | | | |elems props|fields]; try exact Hcreated.
  - cbn [Path.indexable] in Hv.
    destruct (Js.parseInt segment) as [z|] eqn:Hparse; [|done].
    cbn [Path.setBySegments]. rewrite Hparse.
    erewrite getBySegments_array_copy_set by done. by apply IH.
  - cbn [Path.setBySegments Path.getBySegments].
    rewrite get_property_define. by apply IH.
Qed.

Lemma getByPath_setByPath_created_witness :
  Path.indexable (VObj [("a", VNum (Js.num 1))]) (Path.parsePath "$.a.list.0.name")
  ∧ Path.setByPath (VObj [("a", VNum (Js.num 1))]) "$.a.list.0.name" (VStr "x")
    = VObj [("a", VObj [("list", VArr [VObj [("name", VStr "x")]] [])])]
  ∧ Path.getByPath
      (Path.setByPath (VObj [("a", VNum (Js.num 1))]) "$.a.list.0.name" (VStr "x"))
      "$.a.list.0.name" = VStr "x".
Proof.
  assert (Path.indexable (VObj [("a", VNum (Js.num 1))]) (Path.parsePath "$.a.list.0.name"))
    as Hi by (vm_compute; exact I).
  split_and!; [exact Hi|reflexivity|].
  apply (getByPath_setByPath_created _ "$.a.list.0.name" (VStr "x") Hi).
Defined.

Lemma get_property_define_ne fields k k' v :
  k ≠ k' → Js.get_property (Js.define_property fields k v) k' = Js.get_property fields k'.
Proof.
  intros Hne. unfold Js.define_property.
  destruct (Js.has_property fields k); [|destruct (Js.index_of_key k) as [i|]].
  - induction fields as [|[k0 v0] rest IH]; [done|]. simpl.
    destruct (decide (k0 = k)) as [->|]; simpl.
    + by rewrite !decide_False by done.
    + destruct (decide (k0 = k')); [done|]. apply IH.
  - induction fields as [|[k0 v0] rest IH]; simpl.
    + by rewrite decide_False.
    + destruct (Js.index_of_key k0) as [j|]; [destruct (i <? j)|]; simpl;
        rewrite ?(decide_False (P:=k = k')) by done; try done.
      destruct (decide (k0 = k')); [done|]. apply IH.
  - induction fields as [|[k0 v0] rest IH]; simpl.
    + by rewrite decide_False.
    + destruct (decide (k0 = k')); [done|]. apply IH.
Qed.

Lemma array_get_copy_set_ne elems props (z : option Z) (z' : Z) v :
  z ≠ Some z' → Js.is_array_index z' = true →
  match Js.array_copy_set elems z v with
  | VArr elems' props' => Js.array_get elems' props' (Some z') = Js.array_get elems props (Some z')
  | _ => False
  end.
Proof.
  intros Hne Hz'. unfold Js.array_copy_set, Js.array_get. cbv zeta.
  assert (0 ≤ z') as Hpos.
  { unfold Js.is_array_index in Hz'. apply andb_true_iff in Hz' as [H0 _]. lia. }
  destruct z as [z|]; [destruct (Js.is_array_index z) eqn:Hz|]; rewrite ?Hz'; try done.
  assert (0 ≤ z) as Hzpos.
  { unfold Js.is_array_index in Hz. apply andb_true_iff in Hz as [H0 _]. lia. }
  assert (z ≠ z') as Hzz by congruence.
  destruct (Nat.ltb_spec (Z.to_nat z) (length elems)).
  - rewrite list_lookup_insert_ne; [done|]. lia.
  - destruct (decide (Z.to_nat z' < length elems)%nat).
    + by rewrite lookup_app_l.
    + rewrite (lookup_ge_None_2 elems) by lia.
      rewrite lookup_app_r by lia.
      destruct (decide (Z.to_nat z' < Z.to_nat z)%nat).
      * rewrite lookup_app_l by (rewrite length_replicate; lia).
        rewrite lookup_replicate_2 by lia. done.
      * rewrite lookup_app_r by (rewrite length_replicate; lia).
        rewrite length_replicate. rewrite lookup_ge_None_2; [done|]. simpl.
        assert (Z.to_nat z ≠ Z.to_nat z') by lia. lia.
Qed.

Lemma getBySegments_cons_array elems props s z rest :
  Js.parseInt s = Some z →
  Path.getBySegments (VArr elems props) (s :: rest)
  = Path.getBySegments (Js.array_get elems props (Some z)) rest.
Proof. intros Hs. cbn [Path.getBySegments]. by rewrite Hs. Qed.


(** X3.  [setByPath] leaves the siblings untouched: if the paths [p]
    and [q] part, after common segments that lead to a container, at
    two different members of it, then writing at [p] does not change
    what is read at [q]. *)
Theorem setByPath_other_member (v : value) (p q : string) (x : value)
    (pre r r' : list string) (k k' : string) :
  Path.parsePath p = pre ++ k :: r →
  Path.parsePath q = pre ++ k' :: r' →
  Path.distinct_members (Path.getBySegments v pre) k k' →
  Path.getByPath (Path.setByPath v p x) q = Path.getByPath v q.
Proof.
  intros Hp Hq. unfold Path.getByPath, Path.setByPath.
  destruct (decide (p = "$" ∨ p = "")) as [[-> | ->]|_].
  { by destruct pre. }
  { by destruct pre. }
  destruct (decide (q = "$" ∨ q = "")) as [[-> | ->]|_].
  { by destruct pre. }
  { by destruct pre. }
  rewrite Hp, Hq. clear Hp Hq p q. revert v.
  induction pre as [|s pre IH]; intros v Hk; cbn [app] in *;
    cbn [Path.getBySegments] in Hk.
  - destruct v as [| | | | |elems props|fields]; try done.
    + destruct Hk as (z & z' & Hz & Hz' & Hne & Hidx).
      cbn [Path.setBySegments]. rewrite Hz.
      rewrite (getBySegments_cons_array elems props k' z') by done.
      pose proof (array_get_copy_set_ne elems props (Some z) z'
                    (Path.setBySegments (Js.array_get elems props (Some z)) r x)) as Hget.
      destruct (Js.array_copy_set elems (Some z) _) as [| | | | |elems' props'|] eqn:Hset;
        try (exfalso; apply Hget; [congruence|done]).
      cbn [Path.getBySegments]. rewrite Hz'. rewrite Hget; [done|congruence|done].
    + cbn [Path.setBySegments Path.getBySegments Path.distinct_members] in *.
      by rewrite get_property_define_ne.
  - destruct v as [| | | | |elems props|fields]; try done.
    + destruct (Js.parseInt s) as [z|] eqn:Hs; [|done].
      cbn [Path.setBySegments]. rewrite Hs.
      erewrite getBySegments_array_copy_set by done.
      rewrite (getBySegments_cons_array elems props s z) by done. by apply IH.
    + cbn [Path.setBySegments Path.getBySegments].
      rewrite get_property_define. by apply IH.
Qed.

Lemma setByPath_other_member_witness :
  Path.parsePath "$.address.city" = ["address"] ++ "city" :: []
  ∧ Path.parsePath "$.address.zip" = ["address"] ++ "zip" :: []
  ∧ Path.getByPath (Path.setByPath Examples.test_data "$.address.city" (VStr "LA"))
      "$.address.zip" = VStr "10001".
Proof.
  split_and!; [reflexivity|reflexivity|].
  rewrite (setByPath_other_member Examples.test_data "$.address.city" "$.address.zip"
             (VStr "LA") ["address"] [] [] "city" "zip");
    [reflexivity|reflexivity|reflexivity|]. vm_compute. discriminate.
Defined.



(** The clause of [deleteBySegments] for a segment that is not the
    last. *)
Lemma deleteBySegments_cons v s rest :
  rest ≠ [] →
  Path.deleteBySegments v (s :: rest)
  = match v with
    | VArr elems props =>
        Js.array_copy_set elems (Js.parseInt s)
          (Path.deleteBySegments (Js.array_get elems props (Js.parseInt s)) rest)
    | VObj fields =>
        VObj (Js.define_property fields s
                (Path.deleteBySegments (Js.get_property fields s) rest))
    | _ => v
    end.
Proof. by destruct rest. Qed.

(** After a deletion under [pre], reading along [pre] gives the
    container from which the member was removed. *)
Lemma getBySegments_deleteBySegments pre k : ∀ v,
  match Path.getBySegments v pre with VArr _ _ | VObj _ => True | _ => False end →
  Path.getBySegments (Path.deleteBySegments v (pre ++ [k])) pre
  = Path.deleteBySegments (Path.getBySegments v pre) [k].
Proof.
  induction pre as [|s pre IH]; intros v Hv; [done|].
  cbn [app]. rewrite deleteBySegments_cons by (by destruct pre).
  destruct v as [| | | | |elems props|fields]; try done.
  - cbn [Path.getBySegments] in Hv.
    destruct (Js.parseInt s) as [z|] eqn:Hs; [|done].
    erewrite getBySegments_array_copy_set by done.
    rewrite (getBySegments_cons_array elems props s z) by done. by apply IH.
  - cbn [Path.getBySegments] in *. rewrite get_property_define. by apply IH.
Qed.



(** X5.  [deleteByPath] of an element of an array without holes
    removes exactly that element: the array at the same place is one
    shorter, the elements before the index are as they were, the
    elements after it have moved down by one, and nothing is put in
    its place. *)
Theorem deleteByPath_element (v : value) (p : string) (pre : list string) (k : string)
    (elems : list value) (props : list (string * value)) (z : Z) :
  Path.parsePath p = pre ++ [k] →
  Path.getBySegments v pre = VArr elems props →
  VUndefined ∉ elems →
  Js.parseInt k = Some z →
  0 ≤ z < Z.of_nat (length elems) →
  ∃ elems',
    Path.getBySegments (Path.deleteByPath v p) pre = VArr elems' []
    ∧ S (length elems') = length elems
    ∧ (∀ j, (j < Z.to_nat z)%nat → elems' !! j = elems !! j)
    ∧ (∀ j, (Z.to_nat z ≤ j)%nat → elems' !! j = elems !! S j).
Proof.
  intros Hp Hpre _ Hk Hz. exists (delete (Z.to_nat z) elems).
  unfold Path.deleteByPath.
  destruct (decide (p = "$" ∨ p = "")) as [[-> | ->]|_]; [by destruct pre..|].
  rewrite Hp. split_and!.
  - rewrite getBySegments_deleteBySegments by (by rewrite Hpre). rewrite Hpre.
    cbn [Path.deleteBySegments]. rewrite Hk. unfold Path.array_without.
    destruct (Z.leb_spec 0 z); [done|lia].
  - rewrite length_delete; [lia|]. apply lookup_lt_is_Some. lia.
  - intros j Hj. by apply list_lookup_delete_lt.
  - intros j Hj. by apply list_lookup_delete_ge.
Qed.

Lemma deleteByPath_element_witness :
  Path.getBySegments (Path.deleteByPath Examples.test_data "$.items[0]") ["items"]
  = VArr [VObj [("id", VNum (Js.num 2))]] [].
Proof.
  destruct (deleteByPath_element Examples.test_data "$.items[0]" ["items"] "0"
              [VObj [("id", VNum (Js.num 1))]; VObj [("id", VNum (Js.num 2))]] [] 0)
    as (elems' & Hget & _); [reflexivity|reflexivity| |reflexivity|simpl; lia|].
  { intros Hin. repeat (apply elem_of_cons in Hin as [Hin|Hin]; [discriminate|]).
    by apply elem_of_nil in Hin. }
  reflexivity.
Defined.

(** ** History: what the client sees after each call *)

Section HistoryMore.
Context {T : Type}.
Implicit Types (st : History.state T) (l : list T).

Ltac history_arith :=
  repeat match goal with
    | |- context [?a <? ?b] => destruct (Z.ltb_spec a b)
    | H : context [?a <? ?b] |- _ => destruct (Z.ltb_spec a b)
    end;
  simpl in *;
  rewrite ?length_drop, ?length_app, ?length_take in *; simpl in *;
  try lia.

Lemma lookup_last_snoc l (v : T) n k :
  (k ≤ length l)%nat → n = (length l - k)%nat →
  drop k (l ++ [v]) !! n = Some v.
Proof.
  intros Hk ->. rewrite lookup_drop, lookup_app_r by lia.
  by replace (k + (length l - k) - length l)%nat with 0%nat by lia.
Qed.

(** X6.  In every reachable state of a history that may hold at least
    one entry, a [set] makes the new value the current one and leaves
    nothing to redo, whether or not it groups and whether or not it
    trims. *)
Theorem set_current maxHistory groupingInterval st now (v : T) :
  1 ≤ maxHistory →
  History.reachable maxHistory groupingInterval st →
  let st' := History.set maxHistory groupingInterval now v st in
  History.current st' = Some v
  ∧ History.canRedo st' = false
  ∧ History.position st' = Z.of_nat (History.historyLength st') - 1.
Proof.
  intros Hmax Hst. pose proof (reachable_bounded _ _ _ Hst) as [Hlo Hb].
  cbv zeta. rewrite set_unfold by done. cbv zeta.
  unfold History.current, History.canRedo, History.historyLength.
  set (kept := if _ && _ then _ else _).
  assert (0 ≤ kept ≤ Z.of_nat (length (History.history st))) as Hkept.
  { subst kept. destruct (_ && _) eqn:Hg; [|lia].
    apply andb_prop in Hg as [_ Hg%Z.ltb_lt]. lia. }
  assert (length (take (Z.to_nat kept) (History.history st)) = Z.to_nat kept) as Hlen
    by (rewrite length_take; lia).
  destruct (Z.ltb_spec maxHistory
              (Z.of_nat (length (take (Z.to_nat kept) (History.history st) ++ [v]))))
    as [Htrim|Htrim]; rewrite length_app, Hlen in Htrim; simpl in Htrim;
    cbn [History.history History.position];
    rewrite ?length_drop, !length_app, !Hlen; simpl.
  - split_and!; [|history_arith|lia].
    destruct (Z.ltb_spec (Z.max 0 (kept - (Z.of_nat (Z.to_nat kept + 1) - maxHistory))) 0);
      [lia|].
    apply lookup_last_snoc; lia.
  - split_and!; [|history_arith|lia].
    destruct (Z.ltb_spec (Z.max 0 kept) 0); [lia|].
    rewrite <-(drop_0 (_ ++ _)). apply lookup_last_snoc; lia.
Qed.

(** X7.  [undo] and [redo] undo each other: in every reachable state
    (whatever the options), a [redo] after an [undo] that could be made
    gives the state back, and so does an [undo] after a [redo]. *)
Theorem undo_redo_inverse maxHistory groupingInterval st :
  History.reachable maxHistory groupingInterval st →
  (History.canUndo st = true → History.redo (History.undo st) = st)
  ∧ (History.canRedo st = true → History.undo (History.redo st) = st).
Proof.
  intros Hst. pose proof (reachable_bounded _ _ _ Hst) as [Hlo Hb].
  unfold History.canUndo, History.canRedo, History.undo, History.redo.
  destruct st as [h pos t]. simpl in *. split; intros Hcan.
  - rewrite Hcan. simpl. destruct (Z.ltb_spec (pos - 1) (Z.of_nat (length h) - 1)).
    + f_equal. lia.
    + apply Z.ltb_lt in Hcan. lia.
  - rewrite Hcan. simpl. destruct (Z.ltb_spec 0 (pos + 1)); [|lia]. f_equal. lia.
Qed.

(** X8.  With room for at least one entry, every reachable state has
    between 1 and [maxHistory] entries and a current value. *)
Theorem history_within_maxHistory maxHistory groupingInterval st :
  1 ≤ maxHistory →
  History.reachable maxHistory groupingInterval st →
  1 ≤ Z.of_nat (History.historyLength st) ≤ maxHistory
  ∧ is_Some (History.current st).
Proof.
  intros Hmax Hst. pose proof (reachable_bounded _ _ _ Hst) as [Hlo Hb].
  unfold History.historyLength, History.current. split; [lia|].
  destruct (Z.ltb_spec (History.position st) 0); [lia|].
  apply lookup_lt_is_Some. lia.
Qed.

(** X9.  When the history is full and the position is at its end, a
    non-grouped [set] drops the oldest entry and appends the new
    value; the position stays at the end. *)
Theorem set_full_drops_oldest maxHistory groupingInterval st now (v : T) :
  1 ≤ maxHistory →
  Z.of_nat (length (History.history st)) = maxHistory →
  History.position st = maxHistory - 1 →
  History.non_grouped groupingInterval now st →
  let st' := History.set maxHistory groupingInterval now v st in
  History.history st' = drop 1 (History.history st) ++ [v]
  ∧ History.position st' = History.position st.
Proof.
  intros Hmax Hlen Hpos Hng. unfold History.non_grouped in Hng.
  cbv zeta. rewrite set_unfold by lia. cbv zeta.
  destruct (Z.ltb_spec (now - History.lastUpdateTime st) groupingInterval); [lia|].
  cbn [andb]. rewrite take_ge by lia.
  destruct (Z.ltb_spec maxHistory (Z.of_nat (length (History.history st ++ [v]))))
    as [Htrim|Htrim]; rewrite length_app in Htrim; simpl in Htrim; [|lia].
  cbn [History.history History.position]. rewrite length_app. simpl.
  replace (Z.to_nat (Z.of_nat (length (History.history st) + 1) - maxHistory))
    with 1%nat by lia.
  split; [|lia]. rewrite drop_app_le; [done|]. lia.
Qed.

(** Non-grouped edits at the end of a history with room: the values
    are appended in order. *)
Lemma set_all_non_grouped_history maxHistory groupingInterval (calls : list (Z * T)) :
  ∀ st,
  History.position st = Z.of_nat (length (History.history st)) - 1 →
  0 ≤ History.position st →
  Z.of_nat (length (History.history st)) + Z.of_nat (length calls) ≤ maxHistory →
  History.all_non_grouped maxHistory groupingInterval calls st →
  let st' := History.set_all maxHistory groupingInterval calls st in
  History.history st' = History.history st ++ calls.*2
  ∧ History.position st' = Z.of_nat (length (History.history st')) - 1.
Proof.
  induction calls as [|[now v] rest IH]; intros st Hlast Hlo Hroom Hng.
  - simpl. by rewrite app_nil_r.
  - simpl in Hng. destruct Hng as [Hnow Hrest]. unfold History.non_grouped in Hnow.
    cbn [History.set_all]. cbv zeta.
    assert (History.set maxHistory groupingInterval now v st
            = {| History.history := History.history st ++ [v];
                 History.position := History.position st + 1;
                 History.lastUpdateTime := now |}) as Hset.
    { rewrite set_unfold by done. cbv zeta.
      destruct (Z.ltb_spec (now - History.lastUpdateTime st) groupingInterval); [lia|].
      cbn [andb].
      rewrite take_ge by lia.
      destruct (Z.ltb_spec maxHistory (Z.of_nat (length (History.history st ++ [v]))))
        as [Htrim|Htrim]; rewrite length_app in Htrim; simpl in *; [lia|].
      f_equal. lia. }
    rewrite Hset in *.
    pose proof (λ a b c, IH _ a b c Hrest) as IH'.
    cbn [History.history History.position] in IH'. cbv zeta in IH'.
    rewrite length_app in IH'. simpl in Hroom, IH'.
    destruct IH' as [Hh Hp]; [lia..|].
    rewrite Hp, !Hh. simpl. by rewrite <-app_assoc.
Qed.

Lemma iter_undo k : ∀ st,
  (Z.of_nat k ≤ History.position st) →
  Nat.iter k History.undo st
  = {| History.history := History.history st;
       History.position := History.position st - Z.of_nat k;
       History.lastUpdateTime := History.lastUpdateTime st |}.
Proof.
  induction k as [|k IH]; intros st Hk.
  - simpl. destruct st. simpl. f_equal. lia.
  - rewrite Nat.iter_succ_r.
    unfold History.undo at 2. destruct (Z.ltb_spec 0 (History.position st)); [|lia].
    rewrite IH by (simpl; lia). simpl. f_equal. lia.
Qed.

(** X10.  Undo walks back through the edits: after [n] non-grouped
    [set] calls on a fresh history with room for them, [k ≤ n] undos
    make current the value of [k] edits ago, the initial value
    counting as edit 0. *)
Theorem undo_walks_back maxHistory groupingInterval (initialValue : T)
    (calls : list (Z * T)) (k : nat) :
  Z.of_nat (length calls) < maxHistory →
  History.all_non_grouped maxHistory groupingInterval calls (History.init initialValue) →
  (k ≤ length calls)%nat →
  History.current
    (Nat.iter k History.undo
       (History.set_all maxHistory groupingInterval calls (History.init initialValue)))
  = (initialValue :: calls.*2) !! (length calls - k)%nat.
Proof.
  intros Hmax Hng Hk.
  destruct (set_all_non_grouped_history maxHistory groupingInterval calls
              (History.init initialValue)) as [Hh Hp]; simpl; try lia; try done.
  simpl in Hh.
  assert (length (initialValue :: calls.*2) = S (length calls)) as Hlen
    by (simpl; by rewrite length_fmap).
  rewrite Hh, Hlen in Hp.
  rewrite iter_undo by lia. unfold History.current. simpl.
  rewrite Hh, Hp.
  destruct (Z.ltb_spec (Z.of_nat (S (length calls)) - 1 - Z.of_nat k) 0); [lia|].
  f_equal. lia.
Qed.

End HistoryMore.

Lemma set_current_witness :
  History.current
    (History.set 2 300 1000 "c" (History.set 2 300 500 "b" (History.init "a")))
  = Some "c".
Proof.
  refine (proj1 (set_current 2 300 (History.set 2 300 500 "b" (History.init "a"))
                   1000 "c" _ _)); [lia|].
  apply (History.reachable_call 2 300 (History.CallSet 500 "b")), History.reachable_init.
Defined.

Lemma undo_redo_inverse_witness :
  let st := History.set 100 300 500 "b" (History.init "a") in
  History.canUndo st = true ∧ History.redo (History.undo st) = st.
Proof.
  split; [reflexivity|].
  refine (proj1 (undo_redo_inverse 100 300
                   (History.set 100 300 500 "b" (History.init "a")) _) _);
    [|reflexivity].
  apply (History.reachable_call 100 300 (History.CallSet 500 "b")), History.reachable_init.
Defined.

Lemma history_within_maxHistory_witness :
  let st := History.set 1 300 500 "b" (History.init "a") in
  1 ≤ Z.of_nat (History.historyLength st) ≤ 1 ∧ is_Some (History.current st).
Proof.
  refine (history_within_maxHistory 1 300
            (History.set 1 300 500 "b" (History.init "a")) _ _); [lia|].
  apply (History.reachable_call 1 300 (History.CallSet 500 "b")), History.reachable_init.
Defined.

Lemma set_full_drops_oldest_witness :
  History.history
    (History.set 2 300 1000 "c"
       {| History.history := ["a"; "b"]; History.position := 1;
          History.lastUpdateTime := 500 |})
  = ["b"; "c"].
Proof.
  refine (proj1 (set_full_drops_oldest 2 300
                   {| History.history := ["a"; "b"]; History.position := 1;
                      History.lastUpdateTime := 500 |} 1000 "c" _ _ _ _));
    [lia|reflexivity|reflexivity|unfold History.non_grouped; simpl; lia].
Defined.

Lemma undo_walks_back_witness :
  History.current
    (Nat.iter 2 History.undo
       (History.set_all 100 300 [(500, "b"); (1000, "c"); (1500, "d")] (History.init "a")))
  = Some "b".
Proof.
  refine (undo_walks_back 100 300 "a" [(500, "b"); (1000, "c"); (1500, "d")] 2 _ _ _);
    [simpl; lia| |simpl; lia].
  unfold History.all_non_grouped, History.non_grouped. simpl. lia.
Defined.

(** ** Search: moving between matches *)

(** X11.  With at least one match and a current index that is not
    negative, [goToNext] and [goToPrevious] give an index of a match;
    on the index of a match each undoes the other, and [goToNext]
    wraps from the last match to the first. *)
Theorem goTo_cycle (count : nat) (i : Z) :
  (0 < count)%nat → 0 ≤ i →
  0 ≤ Search.goToNext count i < Z.of_nat count
  ∧ 0 ≤ Search.goToPrevious count i < Z.of_nat count
  ∧ (i < Z.of_nat count →
     Search.goToPrevious count (Search.goToNext count i) = i
     ∧ Search.goToNext count (Search.goToPrevious count i) = i
     ∧ Search.goToNext count (Z.of_nat count - 1) = 0).
Proof.
  intros Hcount Hi. unfold Search.goToNext, Search.goToPrevious.
  rewrite !decide_False by lia.
  rewrite !Z.rem_mod_nonneg by lia.
  split_and!; try (apply Z.mod_pos_bound; lia).
  intros Hlt. split_and!.
  - rewrite Z.rem_mod_nonneg
      by (pose proof (Z.mod_pos_bound (i + 1) (Z.of_nat count)); lia).
    destruct (decide (i + 1 = Z.of_nat count)) as [Heq|Hne].
    + rewrite Heq, Z_mod_same_full.
      replace (0 - 1 + Z.of_nat count) with i by lia. apply Z.mod_small. lia.
    + rewrite (Z.mod_small (i + 1)) by lia.
      replace (i + 1 - 1 + Z.of_nat count) with (i + 1 * Z.of_nat count) by lia.
      rewrite Z_mod_plus_full. apply Z.mod_small. lia.
  - rewrite Z.rem_mod_nonneg
      by (pose proof (Z.mod_pos_bound (i - 1 + Z.of_nat count) (Z.of_nat count)); lia).
    destruct (decide (i = 0)) as [->|Hne].
    + rewrite (Z.mod_small (0 - 1 + Z.of_nat count)) by lia.
      replace (0 - 1 + Z.of_nat count + 1) with (Z.of_nat count) by lia.
      apply Z_mod_same_full.
    + replace (i - 1 + Z.of_nat count) with (i - 1 + 1 * Z.of_nat count) by lia.
      rewrite Z_mod_plus_full, (Z.mod_small (i - 1)) by lia.
      replace (i - 1 + 1) with i by lia. apply Z.mod_small. lia.
  - rewrite Z.rem_mod_nonneg by lia.
    replace (Z.of_nat count - 1 + 1) with (Z.of_nat count) by lia.
    apply Z_mod_same_full.
Qed.

Lemma goTo_cycle_witness :
  Search.goToNext 3 2 = 0 ∧ Search.goToPrevious 3 0 = 2.
Proof.
  destruct (goTo_cycle 3 2) as (_ & _ & Hinv); [lia..|].
  destruct Hinv as (_ & _ & Hwrap); [lia|].
  split; [exact Hwrap|reflexivity].
Defined.

(** ** Parser: offsets and line/column positions *)

Lemma lineColLoop_result rest : ∀ i offset line ln L LN,
  Parser.lineColLoop rest i offset line ln = (L, LN) →
  (L = line ∧ LN = ln) ∨ (line < L ∧ i ≤ LN < offset).
Proof.
  induction rest as [|c r IH]; intros i offset line ln L LN Hloop; simpl in Hloop.
  - left. by inversion Hloop.
  - destruct (Z.ltb_spec i offset); [|left; by inversion Hloop].
    destruct (Parser.is_newline c); apply IH in Hloop; lia.
Qed.

Lemma offsetLoop_at_line rest i line column len :
  Parser.offsetLoop rest i line line column len
  = match rest with "" => len | _ => i + column - 1 end.
Proof. destruct rest; simpl; [done|]. by rewrite decide_True. Qed.

Lemma offsetLoop_lineColLoop rest : ∀ i offset cur ln L LN column len,
  Parser.lineColLoop rest i offset cur ln = (L, LN) →
  cur < L →
  Parser.offsetLoop rest i cur L column len
  = if LN + 1 <? i + Z.of_nat (String.length rest) then LN + 1 + column - 1 else len.
Proof.
  induction rest as [|c r IH]; intros i offset cur ln L LN column len Hloop Hcur;
    simpl in Hloop.
  - inversion Hloop. lia.
  - destruct (Z.ltb_spec i offset); [|inversion Hloop; lia].
    cbn [Parser.offsetLoop String.length]. rewrite decide_False by lia.
    destruct (Parser.is_newline c).
    + destruct (decide (cur + 1 = L)) as [<-|Hne].
      * apply lineColLoop_result in Hloop as [[_ ->]|[? _]]; [|lia].
        rewrite offsetLoop_at_line. destruct r; simpl.
        -- match goal with |- context [?a <? ?b] => destruct (Z.ltb_spec a b) end;
             [lia|done].
        -- match goal with |- context [?a <? ?b] => destruct (Z.ltb_spec a b) end;
             [done|lia].
      * pose proof (lineColLoop_result _ _ _ _ _ _ _ Hloop) as Hres.
        rewrite (IH _ _ _ _ _ _ column len Hloop) by lia.
        replace (i + 1 + Z.of_nat (String.length r))
          with (i + Z.of_nat (S (String.length r))) by lia. done.
    + rewrite (IH _ _ _ _ _ _ column len Hloop) by lia.
      replace (i + 1 + Z.of_nat (String.length r))
        with (i + Z.of_nat (S (String.length r))) by lia. done.
Qed.

(** X12.  For an offset within the text (its end included),
    [getLineColFromOffset] gives a line and a column that are both at
    least 1, and [getOffsetFromLineCol] maps them back to the
    offset. *)
Theorem getOffsetFromLineCol_getLineColFromOffset (text : string) (offset : Z) :
  0 ≤ offset ≤ Z.of_nat (String.length text) →
  let '(line, column) := Parser.getLineColFromOffset text offset in
  1 ≤ line ∧ 1 ≤ column ∧ Parser.getOffsetFromLineCol text line column = offset.
Proof.
  intros Hoffset. unfold Parser.getLineColFromOffset, Parser.getOffsetFromLineCol.
  destruct (Parser.lineColLoop text 0 offset 1 (-1)) as [L LN] eqn:Hloop.
  pose proof (lineColLoop_result _ _ _ _ _ _ _ Hloop) as [[-> ->]|[HL HLN]].
  - split_and!; [lia..|]. rewrite offsetLoop_at_line.
    destruct text; simpl in *; lia.
  - split_and!; [lia..|].
    rewrite (offsetLoop_lineColLoop _ _ _ _ _ _ _ _ _ Hloop) by done.
    destruct (Z.ltb_spec (LN + 1) (0 + Z.of_nat (String.length text))); lia.
Qed.

Lemma getOffsetFromLineCol_getLineColFromOffset_witness :
  Parser.getLineColFromOffset (String "a" (String Parser.newline "bc")) 3 = (2, 2)
  ∧ Parser.getOffsetFromLineCol (String "a" (String Parser.newline "bc")) 2 2 = 3.
Proof.
  split; [reflexivity|].
  refine (proj2 (proj2 (getOffsetFromLineCol_getLineColFromOffset
                          (String "a" (String Parser.newline "bc")) 3 _))).
  simpl. lia.
Defined.

Section ParserMore.
Context `{Host}.

(** X13.  [parseJson] and [isValidJson] do not throw, whatever the
    host's [JSON.parse] does; [parseJson] gives a value or an error,
    never both; and on a text that is not blank [isValidJson] is true
    exactly when [parseJson] reports no error. *)
Theorem parseJson_isValidJson (text : string) :
  ∃ r valid,
    Parser.parseJson text = Ok r
    ∧ Parser.isValidJson text = Ok valid
    ∧ (Parser.error r ≠ None → Parser.value_ r = VUndefined)
    ∧ (Js.trim text ≠ "" → valid = bool_decide (Parser.error r = None)).
Proof.
  unfold Parser.parseJson, Parser.isValidJson.
  destruct (decide (Js.trim text = "")) as [Hblank|Hblank].
  - destruct (JSON_parse text); simpl; eauto 10.
  - destruct (JSON_parse text) as [v|msg]; simpl.
    + exists {| Parser.value_ := v; Parser.error := None |}, true. by split_and!.
    + eexists _, false. split_and!; try done.
Qed.

End ParserMore.

(** ** Parser: the messages of the engines *)

Lemma first_match_append {A} (m : string → option A) w s :
  (∀ a b, w = a +:+ b → b ≠ "" → m (b +:+ s) = None) →
  Parser.first_match m (w +:+ s) = Parser.first_match m s.
Proof.
  induction w as [|c w IH]; intros Hnone; [done|].
  rewrite append_cons. cbn [Parser.first_match].
  rewrite <-append_cons, (Hnone "" (String c w)) by done.
  apply IH. intros a b -> Hb.
  by apply (Hnone (String c a) b).
Qed.

Lemma cut_at_append (m : string → bool) w s :
  (∀ a b, w = a +:+ b → b ≠ "" → m (b +:+ s) = false) →
  Parser.cut_at m (w +:+ s) = w +:+ Parser.cut_at m s.
Proof.
  induction w as [|c w IH]; intros Hnone; [done|].
  rewrite append_cons. cbn [Parser.cut_at].
  rewrite <-append_cons, (Hnone "" (String c w)) by done.
  rewrite ?append_cons. f_equal. apply IH. intros a b -> Hb.
  by apply (Hnone (String c a) b).
Qed.

Lemma first_match_None {A} (m : string → option A) a : ∀ s b,
  Parser.first_match m s = None → s = a +:+ b → m b = None.
Proof.
  induction a as [|c a IH]; intros s b Hs ->.
  - rewrite append_nil_l in Hs. destruct b; simpl in Hs; by destruct (m _).
  - rewrite append_cons in Hs. cbn [Parser.first_match] in Hs.
    destruct (m _); [done|]. by eapply IH.
Qed.

Lemma first_match_digits {A} (m : string → option A) ds :
  (∀ c r, Js.is_digit c = true → m (String c r) = None) → m "" = None →
  Js.all_digits ds = true → Parser.first_match m ds = None.
Proof.
  intros Hm Hnil. unfold Js.all_digits.
  assert (Js.all_chars Js.is_digit ds = true → Parser.first_match m ds = None) as Hall.
  { induction ds as [|c r IH]; simpl; [by rewrite Hnil|].
    intros [Hc Hr]%andb_prop. rewrite Hm by done. auto. }
  destruct ds; [done|]. intros [_ ?]%andb_prop. auto.
Qed.

Lemma first_match_suffix {A} (m : string → option A) a b :
  Parser.first_match m (a +:+ b) = None → Parser.first_match m b = None.
Proof.
  induction a as [|c a IH]; [done|]. rewrite append_cons. cbn [Parser.first_match].
  by destruct (m _).
Qed.

Lemma first_match_here {A} (m : string → option A) s :
  Parser.first_match m s = None → m s = None.
Proof. destruct s; simpl; by destruct (m _). Qed.

Ltac no_at b Hb :=
  let c1 := fresh "c" in let c2 := fresh "c" in
  let c3 := fresh "c" in let c4 := fresh "c" in let r := fresh "r" in
  destruct b as [|c1 [|c2 [|c3 [|c4 r]]]]; try done;
  rewrite ?append_cons, ?append_nil_l;
  repeat match type of Hb with
    | Parser.first_match _ (String _ _) = None =>
        let H := fresh "Hhere" in
        pose proof (first_match_here _ _ Hb) as H;
        apply (first_match_suffix _ (String _ "") _) in Hb
    end;
  simpl in *;
  repeat (case_decide; simplify_eq/=; try done).

Lemma at_position_no_at b s :
  Parser.first_match (Parser.strip_prefix "at ") b = None → b ≠ "" →
  Parser.at_position (b +:+ (" at position " +:+ s)) = None.
Proof. intros Hb Hne. unfold Parser.at_position. no_at b Hb. Qed.

Lemma at_line_column_no_at b s :
  Parser.first_match (Parser.strip_prefix "at ") b = None → b ≠ "" →
  Parser.at_line_column (b +:+ (" at position " +:+ s)) = None.
Proof. intros Hb Hne. unfold Parser.at_line_column. no_at b Hb. Qed.

Lemma position_clause_no_at b s :
  Parser.first_match (Parser.strip_prefix "at ") b = None → b ≠ "" →
  Parser.position_clause (b +:+ (" at position " +:+ s)) = false.
Proof. intros Hb Hne. unfold Parser.position_clause. no_at b Hb. Qed.

Lemma line_column_clause_no_at b :
  Parser.first_match (Parser.strip_prefix "at ") b = None →
  Parser.line_column_clause (b +:+ "") = false.
Proof.
  intros Hb. unfold Parser.line_column_clause. rewrite append_nil_r.
  destruct b as [|c1 b]; [done|]. no_at b Hb.
Qed.

Lemma first_match_impl {A B} (m1 : string → option A) (m2 : string → option B) s :
  (∀ s, m1 s = None → m2 s = None) →
  Parser.first_match m1 s = None → Parser.first_match m2 s = None.
Proof.
  intros Himpl. induction s as [|c r IH]; simpl.
  - destruct (m1 "") eqn:Hm; [done|]. by rewrite (Himpl _ Hm).
  - destruct (m1 (String c r)) eqn:Hm; [done|]. rewrite (Himpl _ Hm). auto.
Qed.

Lemma cut_at_none (m : string → bool) s :
  (∀ a b, s = a +:+ b → m b = false) → Parser.cut_at m s = s.
Proof.
  induction s as [|c r IH]; intros Hm; simpl.
  - by destruct (m "").
  - rewrite (Hm "" (String c r)) by done. f_equal. apply IH.
    intros a b ->. by apply (Hm (String c a) b).
Qed.

Lemma is_digit_value c : Js.is_digit c = true → 0 ≤ Js.digit_value c.
Proof.
  unfold Js.is_digit, Js.digit_value. intros [Hlo%Nat.leb_le _]%andb_prop. lia.
Qed.

Lemma digits_value_nonneg ds : ∀ acc,
  0 ≤ acc → Js.all_chars Js.is_digit ds = true → 0 ≤ Js.digits_value acc ds.
Proof.
  induction ds as [|c r IH]; intros acc Hacc; simpl; [done|].
  intros [Hc%is_digit_value Hr]%andb_prop. apply IH; [lia|done].
Qed.

Lemma span_digits_tail ds tail :
  Js.all_chars Js.is_digit ds = true → Parser.ends_digits tail →
  Js.span Js.is_digit (ds +:+ tail) = (ds, tail).
Proof.
  intros Hds Htail. induction ds as [|d ds IH].
  - rewrite append_nil_l. destruct tail as [|c r]; [done|]. simpl in *. by rewrite Htail.
  - rewrite append_cons. simpl in *. apply andb_prop in Hds as [Hd Hds].
    by rewrite Hd, (IH Hds).
Qed.

Lemma leading_digits_tail ds tail :
  Js.all_digits ds = true → Parser.ends_digits tail →
  Parser.leading_digits (ds +:+ tail) = Some (ds, tail).
Proof.
  unfold Js.all_digits. intros [Hne%negb_true_iff%bool_decide_eq_false Hds]%andb_prop Htail.
  unfold Parser.leading_digits. rewrite span_digits_tail by done.
  by rewrite decide_False.
Qed.

Lemma digits_no_match {A} (m : string → option A) ds s :
  (∀ c r, Js.is_digit c = true → m (String c r) = None) →
  Js.all_chars Js.is_digit ds = true →
  Parser.first_match m (ds +:+ s) = Parser.first_match m s.
Proof.
  intros Hm Hds. induction ds as [|c r IH]; [done|].
  simpl in Hds. apply andb_prop in Hds as [Hc Hr].
  rewrite append_cons. cbn [Parser.first_match]. rewrite Hm by done. auto.
Qed.

Lemma at_line_column_digit c r :
  Js.is_digit c = true → Parser.at_line_column (String c r) = None.
Proof.
  intros Hc. unfold Parser.at_line_column. simpl. case_decide; [|done]. by subst.
Qed.

Lemma at_line_column_at s :
  Parser.strip_prefix "at " s = None → Parser.at_line_column s = None.
Proof.
  intros Hs. unfold Parser.at_line_column.
  destruct s as [|c1 [|c2 [|c3 r]]]; simpl in *; try done;
    repeat (case_decide; simplify_eq/=; try done).
Qed.

Lemma line_column_clause_at s :
  Parser.first_match (Parser.strip_prefix "at ") s = None →
  Parser.line_column_clause s = false.
Proof. intros Hs. rewrite <-(append_nil_r s). by apply line_column_clause_no_at. Qed.

Lemma strip_prefix_append p s : Parser.strip_prefix p (p +:+ s) = Some s.
Proof.
  induction p as [|c p IH]; [by destruct s|].
  rewrite append_cons. simpl. by rewrite decide_True.
Qed.

Lemma first_match_found {A} (m : string → option A) s a :
  m s = Some a → Parser.first_match m s = Some a.
Proof. intros Hm. destruct s; simpl; by rewrite Hm. Qed.

Lemma cut_at_found (m : string → bool) s : m s = true → Parser.cut_at m s = "".
Proof. intros Hm. destruct s; simpl; by rewrite Hm. Qed.

(** X14.  The message of V8, [<what> at position <digits><tail>]: the
    error that [parseJson] reports has the message [<what>], the
    offset that the digits denote, and the line and column of that
    offset.  Here neither [<what>] nor [<tail>] contains the text
    "at " (so the position is the only one the message gives), the
    tail does not start with a digit and is on one line, and the
    message does not start with the prefix of SpiderMonkey. *)
Theorem extractParseError_at_position (what ds tail text : string) :
  let msg := what +:+ (" at position " +:+ (ds +:+ tail)) in
  Parser.first_match (Parser.strip_prefix "at ") what = None →
  Parser.first_match (Parser.strip_prefix "at ") tail = None →
  Js.all_digits ds = true →
  Parser.ends_digits tail →
  Js.all_chars (λ c, negb (Parser.is_line_terminator c)) tail = true →
  Parser.strip_prefix "JSON.parse: " msg = None →
  Parser.extractParseError msg text
  = let offset := Js.digits_value 0 ds in
    {| Parser.message := if decide (what = "") then "Invalid JSON" else what;
       Parser.line := (Parser.getLineColFromOffset text offset).1;
       Parser.column := (Parser.getLineColFromOffset text offset).2;
       Parser.offset := offset |}.
Proof.
  intros msg Hwhat Htail Hds Hend Hline Hprefix.
  pose proof Hds as [_ Hall]%andb_prop.
  assert (∀ a b, what = a +:+ b →
            Parser.first_match (Parser.strip_prefix "at ") b = None) as Hsuffix.
  { intros a b ->. by eapply first_match_suffix. }
  assert (Parser.first_match Parser.at_line_column msg = None) as HlineCol.
  { unfold msg. rewrite first_match_append
      by (intros a b Hab Hb; apply at_line_column_no_at; eauto).
    rewrite !append_cons, append_nil_l. cbn.
    rewrite digits_no_match by (done || apply at_line_column_digit).
    eapply first_match_impl; [|done]. apply at_line_column_at. }
  assert (Parser.first_match Parser.at_position msg = Some ds) as Hpos.
  { unfold msg. rewrite first_match_append
      by (intros a b Hab Hb; apply at_position_no_at; eauto).
    change (" at position " +:+ (ds +:+ tail))
      with (String " " ("at position " +:+ (ds +:+ tail))).
    cbn [Parser.first_match].
    replace (Parser.at_position (String " " ("at position " +:+ (ds +:+ tail))))
      with (@None string) by done.
    assert (Parser.at_position ("at position " +:+ (ds +:+ tail)) = Some ds) as Hhere.
    { unfold Parser.at_position. rewrite strip_prefix_append. simpl.
      by rewrite leading_digits_tail. }
    by apply first_match_found. }
  assert (Parser.cut_at Parser.position_clause msg = what) as Hcut.
  { unfold msg. rewrite cut_at_append
      by (intros a b Hab Hb; apply position_clause_no_at; eauto).
    rewrite <-(append_nil_r what) at 2. f_equal.
    assert (Parser.position_clause (" at position " +:+ (ds +:+ tail)) = true) as Hhere.
    { unfold Parser.position_clause. rewrite strip_prefix_append.
      rewrite leading_digits_tail by done.
      rewrite all_chars_append, Hline, andb_true_r.
      rewrite bool_decide_eq_true_2 by eauto. cbn [andb].
      eapply all_chars_impl; [|exact Hall].
      intros c Hc. unfold Parser.is_line_terminator.
      rewrite !bool_decide_eq_false_2; [done|by intros ->..]. }
    by apply cut_at_found. }
  unfold Parser.extractParseError. rewrite HlineCol, Hpos, Hprefix. cbn [default].
  rewrite Hcut, cut_at_none
    by (intros a b Hab; apply line_column_clause_at; eauto).
  unfold Parser.parse_digits. cbv zeta.
  destruct (Parser.getLineColFromOffset text (Js.digits_value 0 ds)) as [line column].
  pose proof (digits_value_nonneg ds 0 ltac:(lia) Hall). simpl. f_equal. lia.
Qed.

Lemma extractParseError_at_position_witness :
  Parser.extractParseError "Unexpected token } in JSON at position 7 (line 2 column 3)"
    (String "{" (String Parser.newline "  x: }"))
  = {| Parser.message := "Unexpected token } in JSON"; Parser.line := 2;
       Parser.column := 6; Parser.offset := 7 |}.
Proof.
  apply (extractParseError_at_position "Unexpected token } in JSON" "7"
           " (line 2 column 3)" (String "{" (String Parser.newline "  x: }")));
    reflexivity || exact I.
Defined.

(** ** Values: induction through the lists of members *)

Lemma value_ind_members (P : value → Prop) :
  P VUndefined → P VNull → (∀ b, P (VBool b)) → (∀ n, P (VNum n)) → (∀ s, P (VStr s)) →
  (∀ elems props, Forall P elems → Forall (λ kv, P kv.2) props → P (VArr elems props)) →
  (∀ fields, Forall (λ kv, P kv.2) fields → P (VObj fields)) →
  ∀ v, P v.
Proof.
  intros Hundefined Hnull Hbool Hnum Hstr Harr Hobj. fix IH 1.
  intros [| | b | n | s | elems props | fields].
  - exact Hundefined.
  - exact Hnull.
  - apply Hbool.
  - apply Hnum.
  - apply Hstr.
  - apply Harr.
    + induction elems as [|e l IHl]; constructor; [apply IH|apply IHl].
    + induction props as [|[k e] l IHl]; constructor; [apply IH|apply IHl].
  - apply Hobj. induction fields as [|[k e] l IHl]; constructor; [apply IH|apply IHl].
Qed.

(** ** Formatter: document statistics *)

Lemma walk_array elems props depth stats :
  Formatter.walk (VArr elems props) depth stats
  = foldl (λ st item, Formatter.walk item (depth + 1) st)
      {| Formatter.properties := Formatter.properties stats;
         Formatter.arrays := S (Formatter.arrays stats);
         Formatter.totalNodes := S (Formatter.totalNodes stats);
         Formatter.maxDepth := Nat.max (Formatter.maxDepth stats) depth;
         Formatter.byteSize := Formatter.byteSize stats |} elems.
Proof.
  cbn [Formatter.walk]. cbn [Formatter.properties Formatter.arrays Formatter.totalNodes
    Formatter.maxDepth Formatter.byteSize].
  generalize {| Formatter.properties := Formatter.properties stats;
         Formatter.arrays := S (Formatter.arrays stats);
         Formatter.totalNodes := S (Formatter.totalNodes stats);
         Formatter.maxDepth := Nat.max (Formatter.maxDepth stats) depth;
         Formatter.byteSize := Formatter.byteSize stats |}.
  induction elems as [|e l IHl]; intros st; [done|]. cbn [foldl]. apply IHl.
Qed.

Lemma walk_object fields depth stats :
  Formatter.walk (VObj fields) depth stats
  = foldl (λ st kv, Formatter.walk kv.2 (depth + 1) st)
      {| Formatter.properties := (Formatter.properties stats + length fields)%nat;
         Formatter.arrays := Formatter.arrays stats;
         Formatter.totalNodes := S (Formatter.totalNodes stats);
         Formatter.maxDepth := Nat.max (Formatter.maxDepth stats) depth;
         Formatter.byteSize := Formatter.byteSize stats |} fields.
Proof.
  cbn [Formatter.walk]. cbn [Formatter.properties Formatter.arrays Formatter.totalNodes
    Formatter.maxDepth Formatter.byteSize].
  generalize {| Formatter.properties := (Formatter.properties stats + length fields)%nat;
         Formatter.arrays := Formatter.arrays stats;
         Formatter.totalNodes := S (Formatter.totalNodes stats);
         Formatter.maxDepth := Nat.max (Formatter.maxDepth stats) depth;
         Formatter.byteSize := Formatter.byteSize stats |}.
  induction fields as [|[k e] l IHl]; intros st; [done|]. cbn [foldl]. apply IHl.
Qed.

Lemma walked_all {A} (f : A → value) (l : list A) (depth : nat) :
  Forall (λ a, ∀ depth stats,
            Formatter.walked depth 1 stats (Formatter.walk (f a) depth stats)) l →
  ∀ stats,
    Formatter.walked depth (length l) stats
      (foldl (λ st a, Formatter.walk (f a) depth st) stats l).
Proof.
  induction 1 as [|a l Ha _ IH]; intros stats; cbn [foldl length].
  - unfold Formatter.walked. lia.
  - specialize (Ha depth stats). specialize (IH (Formatter.walk (f a) depth stats)).
    unfold Formatter.walked in *. lia.
Qed.

(** What one call of [walk] adds to the statistics. *)
Lemma walk_walked (v : value) : ∀ depth stats,
  Formatter.walked depth 1 stats (Formatter.walk v depth stats).
Proof.
  induction v as [| | b | n | s | elems props IH _ | fields IH] using value_ind_members;
    intros depth stats; try (unfold Formatter.walked; simpl; lia).
  - rewrite walk_array.
    pose proof (walked_all (λ item, item) elems (depth + 1) IH) as Hall.
    match goal with |- context [foldl _ ?st _] => specialize (Hall st) end.
    unfold Formatter.walked in *. simpl in Hall. lia.
  - rewrite walk_object.
    pose proof (walked_all snd fields (depth + 1) IH) as Hall.
    match goal with |- context [foldl _ ?st _] => specialize (Hall st) end.
    unfold Formatter.walked in *. simpl in Hall. lia.
Qed.

(** X15.  The statistics of a value other than [undefined]: at least
    one node is counted; the properties are fewer than the nodes, the
    arrays at most as many, and the depth is below the number of
    nodes; the byte size is that of the text alone. *)
Theorem computeStats_bounds (v : value) (text : option string) :
  v ≠ VUndefined →
  let stats := Formatter.computeStats v text in
  (1 ≤ Formatter.totalNodes stats)%nat
  ∧ (Formatter.properties stats < Formatter.totalNodes stats)%nat
  ∧ (Formatter.arrays stats ≤ Formatter.totalNodes stats)%nat
  ∧ (Formatter.maxDepth stats < Formatter.totalNodes stats)%nat
  ∧ Formatter.byteSize stats = from_option Formatter.utf8_length 0%nat text.
Proof.
  intros Hv. cbv zeta. unfold Formatter.computeStats.
  match goal with |- context [Formatter.walk v 0 ?st] =>
    pose proof (walk_walked v 0 st) as Hwalk end.
  unfold Formatter.walked in Hwalk. simpl in Hwalk.
  assert (match text with None | Some "" => 0%nat | Some t => Formatter.utf8_length t end
          = from_option Formatter.utf8_length 0%nat text) as Hbytes
    by (by destruct text as [[|]|]).
  destruct v; try done; rewrite <-Hbytes; lia.
Qed.

Lemma computeStats_bounds_witness :
  Formatter.totalNodes (Formatter.computeStats Examples.test_data None) = 10%nat
  ∧ (Formatter.maxDepth (Formatter.computeStats Examples.test_data None) < 10)%nat.
Proof.
  split; [reflexivity|].
  refine (proj1 (proj2 (proj2 (proj2
            (computeStats_bounds Examples.test_data None _))))). discriminate.
Defined.

(** ** Tree builder: the paths of the nodes *)

Lemma plain_array elems props :
  Tree.plain (VArr elems props) ↔
  Z.of_nat (length elems) < 4294967295 ∧ Forall Tree.plain elems.
Proof.
  cbn [Tree.plain]. apply and_iff_compat_l.
  induction elems as [|item rest IH]; [by split; [constructor|]|].
  rewrite Forall_cons, <-IH. done.
Qed.

Lemma plain_object fields :
  Tree.plain (VObj fields) ↔
  NoDup fields.*1
  ∧ Forall (λ kv, Path.simple_name kv.1 = true ∧ Tree.plain kv.2) fields.
Proof.
  cbn [Tree.plain]. apply and_iff_compat_l.
  induction fields as [|[k member] rest IH]; [by split; [constructor|]|].
  rewrite Forall_cons, <-IH. simpl. tauto.
Qed.

Lemma buildTree_object fields path key depth expandedPaths :
  Tree.buildTree (VObj fields) path key depth expandedPaths
  = Some {| Tree.id := path; Tree.key := key; Tree.value_ := VObj fields;
            Tree.type := Tree.TObject; Tree.path := path; Tree.depth := depth;
            Tree.expanded := bool_decide (path ∈ expandedPaths);
            Tree.children :=
              if bool_decide (path ∈ expandedPaths)
              then Tree.object_children fields path depth expandedPaths else [];
            Tree.childCount := length fields |}.
Proof.
  cbn [Tree.buildTree]. do 2 f_equal.
  destruct (bool_decide (path ∈ expandedPaths)); [|done].
  unfold Tree.object_children.
  induction fields as [|[k member] rest IH]; [done|].
  cbn [omap list_omap]. rewrite <- IH.
  by destruct (Tree.buildTree member _ _ _ _).
Qed.

Lemma buildTree_array elems props path key depth expandedPaths :
  Tree.buildTree (VArr elems props) path key depth expandedPaths
  = Some {| Tree.id := path; Tree.key := key; Tree.value_ := VArr elems props;
            Tree.type := Tree.TArray; Tree.path := path; Tree.depth := depth;
            Tree.expanded := bool_decide (path ∈ expandedPaths);
            Tree.children :=
              if bool_decide (path ∈ expandedPaths)
              then Tree.array_children elems path depth expandedPaths else [];
            Tree.childCount := length elems |}.
Proof.
  cbn [Tree.buildTree]. do 2 f_equal.
  destruct (bool_decide (path ∈ expandedPaths)); [|done].
  unfold Tree.array_children.
  enough (∀ start,
    (fix each (l : list value) (i : nat) : list Tree.TreeNodeData :=
       match l with
       | [] => []
       | item :: rest =>
           match Tree.buildTree item (path +:+ "[" +:+ pretty i +:+ "]") (Tree.KeyIndex i)
                   (depth + 1) expandedPaths with
           | Some child => child :: each rest (S i)
           | None => each rest (S i)
           end
       end) elems start
    = omap (λ child, child)
        (imap (λ i item,
                 Tree.buildTree item (path +:+ "[" +:+ pretty (start + i)%nat +:+ "]")
                   (Tree.KeyIndex (start + i)) (depth + 1) expandedPaths) elems))
    as Hgen by (rewrite (Hgen 0%nat); reflexivity).
  induction elems as [|item rest IH]; intros start; [done|].
  rewrite imap_cons. cbn [omap list_omap]. rewrite Nat.add_0_r.
  rewrite IH.
  rewrite (imap_ext
             (λ i item0,
                Tree.buildTree item0 (path +:+ "[" +:+ pretty (S start + i)%nat +:+ "]")
                  (Tree.KeyIndex (S start + i)) (depth + 1) expandedPaths)
             ((λ i item0,
                 Tree.buildTree item0 (path +:+ "[" +:+ pretty (start + i)%nat +:+ "]")
                   (Tree.KeyIndex (start + i)) (depth + 1) expandedPaths) ∘ S) rest);
    [done|].
  intros i x _. unfold compose.
  by replace (start + S i)%nat with (S start + i)%nat by lia.
Qed.

Lemma elem_of_subnodes node root :
  node ∈ Tree.subnodes root ↔
  node = root ∨ ∃ child, child ∈ Tree.children root ∧ node ∈ Tree.subnodes child.
Proof.
  destruct root as [i k v t p d e children n]. cbn [Tree.subnodes Tree.children].
  rewrite elem_of_cons. apply or_iff_compat_l.
  induction children as [|child rest IH].
  - split; [by intros ?%elem_of_nil|]. by intros (child & ?%elem_of_nil & _).
  - rewrite elem_of_app, IH. split.
    + intros [?|(child' & ? & ?)].
      * exists child. split; [left|done].
      * exists child'. split; [by right|done].
    + intros (child' & [->|?]%elem_of_cons & ?); [by left|right; eauto].
Qed.

Lemma render_all_app ps ps' :
  Path.render_all (ps ++ ps') = Path.render_all ps +:+ Path.render_all ps'.
Proof.
  induction ps as [|p ps IH]; [done|]. cbn [app Path.render_all].
  by rewrite IH, append_assoc.
Qed.



Lemma getByPath_segments v p : Path.getByPath v p = Path.getBySegments v (Path.parsePath p).
Proof.
  unfold Path.getByPath. by destruct (decide (p = "$" ∨ p = "")) as [[-> | ->]|].
Qed.

Lemma get_property_NoDup fields k member :
  NoDup fields.*1 → (k, member) ∈ fields → Js.get_property fields k = member.
Proof.
  induction fields as [|[k0 v0] rest IH]; intros Hnodup Hin; [by apply elem_of_nil in Hin|].
  apply NoDup_cons in Hnodup as [Hk0 Hnodup]. simpl.
  apply elem_of_cons in Hin as [[= -> ->]|Hin]; [by rewrite decide_True|].
  rewrite decide_False; [by apply IH|].
  intros ->. apply Hk0. apply list_elem_of_fmap. by exists (k, member).
Qed.

(** The node of a value and the nodes below it, for a path given by
    its pieces: each node has the path of the pieces that lead to it,
    holds the value that these pieces lead to, and lies as deep as
    they are many. *)
Lemma subnodes_resolve (v : value) : ∀ ps key depth expandedPaths root node,
  Tree.plain v →
  Tree.buildTree v ("$" +:+ Path.render_all ps) key depth expandedPaths = Some root →
  node ∈ Tree.subnodes root →
  ∃ ps', Path.starts_separated ps' ∧ Path.separated ps'
    ∧ Tree.path node = "$" +:+ Path.render_all (ps ++ ps')
    ∧ Path.getBySegments v (Path.words ps') = Tree.value_ node
    ∧ Tree.depth node = (depth + length (Path.words ps'))%nat
    ∧ Tree.value_ node ≠ VUndefined.
Proof.
  assert (∀ v ps key depth expandedPaths root,
    Tree.buildTree v ("$" +:+ Path.render_all ps) key depth expandedPaths = Some root →
    Tree.path root = "$" +:+ Path.render_all (ps ++ [])
    ∧ Path.getBySegments v (Path.words []) = Tree.value_ root
    ∧ Tree.depth root = (depth + length (Path.words []))%nat
    ∧ Tree.value_ root ≠ VUndefined) as Hroot.
  { intros v' ps key depth expandedPaths root Hbuild. rewrite app_nil_r.
    destruct v'; cbn [Tree.buildTree] in Hbuild; [done|..];
      injection Hbuild as <-; simpl; split_and!; try done; lia. }
  induction v as [| | b | n | s | elems props IH _ | fields IH] using value_ind_members;
    intros ps key depth expandedPaths root node Hplain Hbuild Hnode.
  1-5: (apply elem_of_subnodes in Hnode as [->|(child & Hchild & _)];
        [exists []; split; [done|]; split; [done|]; by eapply Hroot|];
        cbn [Tree.buildTree] in Hbuild; try done;
        injection Hbuild as <-; by apply elem_of_nil in Hchild).
  - apply elem_of_subnodes in Hnode as [->|(child & Hchild & Hnode)];
      [exists []; split; [done|]; split; [done|]; by eapply Hroot|].
    rewrite buildTree_array in Hbuild. injection Hbuild as <-.
    cbn [Tree.children] in Hchild.
    destruct (bool_decide _); [|by apply elem_of_nil in Hchild].
    unfold Tree.array_children in Hchild.
    apply list_elem_of_omap in Hchild as (built & Hbuilt & ->).
    apply elem_of_lookup_imap in Hbuilt as (i & item & Hbuilt & Hi).
    apply plain_array in Hplain as [Hlen Hplain].
    pose proof (lookup_lt_Some _ _ _ Hi) as Hlt.
    assert ((("$" +:+ Path.render_all ps) +:+ "[" +:+ pretty i +:+ "]")
            = "$" +:+ Path.render_all (ps ++ [Path.PIndex (pretty i)])) as Hpath.
    { rewrite render_all_app. cbn [Path.render_all Path.render].
      by rewrite !append_assoc, append_nil_r. }
    rewrite Hpath in Hbuilt. symmetry in Hbuilt.
    destruct (proj1 (Forall_lookup _ _) IH i item Hi _ _ _ _ _ node
                (proj1 (Forall_lookup _ _) Hplain i item Hi) Hbuilt Hnode)
      as (ps' & Hstart & Hsep & Hp & Hget & Hdepth & Hdefined).
    exists (Path.PIndex (pretty i) :: ps'). split_and!.
    + done.
    + cbn [Path.separated]. split_and!; [|done..].
      by destruct (pretty_nat_digits i).
    + by rewrite Hp, <-app_assoc.
    + change (Path.words (Path.PIndex (pretty i) :: ps')) with (pretty i :: Path.words ps').
      rewrite (getBySegments_cons_array _ _ _ (Z.of_nat i)) by apply parseInt_pretty.
      unfold Js.array_get, Js.is_array_index.
      destruct (Z.leb_spec 0 (Z.of_nat i)); [|lia].
      destruct (Z.ltb_spec (Z.of_nat i) 4294967295); [|lia].
      cbn [andb]. by rewrite Nat2Z.id, Hi.
    + rewrite Hdepth. change (Path.words (Path.PIndex (pretty i) :: ps'))
        with (pretty i :: Path.words ps'). simpl. lia.
    + done.
  - apply elem_of_subnodes in Hnode as [->|(child & Hchild & Hnode)];
      [exists []; split; [done|]; split; [done|]; by eapply Hroot|].
    rewrite buildTree_object in Hbuild. injection Hbuild as <-.
    cbn [Tree.children] in Hchild.
    destruct (bool_decide _); [|by apply elem_of_nil in Hchild].
    unfold Tree.object_children in Hchild.
    apply list_elem_of_omap in Hchild as ([k member] & Hin & Hbuilt).
    apply plain_object in Hplain as [Hnodup Hplain].
    assert ((("$" +:+ Path.render_all ps) +:+ "." +:+ k)
            = "$" +:+ Path.render_all (ps ++ [Path.PDot; Path.PWord k])) as Hpath.
    { rewrite render_all_app. cbn [Path.render_all Path.render].
      by rewrite !append_assoc, append_nil_r. }
    rewrite Hpath in Hbuilt.
    destruct (proj1 (Forall_forall _ _) Hplain _ Hin) as [Hk Hmember].
    destruct (proj1 (Forall_forall _ _) IH _ Hin _ _ _ _ _ node Hmember Hbuilt Hnode)
      as (ps' & Hstart & Hsep & Hp & Hget & Hdepth & Hdefined).
    exists (Path.PDot :: Path.PWord k :: ps'). split_and!.
    + done.
    + cbn [Path.separated]. by split_and!.
    + by rewrite Hp, <-app_assoc.
    + change (Path.words (Path.PDot :: Path.PWord k :: ps')) with (k :: Path.words ps').
      cbn [Path.getBySegments]. by rewrite (get_property_NoDup _ _ member).
    + rewrite Hdepth. change (Path.words (Path.PDot :: Path.PWord k :: ps'))
        with (k :: Path.words ps'). simpl. lia.
    + done.
Qed.

(** X16.  The paths of the tree are paths of the document.  In the tree
    built from a document whose keys are simple names, every node (at
    any depth, whatever is expanded) carries a path at which
    [getByPath] finds the value of the node in the document, and the
    depth of the node is the number of segments of that path. *)
Theorem buildTree_paths_resolve (v : value) (expandedPaths : gset string)
    (root node : Tree.TreeNodeData) :
  Tree.plain v →
  Tree.buildTree v "$" (Tree.KeyName "root") 0 expandedPaths = Some root →
  node ∈ Tree.subnodes root →
  Path.getByPath v (Tree.path node) = Tree.value_ node
  ∧ Tree.depth node = length (Path.parsePath (Tree.path node)).
Proof.
  intros Hplain Hbuild Hnode.
  destruct (subnodes_resolve v [] (Tree.KeyName "root") 0%nat expandedPaths root node)
    as (ps' & Hstart & Hsep & Hp & Hget & Hdepth & Hdefined); [done..|].
  cbn [app] in Hp.
  by rewrite getByPath_segments, Hp, parsePath_render.
Qed.

Lemma buildTree_paths_resolve_witness :
  ∃ root node,
    Tree.buildTree Examples.test_data "$" (Tree.KeyName "root") 0
      {["$"; "$.items"]} = Some root
    ∧ node ∈ Tree.subnodes root
    ∧ Tree.path node = "$.items[1]"
    ∧ Path.getByPath Examples.test_data "$.items[1]" = Tree.value_ node.
Proof.
  destruct (Tree.buildTree Examples.test_data "$" (Tree.KeyName "root") 0
              {["$"; "$.items"]}) as [root|] eqn:Hbuild; [|by vm_compute in Hbuild].
  pose (node := {| Tree.id := "$.items[1]"; Tree.key := Tree.KeyIndex 1;
                   Tree.value_ := VObj [("id", VNum (Js.num 2))];
                   Tree.type := Tree.TObject; Tree.path := "$.items[1]";
                   Tree.depth := 2; Tree.expanded := false; Tree.children := [];
                   Tree.childCount := 1 |}).
  assert (node ∈ Tree.subnodes root) as Hnode.
  { vm_compute in Hbuild. simplify_eq.
    cbn [Tree.subnodes Tree.children app]. subst node. repeat constructor. }
  exists root, node. split_and!; [done..|].
  apply (buildTree_paths_resolve Examples.test_data {["$"; "$.items"]} root node);
    [|done..].
  cbn. split_and!; try done;
    repeat (apply NoDup_cons; split; [by rewrite ?elem_of_cons, elem_of_nil; intuition|]);
    apply NoDup_nil_2.
Defined.


(** ** Tree editor: expanding, adding a property *)

#[local] Set Warnings "-clear-no-such-hyp".

(** X17.  [handleToggle] flips the expansion of the path it is given
    and of no other; toggling twice gives the set back. *)
Theorem toggle_flips (path : string) (prev : gset string) :
  (path ∈ Tree.toggle path prev ↔ path ∉ prev)
  ∧ (∀ other, other ≠ path → (other ∈ Tree.toggle path prev ↔ other ∈ prev))
  ∧ Tree.toggle path (Tree.toggle path prev) = prev.
Proof.
  unfold Tree.toggle. split_and!.
  - destruct (decide (path ∈ prev)); set_solver.
  - intros other Hother. destruct (decide (path ∈ prev)); set_solver.
  - destruct (decide (path ∈ prev)) as [Hin|Hin].
    + rewrite decide_False by set_solver. apply set_eq. intros x.
      destruct (decide (x = path)) as [->|]; set_solver.
    + rewrite decide_True by set_solver. set_solver.
Qed.

Lemma has_property_elem_of fields k :
  Js.has_property fields k = true ↔ k ∈ fields.*1.
Proof.
  unfold Js.has_property. induction fields as [|[k0 v0] rest IH]; simpl.
  - split; [done|]. by intros ?%elem_of_nil.
  - rewrite orb_true_iff, IH, elem_of_cons, bool_decide_eq_true. naive_solver.
Qed.

Lemma newKey_counter_inj (a b : nat) :
  "newKey" +:+ pretty a = "newKey" +:+ pretty b → a = b.
Proof.
  rewrite !append_cons, !append_nil_l. intros [= Heq]. by apply (inj pretty) in Heq.
Qed.

Lemma newKey_counter_ne (c : nat) : "newKey" +:+ pretty c ≠ "newKey".
Proof.
  rewrite !append_cons, !append_nil_l. intros [= Heq].
  destruct (pretty_nat_digits c) as [Hdigits _]. by rewrite Heq in Hdigits.
Qed.

(** The loop of [handleAddProperty] finds a free key before it has
    tried more keys than the object has. *)
Lemma freeKey_finds fields fuel : ∀ (tried : list string) key counter,
  NoDup tried →
  (∀ x, x ∈ tried → x ∈ fields.*1) →
  key ∉ tried →
  (key = "newKey" ∨ ∃ c : nat, key = "newKey" +:+ pretty c) →
  (∀ c : nat, (counter ≤ c)%nat →
     ("newKey" +:+ pretty c ∉ tried) ∧ "newKey" +:+ pretty c ≠ key) →
  (length fields < length tried + fuel)%nat →
  ∃ k, Tree.freeKey fuel fields key counter = Some k
       ∧ (k ∉ fields.*1)
       ∧ (k = "newKey" ∨ ∃ c : nat, k = "newKey" +:+ pretty c).
Proof.
  induction fuel as [|fuel IH]; intros tried key counter Hnodup Hsub Hkey Hshape Hfresh Hlen.
  - apply NoDup_submseteq in Hsub; [|done].
    apply submseteq_length in Hsub. rewrite length_fmap in Hsub. lia.
  - cbn [Tree.freeKey]. destruct (Js.has_property fields key) eqn:Hhas.
    + apply has_property_elem_of in Hhas.
      apply (IH (key :: tried)).
      * by apply NoDup_cons.
      * intros x [->|?]%elem_of_cons; auto.
      * destruct (Hfresh counter) as [? ?]; [lia|].
        rewrite elem_of_cons. naive_solver.
      * eauto.
      * intros c Hc. destruct (Hfresh c) as [? ?]; [lia|]. split.
        -- rewrite elem_of_cons. naive_solver.
        -- intros Heq%newKey_counter_inj. lia.
      * simpl. lia.
    + exists key. split_and!; [done| |done].
      intros Hin%has_property_elem_of. congruence.
Qed.

Lemma freeKey_more_fuel fields fuel : ∀ fuel' key counter k,
  Tree.freeKey fuel fields key counter = Some k → (fuel ≤ fuel')%nat →
  Tree.freeKey fuel' fields key counter = Some k.
Proof.
  induction fuel as [|fuel IH]; intros fuel' key counter k Hfree Hle; [done|].
  destruct fuel' as [|fuel']; [lia|]. cbn [Tree.freeKey] in *.
  destruct (Js.has_property fields key); [|done]. apply IH; [done|lia].
Qed.

(** X18.  [handleAddProperty] on an object: the loop that looks for a
    free key ends within [n + 1] iterations, [n] being the number of
    properties; the key it finds is not a key of the object, and the
    new document is the object with that key, holding the empty
    string, after its properties, which are as they were. *)
Theorem handleAddProperty_appends (fields : list (string * value)) :
  ∃ newKey,
    (newKey ∉ fields.*1)
    ∧ ∀ fuel, (length fields < fuel)%nat →
        Tree.handleAddProperty fuel (VObj fields)
        = Some (Some (VObj (fields ++ [(newKey, VStr "")]))).
Proof.
  destruct (freeKey_finds fields (S (length fields)) [] "newKey" 1)
    as (k & Hfree & Hk & Hshape).
  - constructor.
  - by intros x ?%elem_of_nil.
  - by intros ?%elem_of_nil.
  - by left.
  - intros c _. split; [by intros ?%elem_of_nil|apply newKey_counter_ne].
  - simpl. lia.
  - exists k. split; [done|]. intros fuel Hfuel. cbn [Tree.handleAddProperty].
    rewrite (freeKey_more_fuel _ _ fuel _ _ _ Hfree) by lia. simpl.
    do 3 f_equal. unfold Js.define_property.
    destruct (Js.has_property fields k) eqn:Hhas;
      [by apply has_property_elem_of in Hhas|].
    assert (Js.index_of_key k = None) as ->; [|done].
    unfold Js.index_of_key.
    by destruct Hshape as [->|[c ->]]; rewrite ?append_cons.
Qed.

(** ** Validator: what a result says about the value *)

Section ValidatorMore.
Context `{Host} `{RegExpEngine}.

Lemma validateSchema_array elems props schema path :
  Validator.validateSchema (VArr elems props) schema path
  = (e_items ←
       match Validator.items schema with
       | Some (inl itemSchema) =>
           Validator.itemErrors (λ item p, Validator.validateSchema item itemSchema p)
             path elems 0
       | _ => Ok []
       end;
     let errors :=
       Validator.typeErrors (VArr elems props) schema path
       ++ Validator.enumErrors (VArr elems props) schema path
       ++ [] ++ []
       ++ (Validator.arrayErrors elems (VArr elems props) schema path ++ e_items)
       ++ [] in
     Ok {| Validator.valid := bool_decide (length errors = 0%nat);
           Validator.errors := errors |}).
Proof.
  cbn [Validator.validateSchema].
  assert (∀ itemSchema index,
    (fix each (l : list value) (index : nat) : result (list Validator.ValidationError) :=
       match l with
       | [] => Ok []
       | item :: rest =>
           r ← Validator.validateSchema item itemSchema
                 (path +:+ "[" +:+ pretty index +:+ "]");
           more ← each rest (S index);
           Ok (Validator.errors r ++ more)
       end) elems index
    = Validator.itemErrors (λ item p, Validator.validateSchema item itemSchema p)
        path elems index) as Hloop.
  { intros itemSchema. induction elems as [|item rest IH]; intros index; [done|].
    cbn [Validator.itemErrors]. by rewrite <-IH. }
  destruct (Validator.items schema) as [[itemSchema|tuple]|]; [|done..].
  rewrite Hloop. by destruct (Validator.itemErrors _ _ _ _).
Qed.

Lemma validateSchema_object fields schema path :
  Validator.validateSchema (VObj fields) schema path
  = (e_props ←
       match Validator.properties schema with
       | Some props =>
           Validator.propertyErrors Validator.validateSchema props
             (Validator.additionalProperties schema) path fields
       | None => Ok []
       end;
     let errors :=
       Validator.typeErrors (VObj fields) schema path
       ++ Validator.enumErrors (VObj fields) schema path
       ++ [] ++ [] ++ []
       ++ (Validator.objectErrors fields (VObj fields) schema path ++ e_props) in
     Ok {| Validator.valid := bool_decide (length errors = 0%nat);
           Validator.errors := errors |}).
Proof.
  cbn [Validator.validateSchema].
  destruct (Validator.properties schema) as [props|]; [|done].
  assert (
    (fix each (l : list (string * value)) : result (list Validator.ValidationError) :=
       match l with
       | [] => Ok []
       | (key, member) :: rest =>
           here ←
             match Validator.lookup_schema props key with
             | Some propSchema =>
                 r ← Validator.validateSchema member propSchema (path +:+ "." +:+ key);
                 Ok (Validator.errors r)
             | None =>
                 if bool_decide (Validator.additionalProperties schema = Some false)
                 then Ok [Validator.makeError
                            ("Unexpected property " +:+ String Js.double_quote key
                               +:+ String Js.double_quote "")
                            (path +:+ "." +:+ key) "additionalProperties"
                            (Validator.RuleBool false) member]
                 else Ok []
             end;
           more ← each rest;
           Ok (here ++ more)
       end) fields
    = Validator.propertyErrors Validator.validateSchema props
        (Validator.additionalProperties schema) path fields) as ->.
  { induction fields as [|[key member] rest IH]; [done|].
    cbn [Validator.propertyErrors]. by rewrite <-IH. }
  by destruct (Validator.propertyErrors _ _ _ _ _).
Qed.


(** The errors of the checks that do not recurse are at the path of the
    value. *)
Ltac at_path :=
  repeat (first [apply Forall_nil_2 | apply Forall_app; split
                | apply Forall_cons; split; [by exists ""; rewrite append_nil_r|]
                | progress case_match ]).

Lemma typeErrors_path v schema path :
  Forall (λ e, ∃ suffix, Validator.path e = path +:+ suffix)
    (Validator.typeErrors v schema path).
Proof. unfold Validator.typeErrors. at_path. Qed.

Lemma enumErrors_path v schema path :
  Forall (λ e, ∃ suffix, Validator.path e = path +:+ suffix)
    (Validator.enumErrors v schema path).
Proof. unfold Validator.enumErrors. at_path. Qed.

Lemma stringErrors_path s schema path errs :
  Validator.stringErrors s schema path = Ok errs →
  Forall (λ e, ∃ suffix, Validator.path e = path +:+ suffix) errs.
Proof.
  unfold Validator.stringErrors. intros Herrs.
  repeat (first [ case_match
                | match goal with
                  | H : context [RegExp_new ?p ?b] |- _ => destruct (RegExp_new p b)
                  end ];
          simplify_eq/=); at_path.
Qed.

Lemma numberErrors_path n schema path :
  Forall (λ e, ∃ suffix, Validator.path e = path +:+ suffix)
    (Validator.numberErrors n schema path).
Proof. unfold Validator.numberErrors. at_path. Qed.

Lemma arrayErrors_path elems v schema path :
  Forall (λ e, ∃ suffix, Validator.path e = path +:+ suffix)
    (Validator.arrayErrors elems v schema path).
Proof. unfold Validator.arrayErrors. at_path. Qed.

Lemma objectErrors_path fields v schema path :
  Forall (λ e, ∃ suffix, Validator.path e = path +:+ suffix)
    (Validator.objectErrors fields v schema path).
Proof.
  unfold Validator.objectErrors. at_path.
  apply Forall_flat_map, Forall_forall. intros req _. at_path.
Qed.

Lemma path_below path step (errs : list Validator.ValidationError) :
  Forall (λ e, ∃ suffix, Validator.path e = (path +:+ step) +:+ suffix) errs →
  Forall (λ e, ∃ suffix, Validator.path e = path +:+ suffix) errs.
Proof.
  intros Herrs. eapply Forall_impl; [exact Herrs|].
  intros e [suffix ->]. exists (step +:+ suffix). by rewrite append_assoc.
Qed.

Ltac collect :=
  cbn [Validator.errors mbind result_bind];
  repeat first
    [ apply typeErrors_path | apply enumErrors_path | apply numberErrors_path
    | apply arrayErrors_path | apply objectErrors_path | apply Forall_nil_2
    | by eapply stringErrors_path | by eauto
    | apply Forall_app; split ].

(** X19.  Every error that [validateSchema] reports lies at the path it
    was given or below it: the path of the error is the given path
    followed by the steps to a member. *)
Theorem validateSchema_error_paths (v : value) :
  ∀ (schema : Validator.JSONSchema) (path : string) (r : Validator.ValidationResult),
  Validator.validateSchema v schema path = Ok r →
  Forall (λ e, ∃ suffix, Validator.path e = path +:+ suffix) (Validator.errors r).
Proof.
  induction v as [| | b | n | s | elems props IH _ | fields IH] using value_ind_members;
    intros schema path r Hr.
  1-2: (cbn [Validator.validateSchema] in Hr; simplify_eq/=; at_path).
  - cbn [Validator.validateSchema] in Hr. injection Hr as <-. collect.
  - cbn [Validator.validateSchema] in Hr. injection Hr as <-. collect.
  - cbn [Validator.validateSchema] in Hr.
    destruct (Validator.stringErrors s schema path) as [errs|] eqn:Hs; [|done].
    injection Hr as <-. collect.
  - rewrite validateSchema_array in Hr.
    assert (∀ itemSchema index errs,
      Validator.itemErrors (λ item p, Validator.validateSchema item itemSchema p)
        path elems index = Ok errs →
      Forall (λ e, ∃ suffix, Validator.path e = path +:+ suffix) errs) as Hitems.
    { intros itemSchema. clear Hr.
      induction IH as [|item rest Hitem _ IHrest]; intros index errs Herrs;
        cbn [Validator.itemErrors] in Herrs; [by simplify_eq/=|].
      destruct (Validator.validateSchema item itemSchema _) as [r0|] eqn:Hr0;
        [|done]. simpl in Herrs.
      destruct (Validator.itemErrors _ _ rest _) as [more|] eqn:Hmore; [|done].
      simplify_eq/=. apply Forall_app. split; [|by eapply IHrest].
      eapply path_below, Hitem, Hr0. }
    destruct (Validator.items schema) as [[itemSchema|tuple]|]; simpl in Hr.
    + destruct (Validator.itemErrors _ _ _ _) as [errs|] eqn:Herrs; [|done].
      injection Hr as <-. collect.
    + injection Hr as <-. collect.
    + injection Hr as <-. collect.
  - rewrite validateSchema_object in Hr.
    assert (∀ props additional errs,
      Validator.propertyErrors Validator.validateSchema props additional path fields
        = Ok errs →
      Forall (λ e, ∃ suffix, Validator.path e = path +:+ suffix) errs) as Hprops.
    { intros props additional. clear Hr.
      induction IH as [|[key member] rest Hmember _ IHrest]; intros errs Herrs;
        cbn [Validator.propertyErrors] in Herrs; [by simplify_eq/=|].
      destruct (Validator.lookup_schema props key) as [propSchema|].
      - destruct (Validator.validateSchema member propSchema _) as [r0|] eqn:Hr0;
          [|done]. simpl in Herrs.
        destruct (Validator.propertyErrors _ _ _ _ rest) as [more|] eqn:Hmore; [|done].
        simplify_eq/=. apply Forall_app. split; [|by eapply IHrest].
        eapply path_below, Hmember, Hr0.
      - destruct (bool_decide (additional = Some false)); simpl in Herrs;
          (destruct (Validator.propertyErrors _ _ _ _ rest) as [more|] eqn:Hmore;
             [|done]); simplify_eq/=; [|by eapply IHrest].
        apply Forall_cons. split; [by eexists|by eapply IHrest]. }
    destruct (Validator.properties schema) as [props|]; simpl in Hr.
    + destruct (Validator.propertyErrors _ _ _ _ _) as [errs|] eqn:Herrs; [|done].
      injection Hr as <-. collect.
    + injection Hr as <-. collect.
Qed.



Lemma includes_elem_of l name : Validator.includes l name = true ↔ name ∈ l.
Proof.
  unfold Validator.includes. induction l as [|x l IH]; simpl.
  - split; [done|]. by intros ?%elem_of_nil.
  - rewrite orb_true_iff, IH, elem_of_cons, bool_decide_eq_true. naive_solver.
Qed.








(** X21.  A union type does not admit [null]: for a schema whose
    [type] is a list of names, [null] gets a type error even when the
    list names ['null'], since [null] is compared with the single name
    ['null'] only; a value other than [null] is checked against the
    list, so that a string passes a list that names ['string']. *)
Theorem validateSchema_null_union (schema : Validator.JSONSchema) (names : list string)
    (path : string) :
  Validator.type schema = Some (Validator.TypeUnion names) →
  (∃ e, Validator.validateSchema VNull schema path
        = Ok {| Validator.valid := false; Validator.errors := [e] |}
        ∧ Validator.schemaKeyword e = "type"
        ∧ Validator.path e = path)
  ∧ (∀ s, "string" ∈ names → Validator.typeErrors (VStr s) schema path = []).
Proof.
  intros Htype. split.
  - cbn [Validator.validateSchema]. rewrite Htype. simpl. eauto.
  - intros s Hnames. unfold Validator.typeErrors. rewrite Htype. simpl.
    apply includes_elem_of in Hnames. by rewrite Hnames.
Qed.

End ValidatorMore.

Lemma validateSchema_error_paths_witness :
  ∃ r, Validator.validateSchema (H:=Sample.host) (H0:=Sample.engine)
         Examples.nameless Examples.person_schema "$" = Ok r
       ∧ Validator.path <$> Validator.errors r = ["$"; "$.age"]
       ∧ Forall (λ e, ∃ suffix, Validator.path e = "$" +:+ suffix) (Validator.errors r).
Proof.
  destruct (Validator.validateSchema (H:=Sample.host) (H0:=Sample.engine)
              Examples.nameless Examples.person_schema "$") as [r|] eqn:Hr;
    [|by vm_compute in Hr].
  exists r. split_and!; [done| |].
  - vm_compute in Hr. by injection Hr as <-.
  - apply (validateSchema_error_paths (H:=Sample.host) (H0:=Sample.engine)
             Examples.nameless Examples.person_schema "$" r Hr).
Defined.


Lemma validateSchema_null_union_witness :
  ∃ e, Validator.validateSchema (H:=Sample.host) (H0:=Sample.engine) VNull
         (Validator.Schema (Some (Validator.TypeUnion ["string"; "null"])) None None None
            None None None None None None None None false None None None None None None) "$"
       = Ok {| Validator.valid := false; Validator.errors := [e] |}.
Proof.
  destruct (validateSchema_null_union (H:=Sample.host) (H0:=Sample.engine)
              (Validator.Schema (Some (Validator.TypeUnion ["string"; "null"])) None None
                 None None None None None None None None None false None None None None
                 None None) ["string"; "null"] "$" eq_refl) as [(e & He & _) _].
  by exists e.
Defined.

Lemma handleAddProperty_appends_witness :
  ∃ newKey,
    (newKey ∉ ["newKey"; "a"])
    ∧ Tree.handleAddProperty 3 (VObj [("newKey", VNull); ("a", VNull)])
      = Some (Some (VObj [("newKey", VNull); ("a", VNull); (newKey, VStr "")])).
Proof.
  destruct (handleAddProperty_appends [("newKey", VNull); ("a", VNull)])
    as (newKey & Hfree & Hadd).
  exists newKey. split; [exact Hfree|]. apply (Hadd 3%nat). simpl. lia.
Defined.

(** ** Search: escaping a literal query *)

Lemma escapeRegex_cons c r :
  Search.escapeRegex (String c r)
  = (if Search.is_special c then String Js.backslash (String c "") else String c "")
    +:+ Search.escapeRegex r.
Proof.
  unfold Search.escapeRegex, Js.replace_all. cbn [Js.replace_all_from].
  destruct (Search.is_special c); [|by rewrite append_cons, append_nil_l].
  done.
Qed.

(** X22.  [escapeRegex] works character by character: it distributes
    over concatenation, puts one backslash before each special
    character and none elsewhere, so that a query without special
    characters is unchanged and no query grows to more than twice its
    length. *)
Theorem escapeRegex_characters (a b : string) :
  Search.escapeRegex (a +:+ b) = Search.escapeRegex a +:+ Search.escapeRegex b
  ∧ (∀ c, Search.escapeRegex (String c "")
          = if Search.is_special c then String Js.backslash (String c "")
            else String c "")
  ∧ (Js.all_chars (λ c, negb (Search.is_special c)) a = true → Search.escapeRegex a = a)
  ∧ (String.length a ≤ String.length (Search.escapeRegex a) ≤ 2 * String.length a)%nat.
Proof.
  split_and!.
  - induction a as [|c a IH]; [done|].
    by rewrite append_cons, !escapeRegex_cons, IH, append_assoc.
  - intros c. rewrite escapeRegex_cons. apply append_nil_r.
  - induction a as [|c a IH]; [done|]. simpl. intros [Hc Ha]%andb_prop.
    rewrite escapeRegex_cons, (IH Ha). apply negb_true_iff in Hc. by rewrite Hc.
  - induction a as [|c a IH]; [simpl; lia|].
    rewrite escapeRegex_cons, length_append.
    destruct (Search.is_special c); simpl; lia.
  - induction a as [|c a IH]; [simpl; lia|].
    rewrite escapeRegex_cons, length_append.
    destruct (Search.is_special c); simpl; lia.
Qed.

(** ** Formatter: sorting the keys keeps the data *)



Section FormatterMore.
Context `{Host}.
















End FormatterMore.



(** ** Tree editor: reading and renaming at a path *)

Lemma getNestedValue_render v ps :
  Path.separated ps →
  Tree.getNestedValue v ("$" +:+ Path.render_all ps) = Tree.nestedLoop v (Path.words ps).
Proof.
  intros Hps. unfold Tree.getNestedValue. rewrite append_cons, append_nil_l.
  assert (filter (λ s, s ≠ "")
            (Js.split "." (Js.replace_all Path.index_bracket (Path.render_all ps)))
          = Path.words ps) as Hwords.
  { rewrite replace_index_render by done. by apply segments_dotted. }
  destruct ps as [|[|w|ds] rest]; cbn [Path.render_all Path.render].
  - done.
  - rewrite append_cons, append_nil_l.
    assert (filter (λ s, s ≠ "")
              (Js.split "." (Js.replace_all Path.index_bracket (Path.render_all rest)))
            = Path.words rest) as ->; [|done].
    rewrite replace_index_render by done. by apply segments_dotted.
  - destruct w as [|c w].
    { by destruct Hps as [Hw _]. }
    rewrite append_cons.
    assert (c ≠ "."%char) as Hc.
    { destruct Hps as [Hw _]. apply simple_name_spec in Hw as (_ & _ & Hw).
      unfold Path.no_dot in Hw. simpl in Hw. apply andb_true_iff in Hw as [Hc _].
      by apply negb_true_iff, bool_decide_eq_false in Hc. }
    rewrite <- append_cons.
    change (String c w +:+ Path.render_all rest)
      with (Path.render_all (Path.PWord (String c w) :: rest)).
    rewrite <- Hwords.
    destruct c as [[] [] [] [] [] [] [] []]; done.
  - rewrite <- Hwords. done.
Qed.

Lemma nestedLoop_getBySegments segments : ∀ v,
  Path.getBySegments v segments ≠ VUndefined →
  Tree.nestedLoop v segments = Path.getBySegments v segments.
Proof.
  induction segments as [|s rest IH]; intros v Hv; [done|].
  destruct v as [| | | | |elems props|fields]; cbn [Path.getBySegments] in *; try done.
  - cbn [Tree.nestedLoop]. destruct (Js.parseInt s) as [z|]; [by apply IH|done].
  - cbn [Tree.nestedLoop]. by apply IH.
Qed.


(** X25.  On a path made of names and indices that is present in the
    document, [getNestedValue] of the tree editor reads what
    [getByPath] reads. *)
Theorem getNestedValue_getByPath (v : value) (ps : list Path.piece) :
  Path.separated ps →
  Path.getByPath v ("$" +:+ Path.render_all ps) ≠ VUndefined →
  Tree.getNestedValue v ("$" +:+ Path.render_all ps)
  = Path.getByPath v ("$" +:+ Path.render_all ps).
Proof.
  intros Hps. rewrite getByPath_segments, getNestedValue_render, parsePath_render by done.
  apply nestedLoop_getBySegments.
Qed.

Lemma getNestedValue_getByPath_witness :
  Tree.getNestedValue Examples.test_data "$.items[1].id" = VNum (Js.num 2).
Proof.
  refine (getNestedValue_getByPath Examples.test_data
            [Path.PDot; Path.PWord "items"; Path.PIndex "1"; Path.PDot; Path.PWord "id"]
            _ _); [by cbn|by vm_compute].
Defined.










(** X27.  Editing a node of the tree.  For a node of the tree built
    from a document whose keys are simple names, [handleValueChange]
    at the path of the node gives a document in which that path holds
    the new value, and [handleTypeChange] one in which it holds a value
    of the new type. *)
Theorem handleValueChange_node (v : value) (expandedPaths : gset string)
    (root node : Tree.TreeNodeData) (x : value) (newType : Tree.JsonNodeType) :
  Tree.plain v →
  Tree.buildTree v "$" (Tree.KeyName "root") 0 expandedPaths = Some root →
  node ∈ Tree.subnodes root →
  Path.getByPath (Tree.handleValueChange v (Tree.path node) x) (Tree.path node) = x
  ∧ Tree.getType
      (Path.getByPath (Tree.handleTypeChange v (Tree.path node) newType) (Tree.path node))
    = newType.
Proof.
  intros Hplain Hbuild Hnode.
  destruct (subnodes_resolve v [] (Tree.KeyName "root") 0%nat expandedPaths root node)
    as (ps' & Hstart & Hsep & Hp & Hget & Hdepth & Hdefined); [done..|].
  cbn [app] in Hp.
  assert (∀ y, Path.getByPath (Path.setByPath v (Tree.path node) y) (Tree.path node) = y)
    as Hset.
  { intros y. unfold Path.setByPath. rewrite getByPath_segments.
    destruct (decide (Tree.path node = "$" ∨ Tree.path node = "")) as [[Heq | Heq]|].
    - by rewrite Heq.
    - by rewrite Heq.
    - rewrite Hp, parsePath_render by done.
      apply getBySegments_setBySegments. by rewrite Hget. }
  unfold Tree.handleValueChange, Tree.handleTypeChange. rewrite !Hset.
  split; [done|]. by destruct newType.
Qed.

Lemma handleValueChange_node_witness :
  ∃ root node,
    Tree.buildTree Examples.test_data "$" (Tree.KeyName "root") 0 {["$"]} = Some root
    ∧ node ∈ Tree.subnodes root
    ∧ Tree.path node = "$.name"
    ∧ Path.getByPath (Tree.handleValueChange Examples.test_data "$.name" (VStr "Ann"))
        "$.name" = VStr "Ann".
Proof.
  destruct (Tree.buildTree Examples.test_data "$" (Tree.KeyName "root") 0 {["$"]})
    as [root|] eqn:Hbuild; [|by vm_compute in Hbuild].
  pose (node := {| Tree.id := "$.name"; Tree.key := Tree.KeyName "name";
                   Tree.value_ := VStr "John"; Tree.type := Tree.TString;
                   Tree.path := "$.name"; Tree.depth := 1; Tree.expanded := false;
                   Tree.children := []; Tree.childCount := 0 |}).
  assert (node ∈ Tree.subnodes root) as Hnode.
  { vm_compute in Hbuild. simplify_eq.
    cbn [Tree.subnodes Tree.children app]. subst node. repeat constructor. }
  exists root, node. split_and!; [done..|].
  refine (proj1 (handleValueChange_node Examples.test_data {["$"]} root node (VStr "Ann")
                   Tree.TString _ Hbuild Hnode)).
  cbn. split_and!; try done;
    repeat (apply NoDup_cons; split; [by rewrite ?elem_of_cons, elem_of_nil; intuition|]);
    apply NoDup_nil_2.
Defined.

(** ** Paths: the bracket form with a quoted key *)

Lemma span_until (p : ascii → bool) body c rest :
  Js.all_chars p body = true → p c = false →
  Js.span p (body +:+ String c rest) = (body, String c rest).
Proof.
  intros Hbody Hc. induction body as [|b body IH].
  - rewrite append_nil_l. simpl. by rewrite Hc.
  - rewrite append_cons. simpl in *. apply andb_prop in Hbody as [Hb Hbody].
    by rewrite Hb, (IH Hbody).
Qed.

Lemma replace_all_head_none m c r :
  m (String c r) = None → Js.replace_all m (String c r) = String c (Js.replace_all m r).
Proof. intros Hm. unfold Js.replace_all. cbn [Js.replace_all_from]. by rewrite Hm. Qed.

Lemma replace_all_head_some m c r out n :
  m (String c r) = Some (out, n) →
  Js.replace_all m (String c r) = out +:+ Js.replace_all_from m (Nat.pred n) r.
Proof. intros Hm. unfold Js.replace_all. cbn [Js.replace_all_from]. by rewrite Hm. Qed.

Section Quoted.
Variables (q : ascii) (body : string).
Hypothesis Hq : q = Js.double_quote ∨ q = "'"%char.
Hypothesis Hne : body ≠ "".
Hypothesis Hbody :
  Js.all_chars (λ c, negb (bool_decide (c = q)) && negb (bool_decide (c = "["%char)))
    body = true.

Lemma quoted_inner_no_bracket :
  Path.no_bracket (String q (body +:+ String q "]")) = true.
Proof.
  unfold Path.no_bracket. cbn [Js.all_chars]. rewrite all_chars_append.
  rewrite (all_chars_impl _ _ body (λ c Hc, proj2 (andb_prop _ _ Hc)) Hbody).
  by destruct Hq as [-> | ->].
Qed.

Lemma quoted_index_pass :
  Js.replace_all Path.index_bracket (String "[" (String q (body +:+ String q "]")))
  = String "[" (String q (body +:+ String q "]")).
Proof.
  rewrite replace_all_head_none
    by (unfold Path.index_bracket; by destruct Hq as [-> | ->]).
  f_equal. apply replace_all_unchanged;
    [apply index_bracket_other|apply quoted_inner_no_bracket].
Qed.

Lemma quoted_other_pass q' :
  q' ≠ q →
  Js.replace_all (Path.quoted_bracket q') (String "[" (String q (body +:+ String q "]")))
  = String "[" (String q (body +:+ String q "]")).
Proof.
  intros Hq'. rewrite replace_all_head_none
    by (unfold Path.quoted_bracket; by rewrite decide_False).
  f_equal. apply replace_all_unchanged;
    [apply quoted_bracket_other|apply quoted_inner_no_bracket].
Qed.

Lemma quoted_pass :
  Js.replace_all (Path.quoted_bracket q) (String "[" (String q (body +:+ String q "]")))
  = "." +:+ body.
Proof.
  assert (Path.quoted_bracket q (String "[" (String q (body +:+ String q "]")))
          = Some ("." +:+ body, (4 + String.length body)%nat)) as Hmatch.
  { unfold Path.quoted_bracket. rewrite decide_True by done.
    rewrite span_until.
    - by rewrite decide_True.
    - eapply all_chars_impl; [|exact Hbody]. by intros c [? _]%andb_prop.
    - by rewrite bool_decide_eq_true_2. }
  rewrite (replace_all_head_some _ _ _ _ _ Hmatch).
  cbn [Nat.pred Nat.add].
  rewrite <-(append_nil_r (String q (body +:+ String q "]"))).
  replace (S (S (S (String.length body))))
    with (String.length (String q (body +:+ String q "]")))
    by (simpl; rewrite length_append; simpl; lia).
  rewrite replace_all_from_skip. simpl. by rewrite append_nil_r.
Qed.

End Quoted.

(** X28.  The bracket form with a quoted key is read as the dotted
    form: [$["key"]] and [$['key']] give the segments of [$.key], for a
    key without the quote and without an opening bracket.  A dot in
    the quoted key separates segments as it does in the dotted form. *)
Theorem parsePath_quoted (q : ascii) (body : string) :
  q = Js.double_quote ∨ q = "'"%char →
  body ≠ "" →
  Js.all_chars (λ c, negb (bool_decide (c = q)) && negb (bool_decide (c = "["%char)))
    body = true →
  Path.parsePath ("$" +:+ String "[" (String q (body +:+ String q "]")))
  = Path.parsePath ("$." +:+ body)
  ∧ Path.parsePath ("$." +:+ body) = filter (λ s, s ≠ "") (Js.split "." body).
Proof.
  intros Hq Hne Hbody.
  assert (Path.no_bracket body = true) as Hplain.
  { eapply all_chars_impl; [|exact Hbody]. by intros c [_ ?]%andb_prop. }
  assert (Path.parsePath ("$." +:+ body) = filter (λ s, s ≠ "") (Js.split "." body))
    as Hdotted.
  { unfold Path.parsePath. rewrite !append_cons, append_nil_l.
    rewrite (replace_all_unchanged Path.index_bracket)
      by auto using index_bracket_other.
    rewrite (replace_all_unchanged (Path.quoted_bracket Js.double_quote))
      by auto using quoted_bracket_other.
    by rewrite (replace_all_unchanged (Path.quoted_bracket "'"))
      by auto using quoted_bracket_other. }
  split; [|done]. rewrite Hdotted.
  unfold Path.parsePath. rewrite append_cons, append_nil_l.
  rewrite quoted_index_pass by done.
  assert (Js.replace_all (Path.quoted_bracket "'")
            (Js.replace_all (Path.quoted_bracket Js.double_quote)
               (String "[" (String q (body +:+ String q "]"))))
          = "." +:+ body) as ->.
  { destruct Hq as [-> | ->].
    - rewrite quoted_pass by (done || by left).
      apply replace_all_unchanged; [apply quoted_bracket_other|].
      by rewrite append_cons, append_nil_l.
    - rewrite quoted_other_pass by (done || by right).
      apply quoted_pass; (done || by right). }
  apply segments_dot.
Qed.

Lemma parsePath_quoted_witness :
  Path.parsePath ("$" +:+ String "[" (String "'" ("a.b" +:+ String "'" "]"))) = ["a"; "b"].
Proof.
  destruct (parsePath_quoted "'" "a.b") as [Hquoted Hdotted];
    [by right|done|done|].
  rewrite Hquoted, Hdotted. reflexivity.
Defined.

(** ** Parser: a message without a position *)

Lemma strip_prefix_suffix p s r : Parser.strip_prefix p s = Some r → s = p +:+ r.
Proof.
  revert s. induction p as [|a p IH]; intros s Hs; simpl in Hs.
  - by injection Hs as ->.
  - destruct s as [|b s]; [done|]. destruct (decide (a = b)) as [->|]; [|done].
    rewrite append_cons. f_equal. by apply IH.
Qed.

Lemma position_clause_at c r :
  Parser.strip_prefix "at " r = None → Parser.position_clause (String c r) = false.
Proof.
  intros Hr. unfold Parser.position_clause.
  destruct r as [|c1 [|c2 [|c3 r]]]; simpl in *;
    repeat (case_decide; simplify_eq/=; try done).
Qed.

Lemma line_column_clause_tail c r :
  Parser.strip_prefix "at " r = None → Parser.line_column_clause (String c r) = false.
Proof.
  intros Hr. unfold Parser.line_column_clause.
  destruct r as [|c1 [|c2 [|c3 r]]]; simpl in *;
    repeat (case_decide; simplify_eq/=; try done).
Qed.

Lemma cut_at_no_at (m : string → bool) s :
  m "" = false →
  (∀ c r, Parser.strip_prefix "at " r = None → m (String c r) = false) →
  Parser.first_match (Parser.strip_prefix "at ") s = None →
  Parser.cut_at m s = s.
Proof.
  intros Hnil Hm Hs. induction s as [|c r IH]; simpl; [by rewrite Hnil|].
  pose proof (first_match_suffix _ (String c "") r Hs) as Hr.
  rewrite Hm by (by apply first_match_here). f_equal. by apply IH.
Qed.

(** X29.  A message that gives no position, as the messages of
    JavaScriptCore do: when the text "at " does not occur in it, the
    error is placed at the start of the text (offset 0, line 1, column
    1), and its message is the message of the engine without the
    prefix [JSON.parse: ], or [Invalid JSON] when nothing is left. *)
Theorem extractParseError_without_position (msg text : string) :
  Parser.first_match (Parser.strip_prefix "at ") msg = None →
  Parser.extractParseError msg text
  = {| Parser.message :=
         match Parser.strip_prefix "JSON.parse: " msg with
         | Some "" => "Invalid JSON"
         | Some clean => clean
         | None => if decide (msg = "") then "Invalid JSON" else msg
         end;
       Parser.line := 1; Parser.column := 1; Parser.offset := 0 |}.
Proof.
  intros Hmsg. unfold Parser.extractParseError.
  rewrite (first_match_impl _ Parser.at_line_column msg at_line_column_at Hmsg).
  assert (∀ s, Parser.strip_prefix "at " s = None → Parser.at_position s = None)
    as Hposition.
  { clear. intros s Hs. unfold Parser.at_position.
    destruct s as [|c1 [|c2 [|c3 r]]]; simpl in *;
      repeat (case_decide; simplify_eq/=; try done); done. }
  rewrite (first_match_impl _ Parser.at_position msg Hposition Hmsg).
  assert (Parser.first_match (Parser.strip_prefix "at ")
            (default msg (Parser.strip_prefix "JSON.parse: " msg)) = None) as Hclean.
  { destruct (Parser.strip_prefix "JSON.parse: " msg) as [clean|] eqn:Hprefix; [|done].
    apply strip_prefix_suffix in Hprefix. rewrite Hprefix in Hmsg.
    by eapply first_match_suffix. }
  rewrite (cut_at_no_at Parser.position_clause) by (done || apply position_clause_at).
  rewrite (cut_at_no_at Parser.line_column_clause)
    by (done || apply line_column_clause_tail).
  f_equal. destruct (Parser.strip_prefix "JSON.parse: " msg) as [[|c clean]|]; done.
Qed.

Lemma extractParseError_without_position_witness :
  Parser.extractParseError "JSON Parse error: Unexpected EOF" "{"
  = {| Parser.message := "JSON Parse error: Unexpected EOF";
       Parser.line := 1; Parser.column := 1; Parser.offset := 0 |}.
Proof.
  apply (extractParseError_without_position "JSON Parse error: Unexpected EOF" "{").
  reflexivity.
Defined.

(** ** Parser: the message of SpiderMonkey *)

Lemma at_line_column_before_line b s :
  Parser.first_match (Parser.strip_prefix "at ") b = None → b ≠ "" →
  Parser.at_line_column (b +:+ (" at line " +:+ s)) = None.
Proof. intros Hb Hne. unfold Parser.at_line_column. no_at b Hb. Qed.

Lemma at_p_before_line b s :
  Parser.first_match (Parser.strip_prefix "at ") b = None → b ≠ "" →
  Parser.strip_prefix "at p" (b +:+ (" at line " +:+ s)) = None.
Proof. intros Hb Hne. no_at b Hb. Qed.

Lemma line_column_clause_before_line b s :
  Parser.first_match (Parser.strip_prefix "at ") b = None → b ≠ "" →
  Parser.line_column_clause (b +:+ (" at line " +:+ s)) = false.
Proof. intros Hb Hne. unfold Parser.line_column_clause. no_at b Hb. Qed.

Lemma position_clause_at_p c r :
  Parser.strip_prefix "at p" r = None → Parser.position_clause (String c r) = false.
Proof.
  intros Hr. unfold Parser.position_clause.
  destruct r as [|c1 [|c2 [|c3 [|c4 r]]]]; simpl in *;
    repeat (case_decide; simplify_eq/=; try done); done.
Qed.

Lemma cut_at_without (m : string → bool) (occurs : string → option string) s :
  m "" = false →
  (∀ c r, occurs r = None → m (String c r) = false) →
  Parser.first_match occurs s = None →
  Parser.cut_at m s = s.
Proof.
  intros Hnil Hm Hs. induction s as [|c r IH]; simpl; [by rewrite Hnil|].
  pose proof (first_match_suffix _ (String c "") r Hs) as Hr.
  rewrite Hm by (by apply first_match_here). f_equal. by apply IH.
Qed.

Lemma at_p_digit c r : Js.is_digit c = true → Parser.strip_prefix "at p" (String c r) = None.
Proof. intros Hc. simpl. case_decide; [|done]. by subst. Qed.

Lemma at_p_at s : Parser.strip_prefix "at " s = None → Parser.strip_prefix "at p" s = None.
Proof.
  intros Hs. destruct s as [|c1 [|c2 [|c3 [|c4 r]]]]; simpl in *;
    repeat (case_decide; simplify_eq/=; try done); done.
Qed.

Lemma digits_one_line ds :
  Js.all_chars Js.is_digit ds = true →
  Js.all_chars (λ c, negb (Parser.is_line_terminator c)) ds = true.
Proof.
  apply all_chars_impl. intros c Hc. unfold Parser.is_line_terminator.
  rewrite !bool_decide_eq_false_2; [done|by intros ->..].
Qed.

(** X30.  The message of SpiderMonkey, [JSON.parse: <what> at line
    <l> column <c><tail>]: the error has the message [<what>], the
    line and the column that the digits denote, and the offset that
    [getOffsetFromLineCol] gives for them, or 0 when that is negative.
    Neither [<what>] nor [<tail>] contains the text "at ", and the tail
    does not start with a digit and is on one line. *)
Theorem extractParseError_at_line_column (what l c tail text : string) :
  let msg :=
    "JSON.parse: " +:+ (what +:+ (" at line " +:+ (l +:+ (" column " +:+ (c +:+ tail))))) in
  Parser.first_match (Parser.strip_prefix "at ") what = None →
  Parser.first_match (Parser.strip_prefix "at ") tail = None →
  Js.all_digits l = true →
  Js.all_digits c = true →
  Parser.ends_digits tail →
  Js.all_chars (λ c, negb (Parser.is_line_terminator c)) tail = true →
  Parser.extractParseError msg text
  = let line := Js.digits_value 0 l in
    let column := Js.digits_value 0 c in
    {| Parser.message := if decide (what = "") then "Invalid JSON" else what;
       Parser.line := line;
       Parser.column := column;
       Parser.offset := Z.max 0 (Parser.getOffsetFromLineCol text line column) |}.
Proof.
  intros msg Hwhat Htail Hl Hc Hend Hline.
  pose proof Hl as [_ Hldigits]%andb_prop. pose proof Hc as [_ Hcdigits]%andb_prop.
  assert (∀ a b, what = a +:+ b →
            Parser.first_match (Parser.strip_prefix "at ") b = None) as Hsuffix.
  { intros a b ->. by eapply first_match_suffix. }
  set (after := l +:+ (" column " +:+ (c +:+ tail))).
  assert (Parser.leading_digits after = Some (l, " column " +:+ (c +:+ tail))) as Hlead.
  { apply leading_digits_tail; [done|]. by rewrite append_cons. }
  assert (Parser.at_line_column ("at line " +:+ after) = Some (l, c)) as Hhere.
  { unfold Parser.at_line_column. rewrite strip_prefix_append.
    cbn [mbind option_bind]. rewrite Hlead. cbn [mbind option_bind].
    rewrite strip_prefix_append. cbn [mbind option_bind].
    by rewrite leading_digits_tail. }
  assert (Parser.first_match Parser.at_line_column msg = Some (l, c)) as HlineCol.
  { unfold msg. fold after.
    remember (what +:+ (" at line " +:+ after)) as rest eqn:Hrest.
    rewrite !append_cons, append_nil_l. simpl. subst rest.
    rewrite first_match_append
      by (intros a b Hab Hb; apply at_line_column_before_line; eauto).
    change (" at line " +:+ after) with (String " " ("at line " +:+ after)).
    cbn [Parser.first_match].
    replace (Parser.at_line_column (String " " ("at line " +:+ after)))
      with (@None (string * string)) by done.
    by apply first_match_found. }
  assert (Parser.strip_prefix "JSON.parse: " msg = Some (what +:+ (" at line " +:+ after)))
    as Hprefix by apply strip_prefix_append.
  assert (Parser.first_match (Parser.strip_prefix "at p") (what +:+ (" at line " +:+ after))
          = None) as Hposition.
  { rewrite first_match_append by (intros a b Hab Hb; apply at_p_before_line; eauto).
    remember after as rest eqn:Hrest.
    rewrite !append_cons, append_nil_l. simpl. subst rest. unfold after.
    rewrite digits_no_match by (done || apply at_p_digit).
    remember (c +:+ tail) as rest eqn:Hrest.
    rewrite !append_cons, append_nil_l. simpl. subst rest.
    rewrite digits_no_match by (done || apply at_p_digit).
    eapply first_match_impl; [apply at_p_at|done]. }
  assert (Parser.line_column_clause (" at line " +:+ after) = true) as Hclause.
  { unfold Parser.line_column_clause. rewrite strip_prefix_append, Hlead.
    rewrite strip_prefix_append, leading_digits_tail by done.
    rewrite bool_decide_eq_true_2 by eauto. cbn [andb]. unfold after.
    rewrite !all_chars_append, (digits_one_line l), (digits_one_line c), Hline by done.
    done. }
  unfold Parser.extractParseError. rewrite HlineCol, Hprefix.
  change (default msg (Some (what +:+ (" at line " +:+ after))))
    with (what +:+ (" at line " +:+ after)).
  rewrite (cut_at_without Parser.position_clause (Parser.strip_prefix "at p"))
    by (done || apply position_clause_at_p).
  rewrite cut_at_append
    by (intros a b Hab Hb; apply line_column_clause_before_line; eauto).
  rewrite (cut_at_found _ _ Hclause), append_nil_r.
  by destruct (Parser.first_match Parser.at_position msg).
Qed.

Lemma extractParseError_at_line_column_witness :
  Parser.extractParseError
    "JSON.parse: unexpected character at line 2 column 3 of the JSON data"
    (String "{" (String Parser.newline "  x: }"))
  = {| Parser.message := "unexpected character"; Parser.line := 2;
       Parser.column := 3; Parser.offset := 4 |}.
Proof.
  apply (extractParseError_at_line_column "unexpected character" "2" "3"
           " of the JSON data" (String "{" (String Parser.newline "  x: }")));
    reflexivity || exact I.
Defined.
